(** * igbo_api: the suggestion-merge core of the word and example controllers

    A shallow embedding of [src/controllers/words.js] and
    [src/controllers/examples.js]: the document store is an explicit state,
    every asynchronous controller is a state-passing function that returns
    either a value or a JavaScript error, and the lodash helpers are list
    functions.

    What the sources leave to the JavaScript runtime, to lodash and to
    mongoose is modelled as follows.  A string is the sequence of its
    UTF-16 code units, one character of the model each; the model covers
    the strings whose code units are below 256.  [_.uniq] compares values,
    strings by content and objects by reference; the callbacks that call
    [toString] compare string forms, and so does the [includes] of the
    array of a mongoose document.  The [save] of a document that was never
    saved is an insert, which fails on an [_id] in use; the [save] of a
    stored document writes it back and fails when the stored version is
    gone.  A write operation fails when the store says so, with the error
    the store gives; reads do not fail.

    The store is keyed by the string form of [_id], 24 lower-case hex
    digits, and an identifier in a request is looked up as it is written.
    Mongoose first casts it to an ObjectId, which is [castObjectId]: the
    model and mongoose agree on the identifiers that are written as the
    store writes them, and the properties that turn on the spelling of an
    identifier say so.

    [Promise.all] over mapped asynchronous callbacks runs the callbacks one
    after the other, in array order, up to the first that rejects.  Node
    starts every callback before the first of them resumes, so that with
    several callbacks the writes interleave and the callbacks after a
    rejection run on.  What is stated of a cascade that rejects is stated of
    each nested document by itself, whatever the others have come to, and
    is shown on runs with one callback. *)

From Stdlib Require Import Ascii String.
From stdpp Require Import base decidable option list strings gmap fin_maps.

Open Scope string_scope.
Open Scope list_scope.

(** ** JavaScript values used as document identifiers *)

Module Js.

(** An identifier held in an [associatedWords] array or in an
    [original...Id] field is either a string primitive or an ObjectId
    object.  An object has a heap reference of its own: two ObjectId objects
    can print the same 24 hex digits and still be two values. *)
Inductive IdValue : Type :=
  | IdStr (s : string)
  | IdObj (ref : nat) (hex : string).

#[global] Instance IdValue_eq_dec : EqDecision IdValue.
Proof. solve_decision. Defined.

(** [value.toString()] *)
Definition toString (v : IdValue) : string :=
  match v with
  | IdStr s => s
  | IdObj _ hex => hex
  end.

(** Truthiness of a possibly absent identifier: [null], [undefined] and the
    empty string are falsy, every object is truthy. *)
Definition truthy (o : option IdValue) : bool :=
  match o with
  | None => false
  | Some (IdStr s) => bool_decide (s ≠ "")
  | Some (IdObj _ _) => true
  end.

(** Truthiness of a text field. *)
Definition truthy_text (s : string) : bool := bool_decide (s ≠ "").

(** An [Error] object: its class name and its message. *)
Record Error : Type := mkErr { name : string; message : string }.

#[global] Instance Error_eq_dec : EqDecision Error.
Proof. solve_decision. Defined.

(** [new Error(msg)] *)
Definition newError (msg : string) : Error := mkErr "Error" msg.

End Js.
Export Js.

(** ** lodash *)

Module Lodash.

Section Uniq.
Context {A K : Type} `{EqDecision K}.

(** [baseUniq]: walk the array, keep an element when the value computed
    from it has not been seen yet (SameValueZero on the computed value). *)
Fixpoint baseUniq (iteratee : A → K) (seen : list K) (array : list A) : list A :=
  match array with
  | [] => []
  | value :: rest =>
      if decide (iteratee value ∈ seen)
      then baseUniq iteratee seen rest
      else value :: baseUniq iteratee (iteratee value :: seen) rest
  end.

(** [_.uniqBy(array, iteratee)] *)
Definition uniqBy (array : list A) (iteratee : A → K) : list A :=
  baseUniq iteratee [] array.
End Uniq.

(** [_.uniq(array)] *)
Definition uniq {A : Type} `{EqDecision A} (array : list A) : list A :=
  uniqBy array (λ value, value).

(** [_.filter(array, predicate)] *)
Definition filter_ {A : Type} (array : list A) (predicate : A → bool) : list A :=
  List.filter predicate array.

(** [_.some(array, predicate)] *)
Definition some {A : Type} (array : list A) (predicate : A → bool) : bool :=
  existsb predicate array.

End Lodash.
Export Lodash.

(** ** The relinker on one associated-word array *)

(** The body of the callback of [replaceWordIdsFromExampleAssociatedWords]:
    [push(newId)], then [uniqBy(filter(..., toString !== oldId.toString()),
    toString)]. *)
Definition relinkAssociatedWords (associatedWords : list IdValue) (oldId newId : IdValue)
  : list IdValue :=
  let pushed := associatedWords ++ [newId] in
  uniqBy
    (filter_ pushed (λ associatedWord,
       bool_decide (toString associatedWord ≠ toString oldId)))
    toString.

(** ** Documents *)

Module Word.
Record t : Type := mk {
  word : string;
  wordClass : string;
  definitions : option (list string);
  variations : option (list string);
  stems : option (list string);
  examples : list string;
  authorId : option string
}.
End Word.

Module Example.
Record t : Type := mk {
  igbo : string;
  english : string;
  associatedWords : list IdValue
}.
End Example.

Module ExampleSuggestion.
Record t : Type := mk {
  igbo : string;
  english : string;
  associatedWords : list IdValue;
  originalExampleId : option IdValue;
  authorId : option string;
  merged : option string;
  mergedBy : option string
}.
End ExampleSuggestion.

#[global] Instance Example_eq_dec : EqDecision Example.t.
Proof. solve_decision. Defined.
#[global] Instance ExampleSuggestion_eq_dec : EqDecision ExampleSuggestion.t.
Proof. solve_decision. Defined.
#[global] Instance Word_eq_dec : EqDecision Word.t.
Proof. solve_decision. Defined.

(** The example objects embedded in the data handed to [createWord]. *)
Record ExampleData : Type := mkExampleData {
  data_igbo : string;
  data_english : string
}.

Module WordSuggestion.
Record t : Type := mk {
  word : string;
  wordClass : string;
  definitions : option (list string);
  variations : option (list string);
  stems : option (list string);
  examples : list ExampleData;
  originalWordId : option IdValue;
  authorId : option string;
  merged : option string;
  mergedBy : option string
}.
End WordSuggestion.

(** A document held in memory by a controller: its [id] (the string form of
    [_id]), whether it has never been saved, and its fields. *)
Record Doc (A : Type) : Type := mkDoc {
  id : string;
  isNew : bool;
  fields : A
}.
Arguments mkDoc {A} _ _ _.
Arguments id {A} _.
Arguments isNew {A} _.
Arguments fields {A} _.

Record User : Type := mkUser { email : option string }.

(** What the user service does with a submitter identity that it knows:
    it answers with the user's record, with or without a contact address,
    or the lookup fails. *)
Inductive UserLookup : Type :=
  | Registered (address : option string)
  | Unavailable (e : Error).

(** Modelled from the spec: [SuggestionTypes] of
    [shared/constants/suggestionTypes] is not among the sources.  Section
    4.4: the notification carries the type of the suggestion. *)
Inductive SuggestionTypes : Type := WORD | EXAMPLE.

(** The argument of [sendMergedEmail] as [handleSendingMergedEmail] builds
    it: [to], [suggestionType], [submissionLink] and the spread result. *)
Record MergedEmail : Type := mkMergedEmail {
  to : string;
  suggestionType : SuggestionTypes;
  submissionLink : string;
  payload : Doc Word.t
}.

(** ** The document store and the environment of a request *)

Record Store : Type := mkStore {
  words : gmap string Word.t;
  examples : gmap string Example.t;
  exampleSuggestions : gmap string ExampleSuggestion.t;
  wordSuggestions : gmap string WordSuggestion.t;
  (** the user service: what it does with each submitter identity it
      knows *)
  users : gmap string UserLookup;
  (** how many ObjectIds the driver has handed out *)
  oidCounter : nat;
  (** what the next write operations of the store will do: [Some e] makes
      the write fail with [e]; an exhausted script means no more failures *)
  faults : list (option Error);
  (** whether the mail transport delivers *)
  mailerUp : bool;
  (** the notifications delivered so far, oldest first *)
  outbox : list MergedEmail
}.

Definition set_words (f : gmap string Word.t → gmap string Word.t) (s : Store) : Store :=
  mkStore (f (words s)) (examples s) (exampleSuggestions s) (wordSuggestions s)
          (users s) (oidCounter s) (faults s) (mailerUp s) (outbox s).
Definition set_examples (f : gmap string Example.t → gmap string Example.t) (s : Store) : Store :=
  mkStore (words s) (f (examples s)) (exampleSuggestions s) (wordSuggestions s)
          (users s) (oidCounter s) (faults s) (mailerUp s) (outbox s).
Definition set_exampleSuggestions
    (f : gmap string ExampleSuggestion.t → gmap string ExampleSuggestion.t) (s : Store) : Store :=
  mkStore (words s) (examples s) (f (exampleSuggestions s)) (wordSuggestions s)
          (users s) (oidCounter s) (faults s) (mailerUp s) (outbox s).
Definition set_wordSuggestions
    (f : gmap string WordSuggestion.t → gmap string WordSuggestion.t) (s : Store) : Store :=
  mkStore (words s) (examples s) (exampleSuggestions s) (f (wordSuggestions s))
          (users s) (oidCounter s) (faults s) (mailerUp s) (outbox s).
Definition set_oidCounter (n : nat) (s : Store) : Store :=
  mkStore (words s) (examples s) (exampleSuggestions s) (wordSuggestions s)
          (users s) n (faults s) (mailerUp s) (outbox s).
Definition set_faults (fs : list (option Error)) (s : Store) : Store :=
  mkStore (words s) (examples s) (exampleSuggestions s) (wordSuggestions s)
          (users s) (oidCounter s) fs (mailerUp s) (outbox s).
Definition set_outbox (o : list MergedEmail) (s : Store) : Store :=
  mkStore (words s) (examples s) (exampleSuggestions s) (wordSuggestions s)
          (users s) (oidCounter s) (faults s) (mailerUp s) o.

(** ** Promises: state passing with rejection *)

Inductive Result (A : Type) : Type :=
  | Ok (a : A)
  | Err (e : Error).
Arguments Ok {A} _.
Arguments Err {A} _.

(** An asynchronous computation: run against the store, it resolves with a
    value or rejects with an error; what it wrote before rejecting stays
    written. *)
Definition M (A : Type) : Type := Store → Result A * Store.

Definition ret {A} (a : A) : M A := λ s, (Ok a, s).
Definition throw {A} (e : Error) : M A := λ s, (Err e, s).
Definition bind {A B} (c : M A) (k : A → M B) : M B :=
  λ s, match c s with
       | (Ok a, s') => k a s'
       | (Err e, s') => (Err e, s')
       end.
(** [promise.catch(handler)] *)
Definition catch {A} (c : M A) (handler : Error → M A) : M A :=
  λ s, match c s with
       | (Ok a, s') => (Ok a, s')
       | (Err e, s') => handler e s'
       end.
(** A promise nobody awaits: its effects happen, its rejection reaches no
    one. *)
Definition detached {A} (c : M A) : M unit :=
  λ s, (Ok tt, (c s).2).

Notation "'await' x ← c ; k" := (bind c (λ x, k))
  (at level 10, x name, c at level 100, k at level 200,
   format "'[v' 'await'  x  ←  c ; '/' k ']'").

(** [Promise.all(map(xs, async f))].  The branches are run one after the
    other in array order and the first rejection is the rejection of the
    whole; the branches after it are not run.  (Under Node they are all
    started, and run on after the rejection.) *)
Fixpoint promiseAllMap {A B} (f : A → M B) (xs : list A) : M (list B) :=
  match xs with
  | [] => ret []
  | x :: rest =>
      await y ← f x;
      await ys ← promiseAllMap f rest;
      ret (y :: ys)
  end.

(** ** mongoose *)

Module Mongoose.

Definition isHexDigit (c : ascii) : bool :=
  let n := nat_of_ascii c in
  (((48 <=? n) && (n <=? 57)) || ((97 <=? n) && (n <=? 102))
   || ((65 <=? n) && (n <=? 70)))%nat.

(** [mongoose.Types.ObjectId.isValid]: an ObjectId object, a string of 12
    characters, or a string of 24 hex digits. *)
Definition isValid (v : IdValue) : bool :=
  match v with
  | IdObj _ _ => true
  | IdStr s =>
      (String.length s =? 12)%nat
      || ((String.length s =? 24)%nat && forallb isHexDigit (list_ascii_of_string s))
  end.

Definition hexDigit (n : nat) : ascii :=
  ascii_of_nat (if (n <? 10)%nat then 48 + n else 87 + n).

Fixpoint hexDigits (width : nat) (n : nat) : string :=
  match width with
  | 0 => ""
  | S w => hexDigits w (n / 16) +:+ String (hexDigit (n mod 16)) ""
  end.

(** The hex form of the [n]-th ObjectId the driver hands out. *)
Definition objectIdOf (n : nat) : string := hexDigits 24 n.
#[global] Arguments objectIdOf : simpl never.

(** A hex digit in lower case. *)
Definition lowerHexDigit (c : ascii) : ascii :=
  let n := nat_of_ascii c in
  if ((65 <=? n) && (n <=? 70))%nat then ascii_of_nat (n + 32) else c.

(** The two hex digits of a character code. *)
Definition hexOfChar (c : ascii) : string :=
  let n := nat_of_ascii c in
  String (hexDigit (n / 16)) (String (hexDigit (n mod 16)) "").

(** The ObjectId that mongoose casts the identifier of a query to, by its
    string form: an ObjectId object is itself, a string of 24 hex digits is
    read whatever the case of its digits, a string of 12 characters is read
    as 12 character codes; no other string is cast. *)
Definition castObjectId (v : IdValue) : option string :=
  match v with
  | IdObj _ hex => Some hex
  | IdStr s =>
      if (String.length s =? 24)%nat && forallb isHexDigit (list_ascii_of_string s)
      then Some (string_of_list_ascii (lowerHexDigit <$> list_ascii_of_string s))
      else if (String.length s =? 12)%nat
      then Some (String.concat "" (hexOfChar <$> list_ascii_of_string s))
      else None
  end.

(** [new Model(...)] draws a fresh [_id]. *)
Definition newObjectId : M string :=
  λ s, (Ok (objectIdOf (oidCounter s)), set_oidCounter (S (oidCounter s)) s).

(** Every write operation first meets the fault script. *)
Definition storeWrite : M unit :=
  λ s, match faults s with
       | [] => (Ok tt, s)
       | None :: fs => (Ok tt, set_faults fs s)
       | Some e :: fs => (Err e, set_faults fs s)
       end.

Definition duplicateKeyError : Error :=
  mkErr "MongoError" "E11000 duplicate key error".
Definition documentNotFoundError : Error :=
  mkErr "DocumentNotFoundError" "No document found for query".

End Mongoose.
Export Mongoose.

(** *** Model operations

    One collection is a finite map from the string form of [_id] to the
    document's fields.  Queries compare identifiers by their string form, as
    the store does after casting. *)

Section Collection.
Context {A : Type}.
Variable get : Store → gmap string A.
Variable set : (gmap string A → gmap string A) → Store → Store.

(** [Model.findById(id)]: the document, or [null].  The identifier is
    looked up as it is written. *)
Definition findByIdIn (v : IdValue) : M (option (Doc A)) :=
  λ s, (Ok (mkDoc (toString v) false <$> get s !! toString v), s).

(** [doc.save()]: a document that was never saved is inserted, and the
    insert fails on an [_id] already in the collection; a document that
    came from the store is written back over its stored version, and the
    write fails when that version is gone.  Mongoose rejects such a write
    with a DocumentNotFoundError, or with a VersionError when the update
    carries the version of an array; the model has the one error for both,
    and no property is stated of which of them it is. *)
Definition saveIn (d : Doc A) : M (Doc A) :=
  await _ ← storeWrite;
  λ s, match isNew d, get s !! id d with
       | true, Some _ => (Err duplicateKeyError, s)
       | true, None => (Ok (mkDoc (id d) false (fields d)), set (insert (id d) (fields d)) s)
       | false, Some _ => (Ok d, set (insert (id d) (fields d)) s)
       | false, None => (Err documentNotFoundError, s)
       end.

(** [Model.findOneAndUpdate({ _id: v }, update)]: overwrites the stored
    document with the update and resolves with the document as it was
    before, or with [null] when no document has that [_id]. *)
Definition findOneAndUpdateIn (v : option IdValue) (update : A → A) : M (option (Doc A)) :=
  await _ ← storeWrite;
  λ s, match v ≫= (λ v, (λ old, (toString v, old)) <$> get s !! toString v) with
       | Some (key, old) => (Ok (Some (mkDoc key false old)), set (insert key (update old)) s)
       | None => (Ok None, s)
       end.

(** [Model.deleteOne({ _id: key })] *)
Definition deleteOneIn (key : string) : M unit :=
  await _ ← storeWrite;
  λ s, (Ok tt, set (delete key) s).

(** [Model.find(query)] for a query on the fields: the matching documents. *)
Definition findIn (query : A → bool) : M (list (Doc A)) :=
  λ s, (Ok ((λ kv, mkDoc kv.1 false kv.2)
              <$> List.filter (λ kv, query kv.2) (map_to_list (get s))), s).
End Collection.

Definition Word_findById := findByIdIn words.
Definition Word_save := saveIn words set_words.
Definition Word_findOneAndUpdate := findOneAndUpdateIn words set_words.
Definition Word_deleteOne := deleteOneIn set_words.
Definition Example_save := saveIn examples set_examples.
Definition Example_findOneAndUpdate := findOneAndUpdateIn examples set_examples.
Definition Example_find := findIn examples.
Definition ExampleSuggestion_save := saveIn exampleSuggestions set_exampleSuggestions.
Definition ExampleSuggestion_find := findIn exampleSuggestions.
Definition WordSuggestion_save := saveIn wordSuggestions set_wordSuggestions.

(** [array.includes(value)] on the array of a mongoose document: the
    entries are compared with the value by their string forms. *)
Definition includes (array : list IdValue) (value : IdValue) : bool :=
  bool_decide (toString value ∈ toString <$> array).

(** The query [{ associatedWords: id }], also written
    [{ associatedWords: { $in: [id] } }]: the array holds the identifier. *)
Definition holdsAssociatedWord (wordId : string) (associatedWords : list IdValue) : bool :=
  bool_decide (wordId ∈ toString <$> associatedWords).

(** ** Helpers of the repository that live outside the two controllers *)

(** The two kinds of suggestion carry the same merge stamp. *)
Class Suggestion (A : Type) : Type := {
  setMerge : string → string → A → A;
  saveSuggestion : Doc A → M (Doc A)
}.

#[global] Instance ExampleSuggestion_Suggestion : Suggestion ExampleSuggestion.t := {
  setMerge originalDocId by_ es :=
    ExampleSuggestion.mk
      (ExampleSuggestion.igbo es) (ExampleSuggestion.english es)
      (ExampleSuggestion.associatedWords es) (ExampleSuggestion.originalExampleId es)
      (ExampleSuggestion.authorId es) (Some originalDocId) (Some by_);
  saveSuggestion := ExampleSuggestion_save
}.

#[global] Instance WordSuggestion_Suggestion : Suggestion WordSuggestion.t := {
  setMerge originalDocId by_ ws :=
    WordSuggestion.mk
      (WordSuggestion.word ws) (WordSuggestion.wordClass ws)
      (WordSuggestion.definitions ws) (WordSuggestion.variations ws)
      (WordSuggestion.stems ws) (WordSuggestion.examples ws)
      (WordSuggestion.originalWordId ws) (WordSuggestion.authorId ws)
      (Some originalDocId) (Some by_);
  saveSuggestion := WordSuggestion_save
}.

(** Modelled from the spec: [updateDocumentMerge] of [controllers/utils] is
    not among the sources.  Following section 3 and section 4.3, step 4, it
    stamps the suggestion document with the canonical record it was merged
    into and with the merger's identity, persists the stamped document, and
    resolves with it.  The timestamp of the stamp is left out. *)
Definition updateDocumentMerge {A} `{Suggestion A}
    (suggestionDoc : Doc A) (originalDocId : string) (mergedBy : string) : M (Doc A) :=
  let updatedSuggestion :=
    mkDoc (id suggestionDoc) (isNew suggestionDoc)
      (setMerge originalDocId mergedBy (fields suggestionDoc)) in
  saveSuggestion updatedSuggestion.

(** Modelled from the spec: [findExampleSuggestionById] of
    [controllers/exampleSuggestions] is not among the sources.  Section 4.3,
    step 1: fetch the Example Suggestion by id, absent when there is none. *)
Definition findExampleSuggestionById (exampleSuggestionId : string)
  : M (option (Doc ExampleSuggestion.t)) :=
  findByIdIn exampleSuggestions (IdStr exampleSuggestionId).

(** Modelled from the spec: [findWordsWithMatch] of [controllers/utils] is
    not among the sources.  Section 4.4: re-fetch the canonical Word with
    the given [_id]; the result is the list of matches, at most [limit]
    long.  The resolution of the example references is not represented. *)
Definition findWordsWithMatch (_id : option IdValue) (limit : nat) : M (list (Doc Word.t)) :=
  λ s, (Ok (take limit (option_list (_id ≫= (λ v,
              mkDoc (toString v) false <$> words s !! toString v)))), s).

(** Modelled from the spec: [getDocumentsIds] of
    [shared/utils/documentUtils] is not among the sources.  Section 4.4:
    collect the ids of the created examples. *)
Definition getDocumentsIds {A} (docs : list (Doc A)) : list string := id <$> docs.

(** Modelled from the spec: [deleteWordSuggestionsByOriginalWordId] of
    [controllers/wordSuggestions] is not among the sources.  Section 4.5,
    step 6: delete all Word Suggestions whose [originalWordId] equals the
    deleted id, whatever their merge status. *)
Definition deleteWordSuggestionsByOriginalWordId (wordId : string) : M unit :=
  await _ ← storeWrite;
  λ s, (Ok tt,
        set_wordSuggestions
          (filter (λ kv, (toString <$> WordSuggestion.originalWordId kv.2) ≠ Some wordId)) s).

(** Modelled from the spec: [findUser] of [controllers/users] is not among
    the sources.  Section 6: a user lookup returning the contact address for
    a submitter identity, or absent data if there is none; section 9 speaks
    of lookup failures.  An identity the service knows gives its record or
    the failure; for an identity it does not know the lookup resolves with
    absent data. *)
Definition findUser (uid : string) : M (option User) :=
  λ s, match users s !! uid with
       | Some (Registered address) => (Ok (Some (mkUser address)), s)
       | Some (Unavailable e) => (Err e, s)
       | None => (Ok None, s)
       end.

(** Modelled from the spec: [sendMergedEmail] of [controllers/email] is not
    among the sources.  Section 6: a notification sender performing
    best-effort delivery; a delivery that fails rejects. *)
Definition sendMergedEmail (mail : MergedEmail) : M unit :=
  λ s, if mailerUp s
       then (Ok tt, set_outbox (outbox s ++ [mail]) s)
       else (Err (mkErr "Error" "The email could not be delivered"), s).

(** ** controllers/examples.js *)

(** What [new Example(obj)] and an update of an Example keep of a
    suggestion's [toObject()]: the paths of the Example schema. *)
Definition exampleFields (es : ExampleSuggestion.t) : Example.t :=
  Example.mk (ExampleSuggestion.igbo es) (ExampleSuggestion.english es)
             (ExampleSuggestion.associatedWords es).

Definition createExample (data : Example.t) : M (Doc Example.t) :=
  await _id ← newObjectId;
  let example := mkDoc _id true data in
  Example_save example.

Definition findExampleByAssociatedWordId (wordId : string) : M (list (Doc Example.t)) :=
  Example_find (λ e, holdsAssociatedWord wordId (Example.associatedWords e)).

Definition mergeIntoExample (exampleSuggestion : Doc ExampleSuggestion.t) (mergedBy : string)
  : M (Doc Example.t) :=
  await example ← Example_findOneAndUpdate
                    (ExampleSuggestion.originalExampleId (fields exampleSuggestion))
                    (λ _, exampleFields (fields exampleSuggestion));
  match example with
  | None => throw (newError "Example doesn't exist")
  | Some example =>
      await _ ← updateDocumentMerge exampleSuggestion (id example) mergedBy;
      ret example
  end.

Definition createExampleFromSuggestion
    (exampleSuggestion : Doc ExampleSuggestion.t) (mergedBy : string) : M (Doc Example.t) :=
  catch
    (await example ← createExample (exampleFields (fields exampleSuggestion));
     await _ ← updateDocumentMerge exampleSuggestion (id example) mergedBy;
     ret example)
    (λ _, throw (newError "An error occurred while saving the new example.")).

(** The callback that [executeMergeExample] maps over the associated
    words. *)
Definition wordMustExist (associatedWordId : IdValue) : M unit :=
  await found ← Word_findById associatedWordId;
  match found with
  | None => throw (newError
      "Example suggestion associated words can only contain Word ids before merging")
  | Some _ => ret tt
  end.

Definition executeMergeExample (exampleSuggestionId : string) (mergedBy : string)
  : M (Doc Example.t) :=
  await exampleSuggestion ← findExampleSuggestionById exampleSuggestionId;
  match exampleSuggestion with
  | None =>
      throw (newError
        "There is no associated example suggestion, double check your provided data")
  | Some exampleSuggestion =>
      let es := fields exampleSuggestion in
      if negb (truthy_text (ExampleSuggestion.igbo es))
         && negb (truthy_text (ExampleSuggestion.english es))
      then throw (newError
             "Required information is missing, double check your provided data")
      else if some (ExampleSuggestion.associatedWords es)
                   (λ associatedWord, negb (isValid associatedWord))
      then throw (newError "Invalid id found in associatedWords")
      else
        await _ ← promiseAllMap wordMustExist (ExampleSuggestion.associatedWords es);
        if negb (length (ExampleSuggestion.associatedWords es)
                 =? length (uniq (ExampleSuggestion.associatedWords es)))%nat
        then throw (newError "Duplicates are not allows in associated words")
        else if truthy (ExampleSuggestion.originalExampleId es)
             then mergeIntoExample exampleSuggestion mergedBy
             else createExampleFromSuggestion exampleSuggestion mergedBy
  end.

(** ** controllers/words.js *)

(** The data [createWord] destructures. *)
Record WordData : Type := mkWordData {
  d_examples : list ExampleData;
  d_word : string;
  d_wordClass : string;
  d_definitions : option (list string);
  d_variations : option (list string);
  d_stems : option (list string)
}.

(** [suggestionDoc.toObject()] as [createWord] reads it. *)
Definition toWordData (ws : WordSuggestion.t) : WordData :=
  mkWordData (WordSuggestion.examples ws) (WordSuggestion.word ws)
             (WordSuggestion.wordClass ws) (WordSuggestion.definitions ws)
             (WordSuggestion.variations ws) (WordSuggestion.stems ws).

(** [suggestionDoc.toObject()] as an update of a stored Word: the text and
    array paths of the Word are overwritten, and the submitter identity with
    them; the Word keeps its example references. *)
Definition wordUpdate (ws : WordSuggestion.t) (old : Word.t) : Word.t :=
  Word.mk (WordSuggestion.word ws) (WordSuggestion.wordClass ws)
          (WordSuggestion.definitions ws) (WordSuggestion.variations ws)
          (WordSuggestion.stems ws) (Word.examples old) (WordSuggestion.authorId ws).

Definition setExamples (exampleIds : list string) (w : Doc Word.t) : Doc Word.t :=
  mkDoc (id w) (isNew w)
    (Word.mk (Word.word (fields w)) (Word.wordClass (fields w))
             (Word.definitions (fields w)) (Word.variations (fields w))
             (Word.stems (fields w)) exampleIds (Word.authorId (fields w))).

Definition createWord (data : WordData) : M (Doc Word.t) :=
  let wordData :=
    Word.mk (d_word data) (d_wordClass data) (d_definitions data)
            (d_variations data) (d_stems data) [] None in
  await _id ← newObjectId;
  let newWord := mkDoc _id true wordData in
  await newWord ← Word_save newWord;
  await resolvedExamples ←
    promiseAllMap
      (λ example,
         let exampleData :=
           Example.mk (data_igbo example) (data_english example) [IdStr (id newWord)] in
         createExample exampleData)
      (d_examples data);
  let exampleIds := getDocumentsIds resolvedExamples in
  let newWord := setExamples exampleIds newWord in
  Word_save newWord.

Definition setAssociatedWords (associatedWords : list IdValue)
    (d : Doc ExampleSuggestion.t) : Doc ExampleSuggestion.t :=
  let es := fields d in
  mkDoc (id d) (isNew d)
    (ExampleSuggestion.mk
       (ExampleSuggestion.igbo es) (ExampleSuggestion.english es) associatedWords
       (ExampleSuggestion.originalExampleId es) (ExampleSuggestion.authorId es)
       (ExampleSuggestion.merged es) (ExampleSuggestion.mergedBy es)).

(** The array a nested Example Suggestion is saved with: the Word
    Suggestion's id filtered out by string form, the canonical Word's id
    pushed unless [includes] finds it.  The pushed id is kept as the string
    that is pushed; the ObjectId that mongoose makes of it has the same
    string form. *)
Definition cascadeAssociatedWords (associatedWords : list IdValue)
    (suggestionId originalWordId : string) : list IdValue :=
  let filtered :=
    filter_ associatedWords
      (λ associatedWord, bool_decide (toString associatedWord ≠ suggestionId)) in
  if negb (includes filtered (IdStr originalWordId))
  then filtered ++ [IdStr originalWordId]
  else filtered.

(** The callback that [updateSuggestionAfterMerge] maps over the nested
    Example Suggestions. *)
Definition mergeNestedExample (suggestionId originalWordId mergedBy : string)
    (exampleSuggestion : Doc ExampleSuggestion.t) : M (Doc Example.t) :=
  let removeSuggestionAssociatedIds :=
    setAssociatedWords
      (cascadeAssociatedWords (ExampleSuggestion.associatedWords (fields exampleSuggestion))
         suggestionId originalWordId)
      exampleSuggestion in
  await updatedExampleSuggestion ← ExampleSuggestion_save removeSuggestionAssociatedIds;
  executeMergeExample (id updatedExampleSuggestion) mergedBy.

Definition updateSuggestionAfterMerge (suggestionDoc : Doc WordSuggestion.t)
    (originalWordDoc : Doc Word.t) (mergedBy : string) : M (Doc WordSuggestion.t) :=
  await updatedSuggestionDoc ← updateDocumentMerge suggestionDoc (id originalWordDoc) mergedBy;
  await exampleSuggestions ←
    ExampleSuggestion_find
      (λ es, holdsAssociatedWord (id suggestionDoc) (ExampleSuggestion.associatedWords es));
  await _ ← promiseAllMap
              (mergeNestedExample (id suggestionDoc) (id originalWordDoc) mergedBy)
              exampleSuggestions;
  WordSuggestion_save updatedSuggestionDoc.

(** The chain [Word.findOneAndUpdate(...).then(...)] of [mergeIntoWord],
    before its [.catch]. *)
Definition mergeIntoWord_then (suggestionDoc : Doc WordSuggestion.t) (mergedBy : string)
  : M (option (Doc Word.t)) :=
  await originalWord ← Word_findOneAndUpdate
                         (WordSuggestion.originalWordId (fields suggestionDoc))
                         (wordUpdate (fields suggestionDoc));
  match originalWord with
  | None => throw (newError "Word doesn't exist")
  | Some originalWord =>
      await _ ← updateSuggestionAfterMerge suggestionDoc originalWord mergedBy;
      await found ← findWordsWithMatch
                      (WordSuggestion.originalWordId (fields suggestionDoc)) 1;
      ret (head found)
  end.

Definition mergeIntoWord (suggestionDoc : Doc WordSuggestion.t) (mergedBy : string)
  : M (option (Doc Word.t)) :=
  catch (mergeIntoWord_then suggestionDoc mergedBy)
        (λ error, throw (newError (message error))).

(** The chain [createWord(...).then(...)] of [createWordFromSuggestion],
    before its [.catch]. *)
Definition createWordFromSuggestion_then (suggestionDoc : Doc WordSuggestion.t)
    (mergedBy : string) : M (Doc Word.t) :=
  await word ← createWord (toWordData (fields suggestionDoc));
  await _ ← updateSuggestionAfterMerge suggestionDoc word mergedBy;
  ret word.

Definition createWordFromSuggestion (suggestionDoc : Doc WordSuggestion.t)
    (mergedBy : string) : M (Doc Word.t) :=
  catch (createWordFromSuggestion_then suggestionDoc mergedBy)
        (λ _, throw (newError "An error occurred while saving the new word.")).

(** What an Express handler does with the request: [res.send(value)] or
    [next(err)]. *)
Inductive Response (A : Type) : Type :=
  | Send (value : A)
  | Next (err : Error).
Arguments Send {A} _.
Arguments Next {A} _.

(** [try { ...; return res.send(x) } catch (err) { return next(err) }] *)
Definition tryCatch {A} (c : M A) : Store → Response A * Store :=
  λ s, match c s with
       | (Ok a, s') => (Send a, s')
       | (Err e, s') => (Next e, s')
       end.

Record MergeWordRequest : Type := mkMergeWordRequest {
  user_uid : string;
  suggestionDoc : Doc WordSuggestion.t
}.

(** The [result] of [mergeWord]: what the branch chosen by
    [suggestionDoc.originalWordId] resolves with. *)
Definition mergeWord_result (req : MergeWordRequest) : M (option (Doc Word.t)) :=
  let user := user_uid req in
  let suggestionDoc := suggestionDoc req in
  if truthy (WordSuggestion.originalWordId (fields suggestionDoc))
  then mergeIntoWord suggestionDoc user
  else await word ← createWordFromSuggestion suggestionDoc user; ret (Some word).

Section Notification.
(** [DICTIONARY_APP_URL] of [config], which is not among the sources. *)
Variable DICTIONARY_APP_URL : string.

(** [result] is [undefined] when the re-fetch of [mergeIntoWord] found
    nothing; reading a property of it throws, and so does destructuring the
    absent data of a lookup. *)
Definition handleSendingMergedEmail (result : option (Doc Word.t)) : M unit :=
  match result with
  | None => throw (mkErr "TypeError" "Cannot read property 'authorId' of undefined")
  | Some result =>
      match Word.authorId (fields result) with
      | Some authorId =>
          if truthy_text authorId then
            await user ← findUser authorId;
            match user with
            | None => throw (mkErr "TypeError" "Cannot destructure property 'email' of null")
            | Some user =>
                match email user with
                | Some userEmail =>
                    if truthy_text userEmail then
                      await _ ← detached (sendMergedEmail
                        (mkMergedEmail userEmail WORD
                           (DICTIONARY_APP_URL +:+ "/word?word="
                              +:+ Word.word (fields result))
                           result));
                      ret tt
                    else ret tt
                | None => ret tt
                end
            end
          else ret tt
      | None => ret tt
      end
  end.

Definition mergeWord (req : MergeWordRequest)
  : Store → Response (option (Doc Word.t)) * Store :=
  tryCatch
    (await result ← mergeWord_result req;
     await _ ← handleSendingMergedEmail result;
     ret result).
End Notification.

Definition isValid_opt (v : option IdValue) : bool :=
  match v with
  | Some v => isValid v
  | None => false
  end.

Definition findAndUpdateWord {A} (id_ : option IdValue) (cb : Doc Word.t → M A) : M A :=
  if negb (isValid_opt id_)
  then throw (newError (if negb (truthy id_)
                        then "No word id provided" else "Invalid word id provided"))
  else
    await word ← match id_ with
                 | Some v => Word_findById v
                 | None => ret None
                 end;
    match word with
    | None => throw (newError "Word doesn't exist")
    | Some word => cb word
    end.

Definition setExampleAssociatedWords (associatedWords : list IdValue)
    (d : Doc Example.t) : Doc Example.t :=
  mkDoc (id d) (isNew d)
    (Example.mk (Example.igbo (fields d)) (Example.english (fields d)) associatedWords).

(** The callback that [replaceWordIdsFromExampleAssociatedWords] maps over
    the examples. *)
Definition relinkExample (oldId newId : IdValue) (example : Doc Example.t)
  : M (Doc Example.t) :=
  let cleanedWordExample :=
    setExampleAssociatedWords
      (relinkAssociatedWords (Example.associatedWords (fields example)) oldId newId)
      example in
  Example_save cleanedWordExample.

Definition replaceWordIdsFromExampleAssociatedWords
    (examples : list (Doc Example.t)) (oldId newId : IdValue) : M (list (Doc Example.t)) :=
  promiseAllMap (relinkExample oldId newId) examples.

Record DeleteWordRequest : Type := mkDeleteWordRequest {
  params_id : string;
  body_primaryWordId : option string
}.

(** The three unions [deleteWord] writes into the primary Word. *)
Definition combineWords (combineWord : Doc Word.t) (deleted : Word.t) : Doc Word.t :=
  let word := Word.word deleted in
  let definitions := default [] (Word.definitions deleted) in
  let variations := default [] (Word.variations deleted) in
  let stems := default [] (Word.stems deleted) in
  let updatedWord := fields combineWord in
  mkDoc (id combineWord) (isNew combineWord)
    (Word.mk (Word.word updatedWord) (Word.wordClass updatedWord)
       (Some (uniqBy (default [] (Word.definitions updatedWord) ++ definitions)
                (λ definition, definition)))
       (Some (uniqBy (default [] (Word.variations updatedWord) ++ variations ++ [word])
                (λ variation, variation)))
       (Some (uniqBy (default [] (Word.stems updatedWord) ++ stems) (λ stem, stem)))
       (Word.examples updatedWord) (Word.authorId updatedWord)).

(** Inside the callback [primaryWordId] has passed [isValid]: it is the
    string it was sent as. *)
Definition deleteWord (req : DeleteWordRequest) : Store → Response (Doc Word.t) * Store :=
  tryCatch
    (let toBeDeletedWordId := params_id req in
     let primaryWordId := body_primaryWordId req in
     await found ← Word_findById (IdStr toBeDeletedWordId);
     match found with
     | None => throw (mkErr "TypeError" "Cannot destructure property 'word' of null")
     | Some deleted =>
         await toBeDeletedWordExamples ← findExampleByAssociatedWordId toBeDeletedWordId;
         findAndUpdateWord (IdStr <$> primaryWordId)
           (λ combineWord,
              let updatedWord := combineWords combineWord (fields deleted) in
              await _ ← Word_deleteOne toBeDeletedWordId;
              await _ ← deleteWordSuggestionsByOriginalWordId toBeDeletedWordId;
              await _ ← replaceWordIdsFromExampleAssociatedWords toBeDeletedWordExamples
                          (IdStr toBeDeletedWordId)
                          (IdStr (default "" primaryWordId));
              Word_save updatedWord)
     end).

(** ** The reconciler and the relinker as the specification words them *)

Module Spec.

(** Duplicates removed by the equality of a key, first-seen order kept: an
    element is appended to the result unless an element with its key is
    already there. *)
Definition firstSeenBy {A K : Type} `{EqDecision K} (key : A → K) (l : list A) : list A :=
  foldl (λ acc x, if decide (key x ∈ key <$> acc) then acc else acc ++ [x]) [] l.

(** Section 4.1: the union of two arrays, first-seen order kept, duplicates
    removed by value equality. *)
Definition reconcile (a b : list string) : list string :=
  firstSeenBy (λ x, x) (a ++ b).

(** Every entry whose string form is that of [oldId] removed. *)
Fixpoint removeOccurrences (oldId : IdValue) (l : list IdValue) : list IdValue :=
  match l with
  | [] => []
  | v :: rest =>
      if decide (toString v = toString oldId)
      then removeOccurrences oldId rest
      else v :: removeOccurrences oldId rest
  end.

(** Section 4.2: append [newId], remove every occurrence of [oldId],
    deduplicate. *)
Definition relink (l : list IdValue) (oldId newId : IdValue) : list IdValue :=
  firstSeenBy toString (removeOccurrences oldId (l ++ [newId])).

End Spec.

(** ** Vocabulary of the properties *)

(** The four rejections of the validation of [executeMergeExample]. *)
Definition missingTextError : Error :=
  newError "Required information is missing, double check your provided data".
Definition invalidIdError : Error :=
  newError "Invalid id found in associatedWords".
Definition unknownWordError : Error :=
  newError "Example suggestion associated words can only contain Word ids before merging".
Definition duplicatesError : Error :=
  newError "Duplicates are not allows in associated words".

(** The conditions of the validation, on the fetched suggestion. *)
Definition missingText (es : ExampleSuggestion.t) : Prop :=
  ExampleSuggestion.igbo es = "" ∧ ExampleSuggestion.english es = "".
Definition hasInvalidId (es : ExampleSuggestion.t) : Prop :=
  Exists (λ v, isValid v = false) (ExampleSuggestion.associatedWords es).
Definition hasUnknownWord (s : Store) (es : ExampleSuggestion.t) : Prop :=
  Exists (λ v, words s !! toString v = None) (ExampleSuggestion.associatedWords es).
Definition hasRepeatedId (es : ExampleSuggestion.t) : Prop :=
  ¬ NoDup (ExampleSuggestion.associatedWords es).

(** An Example as section 4.2 leaves it: the same document, its associated
    words relinked, saved. *)
Definition relinked (oldId newId : IdValue) (example : Doc Example.t) : Doc Example.t :=
  mkDoc (id example) false
    (Example.mk (Example.igbo (fields example)) (Example.english (fields example))
       (Spec.relink (Example.associatedWords (fields example)) oldId newId)).

(** The documents written to a collection, one after the other. *)
Definition written {A} (docs : list (Doc A)) (m : gmap string A) : gmap string A :=
  foldl (λ m d, <[id d := fields d]> m) m docs.

(** [preserves p c]: running [c], whether it resolves or rejects, leaves the
    part [p] of the store as it was. *)
Definition preserves {A X : Type} (p : Store → X) (c : M A) : Prop :=
  ∀ s, p (c s).2 = p s.

(** The value a resolved promise carries. *)
Definition okValue {A} (default : A) (r : Result A) : A :=
  match r with
  | Ok a => a
  | Err _ => default
  end.

(** The value an Express handler sends. *)
Definition sentValue {A} (default : A) (r : Response A) : A :=
  match r with
  | Send a => a
  | Next _ => default
  end.

(** An associated-word array that names the canonical Word and not the
    Word Suggestion, identifiers read by their string form. *)
Definition linkedTo (originalWordId suggestionId : string) (l : list IdValue) : Prop :=
  originalWordId ∈ toString <$> l ∧ suggestionId ∉ toString <$> l.

(** A nested Example Suggestion as the cascade saves it before it calls
    [executeMergeExample]. *)
Definition cascaded (suggestionId originalWordId : string)
    (exampleSuggestion : Doc ExampleSuggestion.t) : ExampleSuggestion.t :=
  fields (setAssociatedWords
            (cascadeAssociatedWords
               (ExampleSuggestion.associatedWords (fields exampleSuggestion))
               suggestionId originalWordId)
            exampleSuggestion).


(** An error that the store raised in a run from [s]: an error of its
    fault script, or the rejection of a [save]. *)
Definition raisedByStore (s : Store) (e : Error) : Prop :=
  Some e ∈ faults s ∨ e = duplicateKeyError ∨ e = documentNotFoundError.

(** The errors that [executeMergeExample] and its two branches throw
    themselves. *)
Definition thrownByExampleEngine (e : Error) : Prop :=
  e ∈ [newError "There is no associated example suggestion, double check your provided data";
       missingTextError; invalidIdError; unknownWordError; duplicatesError;
       newError "Example doesn't exist";
       newError "An error occurred while saving the new example."].

(** [raises thrown c]: every rejection of [c] carries an error that the
    store raised or an error of [thrown]; [c] only consumes the fault
    script. *)
Definition raises {A : Type} (thrown : Error → Prop) (c : M A) : Prop :=
  ∀ s r s', c s = (r, s') →
    faults s' `suffix_of` faults s
    ∧ ∀ e, r = Err e → raisedByStore s e ∨ thrown e.

(** ** Sample data *)

Module Sample.

Definition wordId : string := "5f0000000000000000000001".
Definition otherWordId : string := "5f0000000000000000000002".
(** The same identifier as a client may write it. *)
Definition otherWordIdUpper : string := "5F0000000000000000000002".
Definition suggestionId : string := "5f00000000000000000000a1".
Definition exampleSuggestionId : string := "5f00000000000000000000e1".
Definition exampleId : string := "5f00000000000000000000c1".

Definition nri : Word.t :=
  Word.mk "nri" "noun" (Some ["food"]) (Some ["nni"]) None [] None.
Definition nni : Word.t :=
  Word.mk "nni" "noun" (Some ["food"; "meal"]) (Some ["nri"]) (Some ["ri"]) [] None.

(** An Example Suggestion that lists the same Word twice. *)
Definition repeated : ExampleSuggestion.t :=
ExampleSuggestion.mk "Ana m eri nri" "I am eating food"
    [IdStr wordId; IdStr wordId] None None None None.

(** The same, with both texts empty. *)
Definition repeatedNoText : ExampleSuggestion.t :=
ExampleSuggestion.mk "" "" [IdStr wordId; IdStr wordId] None None None None.

Definition emptyStore : Store := mkStore ∅ ∅ ∅ ∅ ∅ 0 [] true [].

(** A pending edit of the Word [wordId], and two Example Suggestions that
    point back at it. *)
Definition pendingEdit : WordSuggestion.t :=
  WordSuggestion.mk "nri" "noun" (Some ["food"; "meal"]) None None []
    (Some (IdObj 7 wordId)) (Some "author") None None.
Definition nestedId1 : string := "5f00000000000000000000e1".
Definition nestedId2 : string := "5f00000000000000000000e2".
Definition nested1 : ExampleSuggestion.t :=
ExampleSuggestion.mk "Ana m eri nri" "I am eating food"
    [IdObj 1 suggestionId] None None None None.
Definition nested2 : ExampleSuggestion.t :=
ExampleSuggestion.mk "Nri di uto" "Food is sweet"
    [IdObj 2 suggestionId; IdObj 3 wordId] None None None None.
(** Two Words that are to be consolidated, and the Examples of the one that
    goes. *)
Definition exampleId2 : string := "5f00000000000000000000c2".
Definition example1 : Example.t :=
Example.mk "Ana m eri nni" "I am eating food" [IdObj 4 otherWordId].
Definition example2 : Example.t :=
Example.mk "Nni di uto" "Food is sweet" [IdObj 5 otherWordId; IdObj 6 wordId].
Definition orphanEdit : WordSuggestion.t :=
  WordSuggestion.mk "nni" "noun" (Some ["meal"]) None None []
    (Some (IdObj 8 otherWordId)) None None None.
Definition consolidationStore : Store :=
  mkStore {[ wordId := nri; otherWordId := nni ]}
          {[ exampleId := example1; exampleId2 := example2 ]}
          ∅
          {[ suggestionId := pendingEdit; exampleSuggestionId := orphanEdit ]}
          {[ "author" := Registered (Some "author@example.org") ]} 0 [] true [].

(** An Example Suggestion whose two associated words are two ObjectId
    objects of the same Word. *)
Definition twoObjects : ExampleSuggestion.t :=
ExampleSuggestion.mk "Ana m eri nri" "I am eating food"
    [IdObj 1 wordId; IdObj 2 wordId] None None None None.

Definition withMailerDown (s : Store) : Store :=
  mkStore (words s) (examples s) (exampleSuggestions s) (wordSuggestions s)
          (users s) (oidCounter s) (faults s) false (outbox s).

(** A proposal for a new Word, with one embedded example. *)
Definition newWordProposal : WordSuggestion.t :=
  WordSuggestion.mk "mmiri" "noun" (Some ["water"]) None None
    [mkExampleData "Mmiri na-ezo" "It is raining"] None (Some "author") None None.

(** The scenario of section 8: a proposal for "nri" with one embedded
    example, and a store that holds nothing but this proposal. *)
Definition nriProposal : WordSuggestion.t :=
  WordSuggestion.mk "nri" "" None None None
    [mkExampleData "Ana m eri nri" "I am eating food"] None None None None.
Definition proposalStore : Store :=
  mkStore ∅ ∅ ∅ {[ suggestionId := nriProposal ]} ∅ 0 [] true [].

Definition connectionLost : Error := mkErr "MongoError" "connection lost".

Definition cascadeStore (script : list (option Error)) : Store :=
  mkStore {[ wordId := nri ]} ∅
          {[ nestedId1 := nested1; nestedId2 := nested2 ]}
          {[ suggestionId := pendingEdit ]}
          {[ "author" := Registered (Some "author@example.org") ]} 0 script true [].

Definition storeWith (es : ExampleSuggestion.t) : Store :=
  mkStore {[ wordId := nri ]} ∅ {[ exampleSuggestionId := es ]} ∅ ∅ 0 [] true [].

(** The pending edit with one nested Example Suggestion: a store with a
    fault script, and a store whose nested Example Suggestion has no text. *)
Definition singleNestedStore (script : list (option Error)) : Store :=
  mkStore {[ wordId := nri ]} ∅
          {[ nestedId1 := nested1 ]}
          {[ suggestionId := pendingEdit ]}
          {[ "author" := Registered (Some "author@example.org") ]} 0 script true [].

End Sample.


(** ** The other handlers of the two controllers *)

(** [findExampleById] of [controllers/examples.js] *)
Definition findExampleById (id_ : string) : M (option (Doc Example.t)) :=
  findByIdIn examples (IdStr id_).




(** Truthiness of a text that may be absent. *)
Definition truthy_opt_text (o : option string) : bool :=
  match o with
  | Some s => truthy_text s
  | None => false
  end.



(** *** Strings of identifiers *)

(** The code units below 256 that the [\s] of [_.trim] matches: tab to
    carriage return, space, and the no-break space U+00A0. *)
Definition isWhitespace (c : ascii) : bool :=
  let n := nat_of_ascii c in
  (((9 <=? n) && (n <=? 13)) || (n =? 32) || (n =? 160))%nat.

Fixpoint trimStart (s : string) : string :=
  match s with
  | EmptyString => EmptyString
  | String c rest => if isWhitespace c then trimStart rest else s
  end.

Fixpoint trimEnd (s : string) : string :=
  match s with
  | EmptyString => EmptyString
  | String c rest =>
      match trimEnd rest with
      | EmptyString => if isWhitespace c then EmptyString else String c EmptyString
      | kept => String c kept
      end
  end.

(** [_.trim(string)] *)
Definition trim (s : string) : string := trimEnd (trimStart s).

(** [string.split(',')]: the pieces between the commas, empty pieces
    included; the empty string has one empty piece. *)
Fixpoint split_comma (s : string) : list string :=
  match s with
  | EmptyString => [EmptyString]
  | String c rest =>
      if Ascii.eqb c ","%char
      then EmptyString :: split_comma rest
      else match split_comma rest with
           | piece :: pieces => String c piece :: pieces
           | [] => [String c EmptyString]
           end
  end.

(** [data.associatedWords] as a [putExample] request may send it: an array
    of identifier strings, a string, or nothing. *)
Inductive AssociatedWordsBody : Type :=
  | SentArray (identifiers : list string)
  | SentString (text : string)
  | NotSent.

(** The array [data.associatedWords] is by the time it is checked: an array
    is taken as it is, a string is split at its commas and every piece
    trimmed; with nothing sent, reading [split] throws. *)
Definition associatedWordsArray (sent : AssociatedWordsBody) : option (list string) :=
  match sent with
  | SentArray identifiers => Some identifiers
  | SentString text => Some (trim <$> split_comma text)
  | NotSent => None
  end.

Record ExampleBody : Type := mkExampleBody {
  body_igbo : option string;
  body_english : option string;
  body_associatedWords : AssociatedWordsBody
}.

(** [assign(example, data)], [data.associatedWords] being an array by
    then. *)
Definition assignExample (example : Doc Example.t) (data : ExampleBody)
    (associatedWords : list IdValue) : Doc Example.t :=
  let e := fields example in
  mkDoc (id example) (isNew example)
    (Example.mk (default (Example.igbo e) (body_igbo data))
       (default (Example.english e) (body_english data))
       associatedWords).

Record PutExampleRequest : Type := mkPutExampleRequest {
  putExample_id : string;
  putExample_body : ExampleBody
}.

Definition putExample (req : PutExampleRequest) : Store → Response (Doc Example.t) * Store :=
  let data := putExample_body req in
  let id_ := putExample_id req in
  if negb (truthy_opt_text (body_igbo data)) && negb (truthy_opt_text (body_english data))
  then λ s, (Next (newError
               "Required information is missing, double check your provided data"), s)
  else
    match associatedWordsArray (body_associatedWords data) with
    | None =>
        λ s, (Next (mkErr "TypeError" "Cannot read property 'split' of undefined"), s)
    | Some identifiers =>
        let associatedWords := IdStr <$> identifiers in
        if some associatedWords (λ associatedWord, negb (isValid associatedWord))
        then λ s, (Next (newError "Invalid id found in associatedWords"), s)
        else if negb (length associatedWords =? length (uniq associatedWords))%nat
        then λ s, (Next (newError "Duplicates are not allows in associated words"), s)
        else
          tryCatch
            (await example ← findExampleById id_;
             match example with
             | None => throw (newError "Example doesn't exist")
             | Some example =>
                 let updatedExample := assignExample example data associatedWords in
                 Example_save updatedExample
             end)
    end.

(** ** Vocabulary of the further properties *)

(** No document of the four collections is gone. *)
Definition nothingDeleted (s s' : Store) : Prop :=
  dom (words s) ⊆ dom (words s')
  ∧ dom (examples s) ⊆ dom (examples s')
  ∧ dom (exampleSuggestions s) ⊆ dom (exampleSuggestions s')
  ∧ dom (wordSuggestions s) ⊆ dom (wordSuggestions s').

(** The four collections are as they were. *)
Definition sameCollections (s s' : Store) : Prop :=
  words s' = words s
  ∧ examples s' = examples s
  ∧ exampleSuggestions s' = exampleSuggestions s
  ∧ wordSuggestions s' = wordSuggestions s.

(** [respects R c]: running [c], whether it resolves or rejects, takes a
    store to one that [R] relates to it. *)
Definition respects {A : Type} (R : Store → Store → Prop) (c : M A) : Prop :=
  ∀ s, R s (c s).2.

(** The Example Suggestions that do not name a Word Suggestion are as they
    were, and no Example Suggestion has come or gone. *)
Definition keepsOtherSuggestions (suggestionId : string) (s s' : Store) : Prop :=
  (∀ k es, exampleSuggestions s !! k = Some es →
           suggestionId ∉ toString <$> ExampleSuggestion.associatedWords es →
           exampleSuggestions s' !! k = Some es)
  ∧ dom (exampleSuggestions s') = dom (exampleSuggestions s).
(** * Properties *)

(** ** The definitions on small inputs *)

Example uniq_compares_values :
  uniq [IdStr "a"; IdObj 0 "a"; IdStr "a"; IdObj 1 "a"]
  = [IdStr "a"; IdObj 0 "a"; IdObj 1 "a"].
Proof. reflexivity. Qed.

Example uniqBy_compares_string_forms :
  uniqBy [IdStr "a"; IdObj 0 "a"; IdStr "b"; IdObj 1 "b"] toString
  = [IdStr "a"; IdStr "b"].
Proof. reflexivity. Qed.

Example relinkAssociatedWords_example :
  relinkAssociatedWords [IdObj 0 "aa"; IdStr "bb"; IdObj 1 "aa"] (IdStr "bb") (IdStr "cc")
  = [IdObj 0 "aa"; IdStr "cc"].
Proof. reflexivity. Qed.

Example includes_compares_string_forms :
  includes [IdObj 0 "w1"] (IdStr "w1") = true
  ∧ includes [IdObj 0 "w1"] (IdStr "w2") = false.
Proof. split; reflexivity. Qed.

Example cascadeAssociatedWords_example :
  cascadeAssociatedWords [IdObj 0 "s1"; IdStr "w1"; IdObj 1 "w2"] "s1" "w1"
  = [IdStr "w1"; IdObj 1 "w2"]
  ∧ cascadeAssociatedWords [IdObj 0 "s1"; IdObj 1 "w2"] "s1" "w1"
    = [IdObj 1 "w2"; IdStr "w1"]
  ∧ cascadeAssociatedWords [IdObj 0 "s1"; IdObj 1 "w1"] "s1" "w1"
    = [IdObj 1 "w1"].
Proof. repeat split; reflexivity. Qed.

Example castObjectId_examples :
  castObjectId (IdStr Sample.wordId) = Some Sample.wordId
  ∧ castObjectId (IdStr Sample.otherWordIdUpper) = Some Sample.otherWordId
  ∧ castObjectId (IdStr "nri") = None
  ∧ castObjectId (IdObj 3 Sample.wordId) = Some Sample.wordId.
Proof. repeat split; vm_compute; reflexivity. Qed.

Example isValid_examples :
  isValid (IdStr Sample.wordId) = true
  ∧ isValid (IdStr "nri") = false
  ∧ isValid (IdStr "") = false
  ∧ isValid (IdObj 3 "anything") = true.
Proof. repeat split; reflexivity. Qed.

Example objectIdOf_examples :
  objectIdOf 0 = "000000000000000000000000"
  ∧ objectIdOf 255 = "0000000000000000000000ff"
  ∧ isValid (IdStr (objectIdOf 4096)) = true.
Proof. repeat split; vm_compute; reflexivity. Qed.

(** The scenario of section 8: the proposal for "nri" merged by [U1] yields
    the canonical Word with one example reference, and one canonical Example
    whose only associated word is the new Word. *)
Example mergeWord_nri :
  let run :=
    mergeWord "https://app.example.org"
      (mkMergeWordRequest "U1" (mkDoc Sample.suggestionId false Sample.nriProposal))
      Sample.proposalStore in
  run.1 = Send (Some (mkDoc (objectIdOf 0) false
                        (Word.mk "nri" "" None None None [objectIdOf 1] None)))
  ∧ map_to_list (examples run.2)
    = [(objectIdOf 1,
        Example.mk "Ana m eri nri" "I am eating food" [IdStr (objectIdOf 0)])]
  ∧ WordSuggestion.merged <$> wordSuggestions run.2 !! Sample.suggestionId
    = Some (Some (objectIdOf 0)).
Proof. repeat split; vm_compute; reflexivity. Qed.

(** ** lodash *)

Section UniqFacts.
Context {A K : Type} `{EqDecision K} (f : A → K).

Lemma baseUniq_seen_ext (seen seen' : list K) (l : list A) :
  (∀ k, k ∈ seen ↔ k ∈ seen') → baseUniq f seen l = baseUniq f seen' l.
Proof.
  revert seen seen'. induction l as [|x l IH]; intros seen seen' Hext; [done|].
  cbn [baseUniq].
  destruct (decide (f x ∈ seen)) as [Hin|Hin];
    destruct (decide (f x ∈ seen')) as [Hin'|Hin'].
  - by apply IH.
  - exfalso. apply Hin'. by apply Hext.
  - exfalso. apply Hin. by apply Hext.
  - f_equal. apply IH. intros k. rewrite !elem_of_cons. by rewrite Hext.
Qed.


Lemma baseUniq_keys (seen : list K) (l : list A) (k : K) :
  k ∈ f <$> baseUniq f seen l ↔ k ∈ f <$> l ∧ k ∉ seen.
Proof.
  revert seen. induction l as [|y l IH]; intros seen; cbn [baseUniq].
  - rewrite fmap_nil. split; [by intros ?%elem_of_nil|by intros [?%elem_of_nil _]].
  - destruct (decide (f y ∈ seen)) as [Hin|Hin].
    + rewrite IH, fmap_cons, elem_of_cons. split; [intuition congruence|].
      intros [[->|?] ?]; [done|by split].
    + rewrite !fmap_cons, !elem_of_cons, IH, elem_of_cons.
      destruct (decide (k = f y)) as [->|Hne]; intuition congruence.
Qed.

Lemma baseUniq_NoDup (seen : list K) (l : list A) :
  NoDup (f <$> baseUniq f seen l).
Proof.
  revert seen. induction l as [|y l IH]; intros seen; cbn [baseUniq].
  - constructor.
  - destruct (decide (f y ∈ seen)); [apply IH|].
    rewrite fmap_cons. constructor; [|apply IH].
    rewrite baseUniq_keys. intros [_ Hn]. apply Hn. by left.
Qed.

Lemma baseUniq_fixed (seen : list K) (l : list A) :
  NoDup (f <$> l) → (∀ x, x ∈ l → f x ∉ seen) → baseUniq f seen l = l.
Proof.
  revert seen. induction l as [|y l IH]; intros seen Hnd Hseen; [done|].
  cbn [baseUniq]. rewrite fmap_cons in Hnd. apply NoDup_cons in Hnd as [Hy Hnd].
  destruct (decide (f y ∈ seen)) as [Hin|Hin].
  - exfalso. by apply (Hseen y); [left|].
  - f_equal. apply IH; [done|].
    intros x Hx [Heq|Hin']%elem_of_cons.
    + apply Hy. rewrite <- Heq. by apply list_elem_of_fmap_2.
    + by apply (Hseen x); [right|].
Qed.

Lemma baseUniq_snoc_seen (seen : list K) (l : list A) (x : A) :
  f x ∈ seen ∨ f x ∈ f <$> l → baseUniq f seen (l ++ [x]) = baseUniq f seen l.
Proof.
  revert seen. induction l as [|y l IH]; intros seen Hx; cbn [baseUniq app].
  - destruct Hx as [Hx|Hx%elem_of_nil]; [|done]. by rewrite decide_True.
  - destruct (decide (f y ∈ seen)) as [Hin|Hin].
    + apply IH. rewrite fmap_cons, elem_of_cons in Hx.
      destruct Hx as [?|[->|?]]; auto.
    + f_equal. apply IH. rewrite fmap_cons, elem_of_cons in Hx.
      rewrite elem_of_cons. intuition congruence.
Qed.

Lemma baseUniq_snoc_new (seen : list K) (l : list A) (x : A) :
  f x ∉ seen → f x ∉ f <$> l →
  baseUniq f seen (l ++ [x]) = baseUniq f seen l ++ [x].
Proof.
  revert seen. induction l as [|y l IH]; intros seen Hs Hl; cbn [baseUniq app].
  - by rewrite decide_False.
  - rewrite fmap_cons, not_elem_of_cons in Hl. destruct Hl as [Hne Hl].
    destruct (decide (f y ∈ seen)) as [Hin|Hin].
    + by apply IH.
    + cbn [app]. f_equal. apply IH; [|done].
      rewrite not_elem_of_cons. done.
Qed.

(** [_.uniqBy] computes the first-seen deduplication. *)
Lemma uniqBy_firstSeenBy (l : list A) : uniqBy l f = Spec.firstSeenBy f l.
Proof.
  unfold uniqBy, Spec.firstSeenBy.
  induction l as [|x l IH] using rev_ind; [done|].
  rewrite foldl_app. cbn [foldl]. rewrite <- IH.
  destruct (decide (f x ∈ f <$> baseUniq f [] l)) as [Hin|Hin].
  - apply baseUniq_snoc_seen. right. by apply baseUniq_keys in Hin as [? _].
  - apply baseUniq_snoc_new; [by intros ?%elem_of_nil|].
    intros Hx. apply Hin. apply baseUniq_keys. split; [done|by intros ?%elem_of_nil].
Qed.

Lemma uniqBy_keys (l : list A) (k : K) : k ∈ f <$> uniqBy l f ↔ k ∈ f <$> l.
Proof.
  unfold uniqBy. rewrite baseUniq_keys. split; [by intros [? _]|].
  intros ?. split; [done|by intros ?%elem_of_nil].
Qed.

Lemma uniqBy_NoDup (l : list A) : NoDup (f <$> uniqBy l f).
Proof. apply baseUniq_NoDup. Qed.

Lemma uniqBy_fixed (l : list A) : NoDup (f <$> l) → uniqBy l f = l.
Proof. intros ?. apply baseUniq_fixed; [done|]. by intros ? ? ?%elem_of_nil. Qed.

End UniqFacts.

(** ** The relinker on one array *)

Lemma filter_removeOccurrences (oldId : IdValue) (l : list IdValue) :
  filter_ l (λ associatedWord, bool_decide (toString associatedWord ≠ toString oldId))
  = Spec.removeOccurrences oldId l.
Proof.
  unfold filter_. induction l as [|v l IH]; [done|].
  cbn [List.filter Spec.removeOccurrences].
  destruct (decide (toString v = toString oldId)) as [Heq|Hne].
  - rewrite bool_decide_eq_false_2; [done|]. by intros ?.
  - rewrite bool_decide_eq_true_2; [|done]. by f_equal.
Qed.

Lemma relinkAssociatedWords_relink (l : list IdValue) (oldId newId : IdValue) :
  relinkAssociatedWords l oldId newId = Spec.relink l oldId newId.
Proof.
  unfold relinkAssociatedWords, Spec.relink.
  by rewrite filter_removeOccurrences, uniqBy_firstSeenBy.
Qed.

Lemma elem_of_removeOccurrences (oldId : IdValue) (l : list IdValue) (v : IdValue) :
  v ∈ Spec.removeOccurrences oldId l ↔ v ∈ l ∧ toString v ≠ toString oldId.
Proof.
  induction l as [|w l IH]; cbn [Spec.removeOccurrences].
  - split; [by intros ?%elem_of_nil|by intros [?%elem_of_nil _]].
  - destruct (decide (toString w = toString oldId)) as [Heq|Hne].
    + rewrite IH, elem_of_cons. split; [intuition congruence|].
      intros [[->|?] ?]; [done|by split].
    + rewrite !elem_of_cons, IH. split; [intuition congruence|].
      intros [[->|?] ?]; [by left|right; by split].
Qed.

Lemma removeOccurrences_fixed (oldId : IdValue) (l : list IdValue) :
  (∀ v, v ∈ l → toString v ≠ toString oldId) → Spec.removeOccurrences oldId l = l.
Proof.
  induction l as [|w l IH]; intros Hl; [done|].
  cbn [Spec.removeOccurrences]. rewrite decide_False.
  - f_equal. apply IH. intros v Hv. apply Hl. by right.
  - apply Hl. by left.
Qed.

Lemma removeOccurrences_app (oldId : IdValue) (l k : list IdValue) :
  Spec.removeOccurrences oldId (l ++ k)
  = Spec.removeOccurrences oldId l ++ Spec.removeOccurrences oldId k.
Proof.
  induction l as [|w l IH]; [done|].
  cbn [app Spec.removeOccurrences]. destruct (decide _); [done|].
  cbn [app]. by f_equal.
Qed.


Lemma relink_keys (l : list IdValue) (oldId newId : IdValue) (k : string) :
  k ∈ toString <$> relinkAssociatedWords l oldId newId
  ↔ (k ∈ toString <$> l ∨ k = toString newId) ∧ k ≠ toString oldId.
Proof.
  unfold relinkAssociatedWords. rewrite uniqBy_keys, filter_removeOccurrences.
  rewrite !list_elem_of_fmap. split.
  - intros (v & -> & [Hv Hne]%elem_of_removeOccurrences). split; [|done].
    apply elem_of_app in Hv as [?|Hv]; [left; by exists v|right].
    by apply list_elem_of_singleton in Hv as ->.
  - intros [[(v & -> & Hv)| ->] Hne].
    + exists v. split; [done|]. apply elem_of_removeOccurrences.
      split; [|done]. apply elem_of_app. by left.
    + exists newId. split; [done|]. apply elem_of_removeOccurrences.
      split; [|done]. apply elem_of_app. right. by apply list_elem_of_singleton.
Qed.


(** ** Promises *)

Section MonadFacts.
Context {A B : Type}.

Lemma bind_Ok_inv (c : M A) (k : A → M B) (s : Store) (b : B) (s' : Store) :
  bind c k s = (Ok b, s') → ∃ a s1, c s = (Ok a, s1) ∧ k a s1 = (Ok b, s').
Proof.
  unfold bind. destruct (c s) as [[a|e] s1]; [|done]. intros ?. by exists a, s1.
Qed.

Lemma bind_Err_inv (c : M A) (k : A → M B) (s : Store) (e : Error) (s' : Store) :
  bind c k s = (Err e, s') →
  c s = (Err e, s') ∨ ∃ a s1, c s = (Ok a, s1) ∧ k a s1 = (Err e, s').
Proof.
  unfold bind. destruct (c s) as [[a|e1] s1].
  - intros ?. right. by exists a, s1.
  - intros [= -> ->]. by left.
Qed.

Lemma bind_Ok_step (c : M A) (k : A → M B) (s : Store) (a : A) (s1 : Store) :
  c s = (Ok a, s1) → bind c k s = k a s1.
Proof. unfold bind. by intros ->. Qed.

Lemma bind_Err_step (c : M A) (k : A → M B) (s : Store) (e : Error) (s1 : Store) :
  c s = (Err e, s1) → bind c k s = (Err e, s1).
Proof. unfold bind. by intros ->. Qed.
End MonadFacts.

Section PromiseAllFacts.
Context {A B : Type}.

Lemma promiseAllMap_Ok_ind (f : A → M B)
    (P : list A → Store → list B → Store → Prop) :
  (∀ s, P [] s [] s) →
  (∀ x xs s y s1 ys s',
     f x s = (Ok y, s1) → promiseAllMap f xs s1 = (Ok ys, s') →
     P xs s1 ys s' → P (x :: xs) s (y :: ys) s') →
  ∀ xs s ys s', promiseAllMap f xs s = (Ok ys, s') → P xs s ys s'.
Proof.
  intros Hnil Hcons. induction xs as [|x xs IH]; intros s ys s' Hrun.
  - cbn in Hrun. injection Hrun as <- <-. apply Hnil.
  - cbn [promiseAllMap] in Hrun.
    apply bind_Ok_inv in Hrun as (y & s1 & Hx & Hrun).
    apply bind_Ok_inv in Hrun as (ys' & s2 & Hxs & Hrun).
    cbv [ret] in Hrun. injection Hrun as <- <-.
    eapply Hcons; eauto.
Qed.

(** A rejected [Promise.all]: the branches before the failing one
    resolved, and the state is the one the failing branch left. *)
Lemma promiseAllMap_Err_inv (f : A → M B) (xs : list A) (s : Store)
    (e : Error) (s' : Store) :
  promiseAllMap f xs s = (Err e, s') →
  ∃ done x rest ys s1,
    xs = done ++ x :: rest ∧ promiseAllMap f done s = (Ok ys, s1)
    ∧ f x s1 = (Err e, s').
Proof.
  revert s. induction xs as [|x xs IH]; intros s Hrun; [done|].
  cbn [promiseAllMap] in Hrun.
  apply bind_Err_inv in Hrun as [Hx|(y & s1 & Hx & Hrun)].
  - by exists [], x, xs, [], s.
  - apply bind_Err_inv in Hrun as [Hxs|(ys & s2 & Hxs & Hrun)]; [|done].
    apply IH in Hxs as (done & x' & rest & ys & s2 & -> & Hdone & Hfail).
    exists (x :: done), x', rest, (y :: ys), s2. split; [done|]. split; [|done].
    cbn [promiseAllMap]. rewrite (bind_Ok_step _ _ _ _ _ Hx).
    by rewrite (bind_Ok_step _ _ _ _ _ Hdone).
Qed.

Lemma promiseAllMap_length (f : A → M B) (xs : list A) (s : Store)
    (ys : list B) (s' : Store) :
  promiseAllMap f xs s = (Ok ys, s') → length ys = length xs.
Proof.
  revert xs s ys s'. apply promiseAllMap_Ok_ind; [done|].
  intros; cbn; by f_equal.
Qed.
End PromiseAllFacts.

(** ** The store *)

Lemma set_faults_faults (s : Store) : set_faults (faults s) s = s.
Proof. by destruct s. Qed.

Lemma storeWrite_inv (s : Store) (r : Result unit) (s1 : Store) :
  storeWrite s = (r, s1) → ∃ fs, s1 = set_faults fs s.
Proof.
  unfold storeWrite. destruct (faults s) as [|[e|] fs] eqn:Hf; intros [= <- <-].
  - exists (faults s). by rewrite set_faults_faults.
  - by exists fs.
  - by exists fs.
Qed.

Section CollectionFacts.
Context {A : Type}.
Variable get : Store → gmap string A.
Variable set : (gmap string A → gmap string A) → Store → Store.

Lemma saveIn_Ok_inv (d d' : Doc A) (s s' : Store) :
  saveIn get set d s = (Ok d', s') →
  ∃ fs, s' = set (insert (id d) (fields d)) (set_faults fs s)
        ∧ d' = mkDoc (id d) false (fields d)
        ∧ (if isNew d then get (set_faults fs s) !! id d = None
           else is_Some (get (set_faults fs s) !! id d)).
Proof.
  unfold saveIn. intros (u & s1 & Hw & Hrun)%bind_Ok_inv.
  apply storeWrite_inv in Hw as [fs ->]. exists fs.
  destruct d as [k new a]; cbn in *.
  destruct new, (get (set_faults fs s) !! k) eqn:Hk; try done;
    injection Hrun as <- <-; eauto.
Qed.

Lemma saveIn_Err_inv (d : Doc A) (s : Store) (e : Error) (s' : Store) :
  saveIn get set d s = (Err e, s') → ∃ fs, s' = set_faults fs s.
Proof.
  unfold saveIn. intros [Hw|(u & s1 & Hw & Hrun)]%bind_Err_inv.
  - by apply storeWrite_inv in Hw.
  - apply storeWrite_inv in Hw as [fs ->]. exists fs.
    destruct (isNew d), (get (set_faults fs s) !! id d); by simplify_eq.
Qed.

Lemma findOneAndUpdateIn_Ok_inv (v : option IdValue) (update : A → A)
    (s : Store) (r : option (Doc A)) (s' : Store) :
  findOneAndUpdateIn get set v update s = (Ok r, s') →
  ∃ fs,
    match r with
    | Some d =>
        (∃ w, v = Some w ∧ id d = toString w)
        ∧ get (set_faults fs s) !! id d = Some (fields d)
        ∧ s' = set (insert (id d) (update (fields d))) (set_faults fs s)
    | None =>
        s' = set_faults fs s
        ∧ (∀ w, v = Some w → get (set_faults fs s) !! toString w = None)
    end.
Proof.
  unfold findOneAndUpdateIn. intros (u & s1 & Hw & Hrun)%bind_Ok_inv.
  apply storeWrite_inv in Hw as [fs ->]. exists fs.
  destruct v as [w|]; cbn in Hrun.
  - destruct (get (set_faults fs s) !! toString w) as [old|] eqn:Hold; cbn in Hrun;
      injection Hrun as <- <-.
    + cbn. split; [by exists w|]. by split.
    + split; [done|]. by intros ? [= <-].
  - injection Hrun as <- <-. split; [done|]. by intros.
Qed.

Lemma findOneAndUpdateIn_Err_inv (v : option IdValue) (update : A → A)
    (s : Store) (e : Error) (s' : Store) :
  findOneAndUpdateIn get set v update s = (Err e, s') →
  storeWrite s = (Err e, s').
Proof.
  unfold findOneAndUpdateIn. intros [Hw|(u & s1 & Hw & Hrun)]%bind_Err_inv; [done|].
  destruct (v ≫= _) as [[? ?]|]; by simplify_eq.
Qed.
End CollectionFacts.

(** ** The duplicate check of [executeMergeExample] *)

Section UniqLength.
Context {A K : Type} `{EqDecision K} (f : A → K).

Lemma baseUniq_length_le (seen : list K) (l : list A) :
  (length (baseUniq f seen l) ≤ length l)%nat.
Proof.
  revert seen. induction l as [|x l IH]; intros seen; cbn [baseUniq]; [done|].
  destruct (decide _); cbn [length].
  - specialize (IH seen). lia.
  - specialize (IH (f x :: seen)). lia.
Qed.

Lemma baseUniq_length_eq (seen : list K) (l : list A) :
  length (baseUniq f seen l) = length l → baseUniq f seen l = l.
Proof.
  revert seen. induction l as [|x l IH]; intros seen; cbn [baseUniq]; [done|].
  destruct (decide _); cbn [length].
  - pose proof (baseUniq_length_le seen l). lia.
  - intros [= Hlen]. f_equal. by apply IH.
Qed.
End UniqLength.

Lemma uniq_length_NoDup {A : Type} `{EqDecision A} (l : list A) :
  length l = length (uniq l) ↔ NoDup l.
Proof.
  unfold uniq. split.
  - intros Hlen. symmetry in Hlen. apply baseUniq_length_eq in Hlen.
    pose proof (uniqBy_NoDup (λ value : A, value) l) as Hnd.
    unfold uniqBy in Hnd. rewrite Hlen in Hnd. by rewrite list_fmap_id in Hnd.
  - intros Hnd. rewrite uniqBy_fixed; [done|]. by rewrite list_fmap_id.
Qed.

Lemma wordMustExist_run (v : IdValue) (s : Store) :
  wordMustExist v s
  = (match words s !! toString v with
     | Some _ => Ok tt
     | None => Err unknownWordError
     end, s).
Proof.
  unfold wordMustExist, Word_findById, findByIdIn, bind.
  by destruct (words s !! toString v).
Qed.

Lemma wordsMustExist_run (l : list IdValue) (s : Store) :
  promiseAllMap wordMustExist l s
  = (if decide (Exists (λ v, words s !! toString v = None) l)
     then Err unknownWordError else Ok (replicate (length l) tt), s).
Proof.
  induction l as [|v l IH]; cbn [promiseAllMap].
  - rewrite decide_False; [done|]. by intros ?%Exists_nil.
  - unfold bind at 1. rewrite wordMustExist_run.
    destruct (words s !! toString v) as [w|] eqn:Hv.
    + unfold bind. rewrite IH. destruct (decide _) as [Hex|Hex].
      * rewrite decide_True; [done|]. by right.
      * rewrite decide_False; [done|]. intros [Hu|?]%Exists_cons; [|done].
        by rewrite Hv in Hu.
    + rewrite decide_True; [done|]. by left.
Qed.

(** [executeMergeExample] on a fetched suggestion, one validation after the
    other. *)
Lemma executeMergeExample_run (exampleSuggestionId mergedBy : string) (s : Store)
    (es : ExampleSuggestion.t) :
  exampleSuggestions s !! exampleSuggestionId = Some es →
  executeMergeExample exampleSuggestionId mergedBy s
  = if decide (missingText es) then (Err missingTextError, s)
    else if decide (hasInvalidId es) then (Err invalidIdError, s)
    else if decide (hasUnknownWord s es) then (Err unknownWordError, s)
    else if decide (hasRepeatedId es) then (Err duplicatesError, s)
    else if truthy (ExampleSuggestion.originalExampleId es)
         then mergeIntoExample (mkDoc exampleSuggestionId false es) mergedBy s
         else createExampleFromSuggestion (mkDoc exampleSuggestionId false es) mergedBy s.
Proof.
  intros Hes. unfold executeMergeExample.
  unfold bind at 1. unfold findExampleSuggestionById, findByIdIn. cbn [toString].
  rewrite Hes. cbn [fmap option_fmap option_map fields].
  unfold truthy_text, missingText.
  destruct (decide (ExampleSuggestion.igbo es = "" ∧ ExampleSuggestion.english es = ""))
    as [[Hi He]|Htext].
  { rewrite Hi, He. done. }
  assert ((negb (bool_decide (ExampleSuggestion.igbo es ≠ ""))
           && negb (bool_decide (ExampleSuggestion.english es ≠ ""))) = false) as ->.
  { apply andb_false_iff.
    destruct (decide (ExampleSuggestion.igbo es = "")) as [Hi|Hi].
    - right. rewrite bool_decide_eq_true_2; [done|]. intros He. by apply Htext.
    - left. by rewrite bool_decide_eq_true_2. }
  unfold some, hasInvalidId.
  destruct (existsb _ _) eqn:Hinv.
  { rewrite decide_True; [done|].
    apply existsb_exists in Hinv as (v & Hv%list_elem_of_In & Hval).
    apply Exists_exists. exists v. split; [done|]. by apply negb_true_iff. }
  rewrite decide_False.
  2:{ intros (v & Hv & Hval)%Exists_exists. apply not_true_iff_false in Hinv.
      apply Hinv. apply existsb_exists. exists v.
      split; [by apply list_elem_of_In|]. by rewrite Hval. }
  unfold bind at 1. rewrite wordsMustExist_run.
  unfold hasUnknownWord. destruct (decide (Exists _ _)) as [Hunk|Hunk]; [done|].
  unfold hasRepeatedId.
  destruct (decide (NoDup (ExampleSuggestion.associatedWords es))) as [Hnd|Hnd].
  - apply uniq_length_NoDup in Hnd as Hlen. rewrite <- Hlen, Nat.eqb_refl.
    cbn [negb]. rewrite decide_False by (by intros ?).
    by destruct (truthy _).
  - rewrite decide_True; [|done].
    destruct (Nat.eqb_spec (length (ExampleSuggestion.associatedWords es))
                (length (uniq (ExampleSuggestion.associatedWords es)))) as [Hlen|Hlen];
      [|done].
    by apply uniq_length_NoDup in Hlen.
Qed.

(** ** Validation of an Example Suggestion *)

(** C3: the duplicate check of [executeMergeExample] is [_.uniq] on the
    fetched array.  A suggestion that lists the same Word twice as two
    string primitives is rejected with the duplicates error and nothing is
    written; the same Word listed twice as two ObjectIds, which is how a
    stored array reads back, passes the check: [executeMergeExample]
    resolves and the canonical Example is stored with the Word twice. *)
Theorem executeMergeExample_accepts_repeated_identifier :
  let s := Sample.storeWith Sample.twoObjects in
  let run := executeMergeExample Sample.exampleSuggestionId "U1" s in
  toString <$> ExampleSuggestion.associatedWords Sample.twoObjects
  = [Sample.wordId; Sample.wordId]
  ∧ (∃ merged,
       run.1 = Ok merged
       ∧ examples run.2 !! id merged = Some (exampleFields Sample.twoObjects)
       ∧ toString <$> Example.associatedWords (exampleFields Sample.twoObjects)
         = [Sample.wordId; Sample.wordId])
  ∧ executeMergeExample Sample.exampleSuggestionId "U1" (Sample.storeWith Sample.repeated)
    = (Err duplicatesError, Sample.storeWith Sample.repeated).
Proof.
  intros s run. split; [reflexivity|]. split.
  - exists (mkDoc (objectIdOf 0) false (exampleFields Sample.twoObjects)).
    split; [vm_compute; reflexivity|]. split; [vm_compute; reflexivity|reflexivity].
  - vm_compute. reflexivity.
Qed.

(** ** What a controller leaves alone *)

Lemma preserves_run {A X : Type} (p : Store → X) (c : M A) (s : Store)
    (r : Result A) (s' : Store) :
  preserves p c → c s = (r, s') → p s' = p s.
Proof. intros Hp Hrun. specialize (Hp s). by rewrite Hrun in Hp. Qed.

Section Preserves.
Context {X : Type} (p : Store → X).

Lemma preserves_ret {A} (a : A) : preserves p (ret a).
Proof. done. Qed.

Lemma preserves_throw {A} (e : Error) : preserves p (@throw A e).
Proof. done. Qed.

Lemma preserves_bind {A B} (c : M A) (k : A → M B) :
  preserves p c → (∀ a, preserves p (k a)) → preserves p (bind c k).
Proof.
  intros Hc Hk s. unfold bind. specialize (Hc s).
  destruct (c s) as [[a|e] s1]; cbn in *; [|done].
  by rewrite (Hk a s1).
Qed.

Lemma preserves_catch {A} (c : M A) (handler : Error → M A) :
  preserves p c → (∀ e, preserves p (handler e)) → preserves p (catch c handler).
Proof.
  intros Hc Hh s. unfold catch. specialize (Hc s).
  destruct (c s) as [[a|e] s1]; cbn in *; [done|].
  by rewrite (Hh e s1).
Qed.

Lemma preserves_detached {A} (c : M A) : preserves p c → preserves p (detached c).
Proof. intros Hc s. apply Hc. Qed.

Lemma preserves_promiseAllMap {A B} (f : A → M B) (xs : list A) :
  (∀ x, preserves p (f x)) → preserves p (promiseAllMap f xs).
Proof.
  intros Hf. induction xs as [|x xs IH]; cbn [promiseAllMap].
  - apply preserves_ret.
  - apply preserves_bind; [done|]. intros y.
    apply preserves_bind; [done|]. intros ys. apply preserves_ret.
Qed.

Lemma preserves_findByIdIn {A} (get : Store → gmap string A) (v : IdValue) :
  preserves p (findByIdIn get v).
Proof. done. Qed.

Lemma preserves_findIn {A} (get : Store → gmap string A) (query : A → bool) :
  preserves p (findIn get query).
Proof. done. Qed.

Lemma preserves_findWordsWithMatch (v : option IdValue) (limit : nat) :
  preserves p (findWordsWithMatch v limit).
Proof. done. Qed.

Lemma preserves_findUser (uid : string) : preserves p (findUser uid).
Proof. intros s. unfold findUser. by destruct (users s !! uid) as [[address|e]|]. Qed.

(** The parts of the store that the fault script and the ObjectId counter
    are not. *)
Hypothesis p_faults : ∀ fs s, p (set_faults fs s) = p s.

Lemma preserves_storeWrite : preserves p storeWrite.
Proof.
  intros s. destruct (storeWrite s) as [r s1] eqn:Hw.
  apply storeWrite_inv in Hw as [fs ->]. cbn. apply p_faults.
Qed.

Section Other.
Context {A : Type}.
Variable get : Store → gmap string A.
Variable set : (gmap string A → gmap string A) → Store → Store.
(** [p] is not the collection written. *)
Hypothesis p_set : ∀ f s, p (set f s) = p s.

Lemma preserves_saveIn (d : Doc A) : preserves p (saveIn get set d).
Proof.
  apply preserves_bind; [apply preserves_storeWrite|]. intros _ s.
  destruct (isNew d), (get s !! id d); cbn; by rewrite ?p_set.
Qed.

Lemma preserves_findOneAndUpdateIn (v : option IdValue) (update : A → A) :
  preserves p (findOneAndUpdateIn get set v update).
Proof.
  apply preserves_bind; [apply preserves_storeWrite|]. intros _ s.
  destruct (v ≫= _) as [[? ?]|]; cbn; by rewrite ?p_set.
Qed.

Lemma preserves_deleteOneIn (key : string) : preserves p (deleteOneIn set key).
Proof.
  apply preserves_bind; [apply preserves_storeWrite|]. intros _ s.
  cbn. by rewrite p_set.
Qed.
End Other.

Hypothesis p_oidCounter : ∀ n s, p (set_oidCounter n s) = p s.

Lemma preserves_newObjectId : preserves p newObjectId.
Proof. intros s. cbn. apply p_oidCounter. Qed.
End Preserves.

(** Splits a [preserves] goal along the structure of the controller. *)
Ltac frame_step :=
  lazymatch goal with
  | |- preserves _ (ret _) => apply preserves_ret
  | |- preserves _ (throw _) => apply preserves_throw
  | |- preserves _ (updateDocumentMerge _ _ _) =>
      unfold updateDocumentMerge;
      cbn [saveSuggestion ExampleSuggestion_Suggestion WordSuggestion_Suggestion];
      unfold ExampleSuggestion_save, WordSuggestion_save
  | |- preserves _ (findByIdIn _ _) => apply preserves_findByIdIn
  | |- preserves _ (findIn _ _) => apply preserves_findIn
  | |- preserves _ (findWordsWithMatch _ _) => apply preserves_findWordsWithMatch
  | |- preserves _ (findUser _) => apply preserves_findUser
  | |- preserves _ newObjectId => apply preserves_newObjectId; solve [auto]
  | |- preserves _ storeWrite => apply preserves_storeWrite; solve [auto]
  | |- preserves _ (saveIn _ _ _) => apply preserves_saveIn; solve [auto]
  | |- preserves _ (findOneAndUpdateIn _ _ _ _) =>
      apply preserves_findOneAndUpdateIn; solve [auto]
  | |- preserves _ (deleteOneIn _ _) => apply preserves_deleteOneIn; solve [auto]
  | |- preserves _ (promiseAllMap _ _) => apply preserves_promiseAllMap
  | |- preserves _ (detached _) => apply preserves_detached
  | |- preserves _ (catch _ _) => apply preserves_catch
  | |- preserves _ (bind _ _) => apply preserves_bind
  | |- preserves _ (match ?x with _ => _ end) => destruct x
  | |- ∀ _, _ => intros
  end.
Ltac frame := repeat frame_step.

Lemma createExample_preserves {X} (p : Store → X) (data : Example.t) :
  (∀ fs s, p (set_faults fs s) = p s) →
  (∀ n s, p (set_oidCounter n s) = p s) →
  (∀ f s, p (set_examples f s) = p s) →
  preserves p (createExample data).
Proof. intros. unfold createExample, Example_save. frame.
Qed.

Lemma executeMergeExample_preserves {X} (p : Store → X)
    (exampleSuggestionId mergedBy : string) :
  (∀ fs s, p (set_faults fs s) = p s) →
  (∀ n s, p (set_oidCounter n s) = p s) →
  (∀ f s, p (set_examples f s) = p s) →
  (∀ f s, p (set_exampleSuggestions f s) = p s) →
  preserves p (executeMergeExample exampleSuggestionId mergedBy).
Proof.
  intros. unfold executeMergeExample, findExampleSuggestionById, wordMustExist,
    mergeIntoExample, createExampleFromSuggestion, Example_findOneAndUpdate,
    Word_findById.
  frame. all: by apply createExample_preserves.
Qed.

(** ** The Example Merge Engine, step by step *)

Lemma createExample_Ok_inv (data : Example.t) (s : Store) (d : Doc Example.t) (s' : Store) :
  createExample data s = (Ok d, s') →
  d = mkDoc (objectIdOf (oidCounter s)) false data
  ∧ examples s !! id d = None
  ∧ examples s' = <[id d := data]> (examples s).
Proof.
  unfold createExample. intros (k & s1 & Hk & Hsave)%bind_Ok_inv.
  cbv [newObjectId] in Hk. injection Hk as <- <-.
  apply saveIn_Ok_inv in Hsave as (fs & -> & -> & Hnew). cbn in *. done.
Qed.

Lemma createExample_Err_inv (data : Example.t) (s : Store) (e : Error) (s' : Store) :
  createExample data s = (Err e, s') → examples s' = examples s.
Proof.
  unfold createExample. intros [Hk|(k & s1 & Hk & Hsave)]%bind_Err_inv; [done|].
  cbv [newObjectId] in Hk. injection Hk as <- <-.
  by apply saveIn_Err_inv in Hsave as (fs & ->).
Qed.

(** The stamp of [updateDocumentMerge] on an Example Suggestion and on a
    Word Suggestion. *)
Lemma stampExampleSuggestion_Ok_inv (es : Doc ExampleSuggestion.t) (k mergedBy : string)
    (s : Store) (d : Doc ExampleSuggestion.t) (s' : Store) :
  updateDocumentMerge es k mergedBy s = (Ok d, s') →
  ∃ fs, s' = set_exampleSuggestions (insert (id es) (setMerge k mergedBy (fields es)))
               (set_faults fs s)
        ∧ d = mkDoc (id es) false (setMerge k mergedBy (fields es)).
Proof.
  intros Hsave.
  apply (saveIn_Ok_inv exampleSuggestions set_exampleSuggestions) in Hsave
    as (fs & -> & -> & _).
  by exists fs.
Qed.

Lemma stampExampleSuggestion_Err_inv (es : Doc ExampleSuggestion.t) (k mergedBy : string)
    (s : Store) (e : Error) (s' : Store) :
  updateDocumentMerge es k mergedBy s = (Err e, s') → ∃ fs, s' = set_faults fs s.
Proof. apply (saveIn_Err_inv exampleSuggestions set_exampleSuggestions). Qed.

Lemma stampWordSuggestion_Ok_inv (ws : Doc WordSuggestion.t) (k mergedBy : string)
    (s : Store) (d : Doc WordSuggestion.t) (s' : Store) :
  updateDocumentMerge ws k mergedBy s = (Ok d, s') →
  ∃ fs, s' = set_wordSuggestions (insert (id ws) (setMerge k mergedBy (fields ws)))
               (set_faults fs s)
        ∧ d = mkDoc (id ws) false (setMerge k mergedBy (fields ws)).
Proof.
  intros Hsave.
  apply (saveIn_Ok_inv wordSuggestions set_wordSuggestions) in Hsave
    as (fs & -> & -> & _).
  by exists fs.
Qed.

Lemma stampWordSuggestion_Err_inv (ws : Doc WordSuggestion.t) (k mergedBy : string)
    (s : Store) (e : Error) (s' : Store) :
  updateDocumentMerge ws k mergedBy s = (Err e, s') → ∃ fs, s' = set_faults fs s.
Proof. apply (saveIn_Err_inv wordSuggestions set_wordSuggestions). Qed.

Lemma createExampleFromSuggestion_Ok_inv (es : Doc ExampleSuggestion.t) (mergedBy : string)
    (s : Store) (d : Doc Example.t) (s' : Store) :
  createExampleFromSuggestion es mergedBy s = (Ok d, s') →
  ∃ s1 fs,
    createExample (exampleFields (fields es)) s = (Ok d, s1)
    ∧ s' = set_exampleSuggestions (insert (id es) (setMerge (id d) mergedBy (fields es)))
             (set_faults fs s1).
Proof.
  unfold createExampleFromSuggestion, catch.
  destruct (bind _ _ s) as [[d1|e] s2] eqn:Hrun; [|done]. intros [= -> ->].
  apply bind_Ok_inv in Hrun as (example & s1 & Hcreate & Hrun).
  apply bind_Ok_inv in Hrun as (stamped & s3 & Hstamp & Hrun).
  cbv [ret] in Hrun. injection Hrun as <- <-.
  apply stampExampleSuggestion_Ok_inv in Hstamp as (fs & -> & _).
  by exists s1, fs.
Qed.

Lemma createExampleFromSuggestion_Err_inv (es : Doc ExampleSuggestion.t)
    (mergedBy : string) (s : Store) (e : Error) (s' : Store) :
  createExampleFromSuggestion es mergedBy s = (Err e, s') →
  e = newError "An error occurred while saving the new example."
  ∧ ((∃ cause, createExample (exampleFields (fields es)) s = (Err cause, s'))
     ∨ (∃ d s1 cause,
          createExample (exampleFields (fields es)) s = (Ok d, s1)
          ∧ updateDocumentMerge es (id d) mergedBy s1 = (Err cause, s'))).
Proof.
  unfold createExampleFromSuggestion, catch.
  destruct (bind _ _ s) as [[d1|cause] s2] eqn:Hrun; [done|]. intros [= <- <-].
  split; [done|].
  apply bind_Err_inv in Hrun as [Hcreate|(d & s1 & Hcreate & Hrun)];
    [left; by exists cause|right].
  apply bind_Err_inv in Hrun as [Hstamp|(stamped & s3 & Hstamp & Hrun)]; [|done].
  by exists d, s1, cause.
Qed.

Lemma mergeIntoExample_Ok_inv (es : Doc ExampleSuggestion.t) (mergedBy : string)
    (s : Store) (d : Doc Example.t) (s' : Store) :
  mergeIntoExample es mergedBy s = (Ok d, s') →
  (∃ w, ExampleSuggestion.originalExampleId (fields es) = Some w ∧ id d = toString w)
  ∧ examples s !! id d = Some (fields d)
  ∧ examples s' = <[id d := exampleFields (fields es)]> (examples s)
  ∧ exampleSuggestions s'
    = <[id es := setMerge (id d) mergedBy (fields es)]> (exampleSuggestions s).
Proof.
  unfold mergeIntoExample. intros (r & s1 & Hupd & Hrest)%bind_Ok_inv.
  apply findOneAndUpdateIn_Ok_inv in Hupd as (fs & Hupd).
  destruct r as [old|]; [|done].
  destruct Hupd as (Hw & Hold & ->).
  apply bind_Ok_inv in Hrest as (stamped & s2 & Hstamp & Hrest).
  cbv [ret] in Hrest. injection Hrest as <- <-.
  apply stampExampleSuggestion_Ok_inv in Hstamp as (fs2 & -> & _). done.
Qed.

Lemma mergeIntoExample_Err_inv (es : Doc ExampleSuggestion.t) (mergedBy : string)
    (s : Store) (e : Error) (s' : Store) :
  mergeIntoExample es mergedBy s = (Err e, s') →
  exampleSuggestions s' = exampleSuggestions s
  ∧ ((examples s' = examples s
      ∧ (storeWrite s = (Err e, s') ∨ e = newError "Example doesn't exist"))
     ∨ (∃ d s1,
          Example_findOneAndUpdate (ExampleSuggestion.originalExampleId (fields es))
            (λ _, exampleFields (fields es)) s = (Ok (Some d), s1)
          ∧ examples s' = <[id d := exampleFields (fields es)]> (examples s)
          ∧ updateDocumentMerge es (id d) mergedBy s1 = (Err e, s'))).
Proof.
  unfold mergeIntoExample. intros [Hupd|(r & s1 & Hupd & Hrest)]%bind_Err_inv.
  - apply findOneAndUpdateIn_Err_inv in Hupd.
    pose proof Hupd as (fs & ->)%storeWrite_inv. split; [done|]. left. split; [done|by left].
  - pose proof Hupd as (fs & Hinv)%findOneAndUpdateIn_Ok_inv.
    destruct r as [old|].
    + destruct Hinv as (Hw & Hold & ->).
      apply bind_Err_inv in Hrest as [Hstamp|(stamped & s2 & _ & Hrest)]; [|done].
      pose proof Hstamp as (fs2 & ->)%stampExampleSuggestion_Err_inv.
      split; [done|]. right. by eexists old, _.
    + destruct Hinv as [-> _]. injection Hrest as <- <-.
      split; [done|]. left. split; [done|by right].
Qed.

Lemma findExampleSuggestionById_run (k : string) (s : Store) :
  findExampleSuggestionById k s = (Ok (mkDoc k false <$> exampleSuggestions s !! k), s).
Proof. done. Qed.

Lemma executeMergeExample_Ok_inv (k mergedBy : string) (s : Store)
    (d : Doc Example.t) (s' : Store) :
  executeMergeExample k mergedBy s = (Ok d, s') →
  ∃ es, exampleSuggestions s !! k = Some es
        ∧ examples s' = <[id d := exampleFields es]> (examples s)
        ∧ ¬ missingText es ∧ ¬ hasInvalidId es ∧ ¬ hasUnknownWord s es
        ∧ ¬ hasRepeatedId es
        ∧ exampleSuggestions s' = <[k := setMerge (id d) mergedBy es]> (exampleSuggestions s).
Proof.
  intros Hrun. destruct (exampleSuggestions s !! k) as [es|] eqn:Hes.
  2:{ unfold executeMergeExample, bind in Hrun.
      rewrite findExampleSuggestionById_run, Hes in Hrun. done. }
  exists es. split; [done|].
  rewrite (executeMergeExample_run _ _ _ _ Hes) in Hrun.
  repeat (destruct (decide _); [done|]).
  destruct (truthy _).
  - apply mergeIntoExample_Ok_inv in Hrun as (_ & _ & Hexamples & Hsuggestions). done.
  - apply createExampleFromSuggestion_Ok_inv in Hrun as (s1 & fs & Hcreate & ->).
    pose proof Hcreate as Hsame. apply (preserves_run exampleSuggestions) in Hsame;
      [|by apply createExample_preserves].
    apply createExample_Ok_inv in Hcreate as (_ & _ & Hexamples).
    cbn. by rewrite Hsame.
Qed.

(** A rejected [executeMergeExample] has left the Example Suggestions as
    they were; the Examples are as they were, or hold the suggestion's
    fields under one [_id], the stamp having failed after the write. *)
Lemma executeMergeExample_Err_inv (k mergedBy : string) (s : Store)
    (e : Error) (s' : Store) :
  executeMergeExample k mergedBy s = (Err e, s') →
  exampleSuggestions s' = exampleSuggestions s
  ∧ (examples s' = examples s
     ∨ ∃ es k', exampleSuggestions s !! k = Some es
                ∧ examples s' = <[k' := exampleFields es]> (examples s)).
Proof.
  intros Hrun. destruct (exampleSuggestions s !! k) as [es|] eqn:Hes.
  2:{ unfold executeMergeExample, bind in Hrun.
      rewrite findExampleSuggestionById_run, Hes in Hrun. injection Hrun as <- <-.
      split; [done|by left]. }
  rewrite (executeMergeExample_run _ _ _ _ Hes) in Hrun.
  repeat (destruct (decide _); [injection Hrun as <- <-; split; [done|by left]|]).
  destruct (truthy _).
  - apply mergeIntoExample_Err_inv in Hrun as [Hsame [[Hexamples _]|(d & s1 & _ & Hexamples & _)]].
    + split; [done|by left].
    + split; [done|]. right. by exists es, (id d).
  - apply createExampleFromSuggestion_Err_inv in Hrun
      as (_ & [(cause & Hrun)|(d & s1 & cause & Hcreate & Hstamp)]).
    + split; [|left; by apply createExample_Err_inv in Hrun].
      apply (preserves_run exampleSuggestions) in Hrun; [done|].
      by apply createExample_preserves.
    + apply stampExampleSuggestion_Err_inv in Hstamp as (fs & ->).
      pose proof Hcreate as Hsame. apply (preserves_run exampleSuggestions) in Hsame;
        [|by apply createExample_preserves].
      apply createExample_Ok_inv in Hcreate as (_ & _ & Hexamples).
      split; [done|]. right. by exists es, (id d).
Qed.

(** Whatever its outcome, [executeMergeExample] leaves every other
    Example Suggestion as it was, and creates and deletes none. *)
Lemma executeMergeExample_others (k mergedBy : string) (s : Store) :
  let s' := (executeMergeExample k mergedBy s).2 in
  (∀ k', k' ≠ k → exampleSuggestions s' !! k' = exampleSuggestions s !! k')
  ∧ dom (exampleSuggestions s') = dom (exampleSuggestions s).
Proof.
  destruct (executeMergeExample k mergedBy s) as [[d|e] s'] eqn:Hrun; cbn.
  - apply executeMergeExample_Ok_inv in Hrun as (es & Hes & _ & _ & _ & _ & _ & ->).
    split; [intros k' Hk'; by rewrite lookup_insert_ne|].
    by apply dom_insert_lookup_L.
  - by apply executeMergeExample_Err_inv in Hrun as [-> _].
Qed.

Lemma mergeNestedExample_unfold (suggestionId originalWordId mergedBy : string)
    (E : Doc ExampleSuggestion.t) (s : Store) :
  mergeNestedExample suggestionId originalWordId mergedBy E s
  = (await _ ← ExampleSuggestion_save
                 (setAssociatedWords
                    (cascadeAssociatedWords (ExampleSuggestion.associatedWords (fields E))
                       suggestionId originalWordId) E);
     executeMergeExample (id E) mergedBy) s.
Proof.
  unfold mergeNestedExample, bind.
  destruct (ExampleSuggestion_save _ s) as [[E1|e] s1] eqn:Hsave; [|done].
  by apply saveIn_Ok_inv in Hsave as (fs & _ & -> & _).
Qed.

(** ** One nested Example Suggestion of the cascade *)

Lemma mergeNestedExample_Ok_inv (suggestionId originalWordId mergedBy : string)
    (E : Doc ExampleSuggestion.t) (s : Store) (d : Doc Example.t) (s' : Store) :
  mergeNestedExample suggestionId originalWordId mergedBy E s = (Ok d, s') →
  let E' := setAssociatedWords
              (cascadeAssociatedWords (ExampleSuggestion.associatedWords (fields E))
                 suggestionId originalWordId) E in
  ∃ s1, exampleSuggestions s1 = <[id E := fields E']> (exampleSuggestions s)
        ∧ examples s1 = examples s
        ∧ executeMergeExample (id E) mergedBy s1 = (Ok d, s')
        ∧ exampleSuggestions s'
          = <[id E := setMerge (id d) mergedBy (fields E')]> (exampleSuggestions s)
        ∧ examples s' = <[id d := exampleFields (fields E')]> (examples s).
Proof.
  intros Hrun E'. unfold mergeNestedExample in Hrun. fold E' in Hrun.
  apply bind_Ok_inv in Hrun as (E1 & s1 & Hsave & Hrun).
  apply saveIn_Ok_inv in Hsave as (fs & -> & -> & _). cbn [id] in Hrun.
  change (id E') with (id E) in *.
  exists (set_exampleSuggestions <[id E:=fields E']> (set_faults fs s)).
  split; [done|]. split; [done|]. split; [exact Hrun|].
  apply executeMergeExample_Ok_inv in Hrun as (es & Hes & -> & _ & _ & _ & _ & ->).
  cbn in Hes. rewrite lookup_insert_eq in Hes. injection Hes as <-.
  cbn. by rewrite insert_insert_eq.
Qed.


Lemma mergeNestedExample_preserves {X} (p : Store → X)
    (suggestionId originalWordId mergedBy : string) (E : Doc ExampleSuggestion.t) :
  (∀ fs s, p (set_faults fs s) = p s) →
  (∀ n s, p (set_oidCounter n s) = p s) →
  (∀ f s, p (set_examples f s) = p s) →
  (∀ f s, p (set_exampleSuggestions f s) = p s) →
  preserves p (mergeNestedExample suggestionId originalWordId mergedBy E).
Proof.
  intros. unfold mergeNestedExample, ExampleSuggestion_save. frame.
  by apply executeMergeExample_preserves.
Qed.

(** ** Queries *)

Lemma filter_sublist {A} (f : A → bool) (l : list A) : List.filter f l `sublist_of` l.
Proof.
  induction l as [|x l IH]; cbn; [constructor|].
  destruct (f x); by constructor.
Qed.

Section FindFacts.
Context {A : Type} (get : Store → gmap string A) (query : A → bool).

Lemma findIn_ids_NoDup (s : Store) (found : list (Doc A)) (s' : Store) :
  findIn get query s = (Ok found, s') → NoDup (id <$> found).
Proof.
  intros [= <- <-]. rewrite <- list_fmap_compose.
  change (NoDup (fst <$> List.filter (λ kv, query kv.2) (map_to_list (get s)))).
  eapply sublist_NoDup; [apply (NoDup_fst_map_to_list (get s))|].
  apply fmap_sublist, filter_sublist.
Qed.

Lemma elem_of_findIn (s : Store) (found : list (Doc A)) (s' : Store) (d : Doc A) :
  findIn get query s = (Ok found, s') →
  d ∈ found ↔ isNew d = false ∧ get s !! id d = Some (fields d) ∧ query (fields d) = true.
Proof.
  intros [= <- <-]. rewrite list_elem_of_fmap. split.
  - intros ([k a] & -> & Hin). cbn.
    apply list_elem_of_In, filter_In in Hin as [Hin Hq].
    apply list_elem_of_In, elem_of_map_to_list in Hin. done.
  - intros (Hnew & Hget & Hq). exists (id d, fields d). split.
    + destruct d; cbn in *; by subst.
    + apply list_elem_of_In, filter_In. split; [|done].
      by apply list_elem_of_In, elem_of_map_to_list.
Qed.
End FindFacts.

(** ** The post-merge cascade *)

Lemma cascadeAssociatedWords_linkedTo (l : list IdValue) (suggestionId originalWordId : string) :
  suggestionId ≠ originalWordId →
  linkedTo originalWordId suggestionId
    (cascadeAssociatedWords l suggestionId originalWordId).
Proof.
  intros Hne. unfold cascadeAssociatedWords, includes.
  set (filtered := filter_ l _).
  assert (Hf : suggestionId ∉ toString <$> filtered).
  { intros (v & Hv & Hin)%list_elem_of_fmap. unfold filtered, filter_ in Hin.
    apply list_elem_of_In, filter_In in Hin as [_ Hin].
    apply bool_decide_eq_true in Hin. by apply Hin. }
  cbn [toString].
  destruct (decide (originalWordId ∈ toString <$> filtered)) as [Hin|Hin].
  - rewrite bool_decide_eq_true_2 by done. cbn [negb]. by split.
  - rewrite bool_decide_eq_false_2 by done. cbn [negb].
    unfold linkedTo. rewrite fmap_app. cbn [fmap list_fmap toString]. split.
    + apply elem_of_app. right. by apply list_elem_of_singleton.
    + intros [?|Hs%list_elem_of_singleton]%elem_of_app; [done|]. by apply Hne.
Qed.

(** The canonical Word's id is pushed exactly when no entry of the array
    has its string form. *)
Lemma cascadeAssociatedWords_cases (l : list IdValue) (suggestionId originalWordId : string) :
  suggestionId ≠ originalWordId →
  let filtered := filter_ l (λ v, bool_decide (toString v ≠ suggestionId)) in
  (originalWordId ∈ toString <$> l
   → cascadeAssociatedWords l suggestionId originalWordId = filtered)
  ∧ (originalWordId ∉ toString <$> l
     → cascadeAssociatedWords l suggestionId originalWordId
       = filtered ++ [IdStr originalWordId]).
Proof.
  intros Hne filtered. unfold cascadeAssociatedWords, includes. fold filtered.
  cbn [toString].
  assert (Hiff : originalWordId ∈ toString <$> filtered ↔ originalWordId ∈ toString <$> l).
  { unfold filtered, filter_. rewrite !list_elem_of_fmap. split.
    - intros (v & Hv & Hin). exists v. split; [done|].
      by apply list_elem_of_In, filter_In in Hin as [Hin%list_elem_of_In _].
    - intros (v & Hv & Hin). exists v. split; [done|].
      apply list_elem_of_In, filter_In. split; [by apply list_elem_of_In|].
      apply bool_decide_eq_true. rewrite <- Hv. by intros <-. }
  split; intros Hin.
  - by rewrite bool_decide_eq_true_2 by (by apply Hiff).
  - by rewrite bool_decide_eq_false_2 by (by rewrite Hiff).
Qed.

(** What a resolved cascade has done, by induction on the branches. *)
Lemma cascade_run (suggestionId originalWordId mergedBy : string) :
  suggestionId ≠ originalWordId →
  ∀ xs s ys s',
    promiseAllMap (mergeNestedExample suggestionId originalWordId mergedBy) xs s
    = (Ok ys, s') →
    NoDup (id <$> xs) →
    (∀ k, k ∉ id <$> xs → exampleSuggestions s' !! k = exampleSuggestions s !! k)
    ∧ (∀ E, E ∈ xs →
         let E' := cascaded suggestionId originalWordId E in
         ∃ s1 s2 d,
           exampleSuggestions s1 !! id E = Some E'
           ∧ executeMergeExample (id E) mergedBy s1 = (Ok d, s2)
           ∧ exampleSuggestions s' !! id E = Some (setMerge (id d) mergedBy E')
           ∧ ∃ ex, examples s' !! id d = Some ex
                   ∧ linkedTo originalWordId suggestionId (Example.associatedWords ex))
    ∧ (∀ k, examples s' !! k = examples s !! k
            ∨ ∃ ex, examples s' !! k = Some ex
                    ∧ linkedTo originalWordId suggestionId (Example.associatedWords ex)).
Proof.
  intros Hne. apply (promiseAllMap_Ok_ind _ (λ xs s ys s', NoDup (id <$> xs) → _)).
  - intros s _. split; [done|]. split; [by intros ? ?%elem_of_nil|]. by left.
  - intros x xs s y s1 ys s' Hx Hxs IH Hnd.
    rewrite fmap_cons in Hnd. apply NoDup_cons in Hnd as [Hx_fresh Hnd].
    destruct (IH Hnd) as (IHother & IHeach & IHex). clear IH.
    apply mergeNestedExample_Ok_inv in Hx as (s0 & Hsugg0 & Hex0 & Hmerge & Hsugg1 & Hex1).
    cbn zeta in *. fold (cascaded suggestionId originalWordId x) in *.
    set (x' := cascaded suggestionId originalWordId x) in *.
    assert (Hgood : linkedTo originalWordId suggestionId
                      (Example.associatedWords (exampleFields x'))).
    { by apply cascadeAssociatedWords_linkedTo. }
    split; [|split].
    + intros k Hk. rewrite fmap_cons, not_elem_of_cons in Hk. destruct Hk as [Hkx Hk].
      rewrite (IHother k Hk), Hsugg1. by rewrite lookup_insert_ne.
    + intros E [->|HE]%elem_of_cons.
      * exists s0, s1, y. split; [by rewrite Hsugg0, lookup_insert_eq|].
        split; [done|].
        split; [by rewrite (IHother _ Hx_fresh), Hsugg1, lookup_insert_eq|].
        destruct (IHex (id y)) as [Hsame|Hnew]; [|done].
        exists (exampleFields x'). split; [|done].
        by rewrite Hsame, Hex1, lookup_insert_eq.
      * by apply IHeach.
    + intros k. destruct (IHex k) as [Hsame|Hnew]; [|by right].
      rewrite Hsame, Hex1. destruct (decide (id y = k)) as [<-|Hk].
      * right. exists (exampleFields x'). by rewrite lookup_insert_eq.
      * left. by rewrite lookup_insert_ne.
Qed.


(** A resolved [updateSuggestionAfterMerge]: the stamp that
    [updateDocumentMerge] stored, the nested Example Suggestions it found,
    the cascade over them, and the last save of the stamped document. *)
Lemma updateSuggestionAfterMerge_Ok_inv (suggestionDoc : Doc WordSuggestion.t)
    (originalWordDoc : Doc Word.t) (mergedBy : string) (s : Store)
    (d : Doc WordSuggestion.t) (s' : Store) :
  updateSuggestionAfterMerge suggestionDoc originalWordDoc mergedBy s = (Ok d, s') →
  let stamped :=
    mkDoc (id suggestionDoc) false
      (setMerge (id originalWordDoc) mergedBy (fields suggestionDoc)) in
  ∃ s0 nested merged s1,
    updateDocumentMerge suggestionDoc (id originalWordDoc) mergedBy s = (Ok stamped, s0)
    ∧ ExampleSuggestion_find
        (λ es, holdsAssociatedWord (id suggestionDoc) (ExampleSuggestion.associatedWords es)) s0
      = (Ok nested, s0)
    ∧ promiseAllMap (mergeNestedExample (id suggestionDoc) (id originalWordDoc) mergedBy)
        nested s0 = (Ok merged, s1)
    ∧ WordSuggestion_save stamped s1 = (Ok d, s').
Proof.
  unfold updateSuggestionAfterMerge.
  intros (stamped & s0 & Hstamp & Hrun)%bind_Ok_inv.
  pose proof Hstamp as (fs & _ & ->)%stampWordSuggestion_Ok_inv.
  apply bind_Ok_inv in Hrun as (nested & s0' & Hfind & Hrun).
  assert (s0' = s0) as -> by (by injection Hfind).
  apply bind_Ok_inv in Hrun as (merged & s1 & Hcascade & Hsave).
  by exists s0, nested, merged, s1.
Qed.

(** ** The branches of [mergeWord] *)

Lemma updateSuggestionAfterMerge_preserves {X} (p : Store → X)
    (suggestionDoc : Doc WordSuggestion.t) (originalWordDoc : Doc Word.t)
    (mergedBy : string) :
  (∀ fs s, p (set_faults fs s) = p s) →
  (∀ n s, p (set_oidCounter n s) = p s) →
  (∀ f s, p (set_examples f s) = p s) →
  (∀ f s, p (set_exampleSuggestions f s) = p s) →
  (∀ f s, p (set_wordSuggestions f s) = p s) →
  preserves p (updateSuggestionAfterMerge suggestionDoc originalWordDoc mergedBy).
Proof.
  intros. unfold updateSuggestionAfterMerge, ExampleSuggestion_find, WordSuggestion_save.
  frame. by apply mergeNestedExample_preserves.
Qed.

Lemma createWord_preserves {X} (p : Store → X) (data : WordData) :
  (∀ fs s, p (set_faults fs s) = p s) →
  (∀ n s, p (set_oidCounter n s) = p s) →
  (∀ f s, p (set_examples f s) = p s) →
  (∀ f s, p (set_words f s) = p s) →
  preserves p (createWord data).
Proof.
  intros. unfold createWord, Word_save. frame. by apply createExample_preserves.
Qed.

Lemma handleSendingMergedEmail_preserves {X} (p : Store → X) (url : string)
    (result : option (Doc Word.t)) :
  (∀ o s, p (set_outbox o s) = p s) →
  preserves p (handleSendingMergedEmail url result).
Proof.
  intros Hp. unfold handleSendingMergedEmail. frame.
  intros st. unfold sendMergedEmail. destruct (mailerUp st); cbn; [apply Hp|done].
Qed.

Lemma mergeIntoWord_Ok_inv (suggestionDoc : Doc WordSuggestion.t) (mergedBy : string)
    (s : Store) (r : option (Doc Word.t)) (s' : Store) :
  mergeIntoWord suggestionDoc mergedBy s = (Ok r, s') →
  ∃ originalWord s1 d,
    Word_findOneAndUpdate (WordSuggestion.originalWordId (fields suggestionDoc))
      (wordUpdate (fields suggestionDoc)) s = (Ok (Some originalWord), s1)
    ∧ updateSuggestionAfterMerge suggestionDoc originalWord mergedBy s1 = (Ok d, s')
    ∧ r = mkDoc (id originalWord) false <$> words s' !! id originalWord.
Proof.
  unfold mergeIntoWord, catch.
  destruct (mergeIntoWord_then suggestionDoc mergedBy s) as [[r1|e] s2] eqn:Hthen; [|done].
  intros [= -> ->]. unfold mergeIntoWord_then in Hthen.
  apply bind_Ok_inv in Hthen as (ow & s1 & Hupd & Hthen).
  destruct ow as [originalWord|]; [|done].
  apply bind_Ok_inv in Hthen as (d & s2 & Hcascade & Hthen).
  apply bind_Ok_inv in Hthen as (found & s3 & Hfound & Hthen).
  cbv [ret] in Hthen. injection Hthen as <- <-.
  cbv [findWordsWithMatch] in Hfound. injection Hfound as <- <-.
  exists originalWord, s1, d. split; [done|]. split; [done|].
  apply findOneAndUpdateIn_Ok_inv in Hupd as (fs & (v & -> & Hid) & _).
  cbn. rewrite <- Hid. by destruct (words s2 !! id originalWord).
Qed.

Lemma createWordFromSuggestion_Ok_inv (suggestionDoc : Doc WordSuggestion.t)
    (mergedBy : string) (s : Store) (word : Doc Word.t) (s' : Store) :
  createWordFromSuggestion suggestionDoc mergedBy s = (Ok word, s') →
  ∃ s1 d,
    createWord (toWordData (fields suggestionDoc)) s = (Ok word, s1)
    ∧ updateSuggestionAfterMerge suggestionDoc word mergedBy s1 = (Ok d, s').
Proof.
  unfold createWordFromSuggestion, catch.
  destruct (createWordFromSuggestion_then suggestionDoc mergedBy s)
    as [[w|e] s2] eqn:Hthen; [|done].
  intros [= -> ->]. unfold createWordFromSuggestion_then in Hthen.
  apply bind_Ok_inv in Hthen as (w & s1 & Hcreate & Hthen).
  apply bind_Ok_inv in Hthen as (d & s3 & Hcascade & Hthen).
  cbv [ret] in Hthen. injection Hthen as <- <-.
  by exists s1, d.
Qed.

(** A response of [mergeWord] that sends a Word: the Word the branch
    resolved with, the cascade it ran, and the stores in between. *)
Lemma mergeWord_Send_inv (url : string) (req : MergeWordRequest) (s : Store)
    (w : Doc Word.t) (s' : Store) :
  mergeWord url req s = (Send (Some w), s') →
  ∃ originalWordDoc s1 d s2,
    id originalWordDoc = id w
    ∧ exampleSuggestions s1 = exampleSuggestions s
    ∧ wordSuggestions s1 = wordSuggestions s
    ∧ updateSuggestionAfterMerge (suggestionDoc req) originalWordDoc (user_uid req) s1
      = (Ok d, s2)
    ∧ handleSendingMergedEmail url (Some w) s2 = (Ok tt, s')
    ∧ (if truthy (WordSuggestion.originalWordId (fields (suggestionDoc req)))
       then Word_findOneAndUpdate
              (WordSuggestion.originalWordId (fields (suggestionDoc req)))
              (wordUpdate (fields (suggestionDoc req))) s
            = (Ok (Some originalWordDoc), s1)
       else createWord (toWordData (fields (suggestionDoc req))) s = (Ok w, s1)
            ∧ originalWordDoc = w).
Proof.
  unfold mergeWord, tryCatch.
  destruct (bind _ _ s) as [[r|e] s3] eqn:Hrun; [|done].
  intros [= -> ->].
  apply bind_Ok_inv in Hrun as (r & s2 & Hbranch & Hrun).
  apply bind_Ok_inv in Hrun as ([] & s4 & Hmail & Hrun).
  cbv [ret] in Hrun. injection Hrun as -> ->.
  unfold mergeWord_result in Hbranch. cbn zeta in Hbranch.
  destruct (truthy _).
  - apply mergeIntoWord_Ok_inv in Hbranch as (ow & s1 & d & Hupd & Hcascade & Hr).
    exists ow, s1, d, s2.
    destruct (words s2 !! id ow); [|done]. injection Hr as ->.
    split; [done|].
    split; [by apply (preserves_run exampleSuggestions) in Hupd;
              [|apply preserves_findOneAndUpdateIn]|].
    split; [by apply (preserves_run wordSuggestions) in Hupd;
              [|apply preserves_findOneAndUpdateIn]|].
    done.
  - apply bind_Ok_inv in Hbranch as (word & s5 & Hbranch & Hret).
    cbv [ret] in Hret. injection Hret as <- <-.
    apply createWordFromSuggestion_Ok_inv in Hbranch as (s1 & d & Hcreate & Hcascade).
    exists word, s1, d, s5. split; [done|].
    split; [by apply (preserves_run exampleSuggestions) in Hcreate;
              [|apply createWord_preserves]|].
    split; [by apply (preserves_run wordSuggestions) in Hcreate;
              [|apply createWord_preserves]|].
    done.
Qed.

(** ** The order of the stamp and the cascade *)




(** ** Cascade completeness *)

Lemma updateSuggestionAfterMerge_nested (suggestionDoc : Doc WordSuggestion.t)
    (originalWordDoc : Doc Word.t) (mergedBy : string) (s : Store)
    (d : Doc WordSuggestion.t) (s' : Store) :
  updateSuggestionAfterMerge suggestionDoc originalWordDoc mergedBy s = (Ok d, s') →
  id suggestionDoc ≠ id originalWordDoc →
  ∀ k es,
    exampleSuggestions s !! k = Some es →
    id suggestionDoc ∈ toString <$> ExampleSuggestion.associatedWords es →
    let es' := cascaded (id suggestionDoc) (id originalWordDoc) (mkDoc k false es) in
    ∃ s1 s2 merged,
      exampleSuggestions s1 !! k = Some es'
      ∧ executeMergeExample k mergedBy s1 = (Ok merged, s2)
      ∧ exampleSuggestions s' !! k = Some (setMerge (id merged) mergedBy es')
      ∧ ∃ ex, examples s' !! id merged = Some ex
              ∧ linkedTo (id originalWordDoc) (id suggestionDoc)
                  (Example.associatedWords ex).
Proof.
  intros Hrun Hne k es Hes Hin es'.
  apply updateSuggestionAfterMerge_Ok_inv in Hrun
    as (s0 & nested & merged & s1 & Hstamp & Hfind & Hcascade & Hsave).
  apply stampWordSuggestion_Ok_inv in Hstamp as (fs0 & -> & _).
  apply saveIn_Ok_inv in Hsave as (fs & -> & _ & _). cbn.
  pose proof (findIn_ids_NoDup _ _ _ _ _ Hfind) as Hnd.
  destruct (cascade_run _ _ _ Hne _ _ _ _ Hcascade Hnd) as (_ & Heach & _).
  apply (Heach (mkDoc k false es)).
  apply (elem_of_findIn _ _ _ _ _ _ Hfind). cbn. split; [done|]. split; [done|].
  unfold holdsAssociatedWord. by apply bool_decide_eq_true.
Qed.

(** C1: when [mergeWord] has sent the canonical Word, every Example
    Suggestion whose associated words held the Word Suggestion's own id is
    stored with every entry of that id filtered out and with the canonical
    Word's id, pushed as the last entry when no entry had its string form
    and not pushed otherwise; [executeMergeExample] has resolved on the
    saved suggestion for the merger of the request, whose identity and the
    canonical Example are the stamp the suggestion is stored with; and the
    canonical Example names the canonical Word and not the Word Suggestion.
    The store keeps the ids of a Word and of a Word Suggestion apart. *)
Theorem mergeWord_cascade (url : string) (req : MergeWordRequest) (s : Store)
    (w : Doc Word.t) (s' : Store) :
  mergeWord url req s = (Send (Some w), s') →
  id (suggestionDoc req) ≠ id w →
  ∀ k es,
    exampleSuggestions s !! k = Some es →
    id (suggestionDoc req) ∈ toString <$> ExampleSuggestion.associatedWords es →
    let filtered :=
      filter_ (ExampleSuggestion.associatedWords es)
        (λ v, bool_decide (toString v ≠ id (suggestionDoc req))) in
    let associatedWords' :=
      if bool_decide (id w ∈ toString <$> ExampleSuggestion.associatedWords es)
      then filtered else filtered ++ [IdStr (id w)] in
    linkedTo (id w) (id (suggestionDoc req)) associatedWords'
    ∧ ∃ s1 s2 merged,
        ExampleSuggestion.associatedWords <$> exampleSuggestions s1 !! k
        = Some associatedWords'
        ∧ executeMergeExample k (user_uid req) s1 = (Ok merged, s2)
        ∧ exampleSuggestions s' !! k
          = Some (ExampleSuggestion.mk
                    (ExampleSuggestion.igbo es) (ExampleSuggestion.english es)
                    associatedWords'
                    (ExampleSuggestion.originalExampleId es)
                    (ExampleSuggestion.authorId es)
                    (Some (id merged)) (Some (user_uid req)))
        ∧ ∃ ex, examples s' !! id merged = Some ex
                ∧ linkedTo (id w) (id (suggestionDoc req)) (Example.associatedWords ex).
Proof.
  intros Hrun Hne k es Hes Hin filtered associatedWords'.
  assert (Hcascaded : associatedWords'
                      = cascadeAssociatedWords (ExampleSuggestion.associatedWords es)
                          (id (suggestionDoc req)) (id w)).
  { destruct (cascadeAssociatedWords_cases (ExampleSuggestion.associatedWords es) _ _ Hne)
      as [Hthere Hnot].
    unfold associatedWords'. case_bool_decide as Hw.
    - by rewrite Hthere.
    - by rewrite Hnot. }
  split; [rewrite Hcascaded; by apply cascadeAssociatedWords_linkedTo|].
  apply mergeWord_Send_inv in Hrun
    as (ow & s1 & d & s2 & Hid & Hsugg & _ & Hcascade & Hmail & _).
  rewrite <- Hid in Hne. rewrite <- Hsugg in Hes.
  pose proof (updateSuggestionAfterMerge_nested _ _ _ _ _ _ Hcascade Hne k es Hes Hin)
    as Hnested.
  cbn zeta in Hnested. rewrite Hid in Hnested.
  destruct Hnested as (s3 & s4 & merged & Hsaved & Hmerge & Hstored & Hexample).
  assert (Hs : exampleSuggestions s' = exampleSuggestions s2).
  { apply (preserves_run exampleSuggestions) in Hmail; [done|].
    by apply handleSendingMergedEmail_preserves. }
  assert (Hx : examples s' = examples s2).
  { apply (preserves_run examples) in Hmail; [done|].
    by apply handleSendingMergedEmail_preserves. }
  exists s3, s4, merged. rewrite Hs, Hx, Hstored, Hsaved, Hcascaded. done.
Qed.

Lemma mergeWord_cascade_witness :
  let run :=
    mergeWord "https://app.example.org"
      (mkMergeWordRequest "U1" (mkDoc Sample.suggestionId false Sample.pendingEdit))
      (Sample.cascadeStore []) in
  ∃ (w : Doc Word.t) (merged : Doc Example.t),
    run.1 = Send (Some w)
    ∧ id w = Sample.wordId
    ∧ exampleSuggestions run.2 !! Sample.nestedId2
      = Some (ExampleSuggestion.mk "Nri di uto" "Food is sweet" [IdObj 3 Sample.wordId]
                None None (Some (id merged)) (Some "U1"))
    ∧ is_Some (examples run.2 !! id merged).
Proof.
  intros run.
  set (w := default (mkDoc "" false Sample.nri) (sentValue None run.1)).
  assert (Hrun : run = (Send (Some w), run.2)) by (vm_compute; reflexivity).
  assert (Hne : id (suggestionDoc
                   (mkMergeWordRequest "U1"
                      (mkDoc Sample.suggestionId false Sample.pendingEdit))) ≠ id w)
    by (vm_compute; discriminate).
  assert (Hes : exampleSuggestions (Sample.cascadeStore []) !! Sample.nestedId2
                = Some Sample.nested2) by (vm_compute; reflexivity).
  assert (Hin : Sample.suggestionId
                ∈ toString <$> ExampleSuggestion.associatedWords Sample.nested2)
    by (apply (bool_decide_unpack _); vm_compute; exact I).
  destruct (mergeWord_cascade _ _ _ _ _ Hrun Hne _ _ Hes Hin)
    as (_ & s1 & s2 & merged & _ & _ & Hstored & ex & Hex & _).
  exists w, merged. split; [exact (f_equal fst Hrun)|]. split; [vm_compute; reflexivity|].
  split; [|by rewrite Hex].
  rewrite Hstored. vm_compute. reflexivity.
Defined.

(** ** The relinker on the store *)

Section Written.
Context {A : Type}.
Implicit Types (m : gmap string A) (l : list (Doc A)).



End Written.







(** C10: the duplicate check of [executeMergeExample] is [_.uniq], which
    compares the entries themselves.  There is an Example Suggestion whose
    associated words hold two different values with the same string form
    and on which [executeMergeExample] resolves, with a canonical Example
    that holds both; the relinker, which compares string forms, keeps one
    of the two. *)
Theorem executeMergeExample_uniq_by_value :
  ∃ (s : Store) (k : string) (es : ExampleSuggestion.t) (a b : IdValue)
    (merged : Doc Example.t) (s' : Store),
    exampleSuggestions s !! k = Some es
    ∧ ExampleSuggestion.associatedWords es = [a; b]
    ∧ a ≠ b
    ∧ toString a = toString b
    ∧ executeMergeExample k "U1" s = (Ok merged, s')
    ∧ examples s' !! id merged = Some (Example.mk (ExampleSuggestion.igbo es)
                                         (ExampleSuggestion.english es) [a; b])
    ∧ uniqBy [a; b] toString = [a]
    ∧ relinkAssociatedWords [a; b] (IdStr Sample.otherWordId) a = [a].
Proof.
  exists (Sample.storeWith Sample.twoObjects), Sample.exampleSuggestionId,
    Sample.twoObjects, (IdObj 1 Sample.wordId), (IdObj 2 Sample.wordId).
  eexists _, _. split; [reflexivity|]. split; [reflexivity|].
  split; [discriminate|]. split; [reflexivity|].
  split; [vm_compute; reflexivity|].
  split; [vm_compute; reflexivity|]. split; reflexivity.
Qed.

(** ** How failures surface *)

Lemma createWordFromSuggestion_Err_inv (suggestionDoc : Doc WordSuggestion.t)
    (mergedBy : string) (s : Store) (e : Error) (s' : Store) :
  createWordFromSuggestion suggestionDoc mergedBy s = (Err e, s') →
  e = newError "An error occurred while saving the new word."
  ∧ ∃ cause, createWordFromSuggestion_then suggestionDoc mergedBy s = (Err cause, s').
Proof.
  unfold createWordFromSuggestion, catch.
  destruct (createWordFromSuggestion_then suggestionDoc mergedBy s) as [[w|cause] s1];
    [done|].
  intros [= <- <-]. split; [done|]. by exists cause.
Qed.

Lemma mergeIntoWord_Err_iff (suggestionDoc : Doc WordSuggestion.t) (mergedBy : string)
    (s : Store) (e : Error) (s' : Store) :
  mergeIntoWord suggestionDoc mergedBy s = (Err e, s')
  ↔ ∃ cause, mergeIntoWord_then suggestionDoc mergedBy s = (Err cause, s')
             ∧ e = newError (message cause).
Proof.
  unfold mergeIntoWord, catch.
  destruct (mergeIntoWord_then suggestionDoc mergedBy s) as [[w|cause] s1].
  - split; [done|]. by intros (? & ? & _).
  - cbv [throw]. split.
    + intros [= <- <-]. by exists cause.
    + by intros (? & [= <- <-] & ->).
Qed.

Lemma storeWrite_fault (s : Store) (cause : Error) (fs : list (option Error)) :
  faults s = Some cause :: fs → storeWrite s = (Err cause, set_faults fs s).
Proof. unfold storeWrite. by intros ->. Qed.

(** Where the error of a rejection comes from. *)
Lemma raisedByStore_later (s s1 : Store) (e : Error) :
  faults s1 `suffix_of` faults s → raisedByStore s1 e → raisedByStore s e.
Proof.
  intros [k Hk] [Hin|Hsave]; [left|by right].
  rewrite Hk. apply elem_of_app. by right.
Qed.

Section Raises.
Context (thrown : Error → Prop).

Lemma raises_ret {A} (a : A) : raises thrown (ret a).
Proof. intros s r s' [= <- <-]. by split. Qed.

Lemma raises_throw {A} (e : Error) : thrown e → raises thrown (@throw A e).
Proof. intros He s r s' [= <- <-]. split; [done|]. intros ? [= <-]. by right. Qed.

Lemma raises_reads {A} (c : M A) : (∀ s, ∃ a, c s = (Ok a, s)) → raises thrown c.
Proof.
  intros Hc s r s' Hrun. destruct (Hc s) as [a Ha]. rewrite Ha in Hrun.
  injection Hrun as <- <-. by split.
Qed.

Lemma raises_bind {A B} (c : M A) (k : A → M B) :
  raises thrown c → (∀ a, raises thrown (k a)) → raises thrown (bind c k).
Proof.
  intros Hc Hk s r s' Hrun. unfold bind in Hrun.
  destruct (c s) as [[a|e] s1] eqn:Hcs.
  - destruct (Hc _ _ _ Hcs) as [Hsuffix _]. destruct (Hk a _ _ _ Hrun) as [Hsuffix' Herr].
    split; [by etrans|]. intros e He. destruct (Herr e He) as [Hstore|Hthrown]; [|by right].
    left. by eapply raisedByStore_later.
  - injection Hrun as <- <-. destruct (Hc _ _ _ Hcs) as [Hsuffix Herr].
    split; [done|]. intros e' [= <-]. by apply Herr.
Qed.

Lemma raises_promiseAllMap {A B} (f : A → M B) (xs : list A) :
  (∀ x, raises thrown (f x)) → raises thrown (promiseAllMap f xs).
Proof.
  intros Hf. induction xs as [|x xs IH]; cbn [promiseAllMap].
  - apply raises_ret.
  - apply raises_bind; [apply Hf|]. intros y.
    apply raises_bind; [apply IH|]. intros ys. apply raises_ret.
Qed.

Lemma raises_storeWrite : raises thrown storeWrite.
Proof.
  intros s r s' Hrun. unfold storeWrite in Hrun.
  destruct (faults s) as [|[e|] fs] eqn:Hf; injection Hrun as <- <-; cbn.
  - by rewrite Hf.
  - split; [by apply suffix_cons_r|]. intros ? [= <-]. left. left.
    rewrite Hf. by left.
  - split; [by apply suffix_cons_r|]. done.
Qed.

Lemma raises_newObjectId : raises thrown newObjectId.
Proof. intros s r s' [= <- <-]. by split. Qed.

Section Writes.
Context {A : Type}.
Variable get : Store → gmap string A.
Variable set : (gmap string A → gmap string A) → Store → Store.
Hypothesis faults_set : ∀ f s, faults (set f s) = faults s.

Lemma raises_saveIn (d : Doc A) : raises thrown (saveIn get set d).
Proof.
  unfold saveIn. intros s r s' Hrun. unfold bind in Hrun.
  destruct (storeWrite s) as [[[]|e] s1] eqn:Hw.
  - destruct (raises_storeWrite _ _ _ Hw) as [Hsuffix _].
    destruct (isNew d), (get s1 !! id d); injection Hrun as <- <-;
      rewrite ?faults_set; (split; [done|]); try done;
      intros ? [= <-]; left; right; first [by left|by right].
  - injection Hrun as <- <-. destruct (raises_storeWrite _ _ _ Hw) as [Hsuffix Herr].
    split; [done|]. intros e' [= <-]. by apply Herr.
Qed.

Lemma raises_findOneAndUpdateIn (v : option IdValue) (update : A → A) :
  raises thrown (findOneAndUpdateIn get set v update).
Proof.
  unfold findOneAndUpdateIn. intros s r s' Hrun. unfold bind in Hrun.
  destruct (storeWrite s) as [[[]|e] s1] eqn:Hw.
  - destruct (raises_storeWrite _ _ _ Hw) as [Hsuffix _].
    destruct (v ≫= _) as [[key old]|]; injection Hrun as <- <-;
      rewrite ?faults_set; by split.
  - injection Hrun as <- <-. destruct (raises_storeWrite _ _ _ Hw) as [Hsuffix Herr].
    split; [done|]. intros e' [= <-]. by apply Herr.
Qed.
End Writes.

End Raises.

Lemma raises_weaken {A} (thrown thrown' : Error → Prop) (c : M A) :
  (∀ e, thrown e → thrown' e) → raises thrown c → raises thrown' c.
Proof.
  intros Hsub Hc s r s' Hrun. destruct (Hc _ _ _ Hrun) as [Hsuffix Herr].
  split; [done|]. intros e He. destruct (Herr e He); [by left|right; by apply Hsub].
Qed.

(** A [.catch] that throws one fixed error. *)
Lemma raises_catch_fixed {A} (thrown : Error → Prop) (c : M A) (e0 : Error) :
  raises (λ _, True) c → thrown e0 → raises thrown (catch c (λ _, throw e0)).
Proof.
  intros Hc He0 s r s' Hrun. unfold catch in Hrun.
  destruct (c s) as [[a|e] s1] eqn:Hcs; injection Hrun as <- <-;
    destruct (Hc _ _ _ Hcs) as [Hsuffix _]; (split; [done|]); [done|].
  intros ? [= <-]. by right.
Qed.

Ltac raises_step :=
  lazymatch goal with
  | |- raises _ (ret _) => apply raises_ret
  | |- raises _ (throw _) => apply raises_throw
  | |- raises _ (updateDocumentMerge _ _ _) =>
      unfold updateDocumentMerge;
      cbn [saveSuggestion ExampleSuggestion_Suggestion WordSuggestion_Suggestion];
      unfold ExampleSuggestion_save, WordSuggestion_save
  | |- raises _ (findByIdIn _ _) => apply raises_reads; intros; by eexists
  | |- raises _ (findIn _ _) => apply raises_reads; intros; by eexists
  | |- raises _ (findWordsWithMatch _ _) => apply raises_reads; intros; by eexists
  | |- raises _ newObjectId => apply raises_newObjectId
  | |- raises _ storeWrite => apply raises_storeWrite
  | |- raises _ (saveIn _ _ _) => apply raises_saveIn; done
  | |- raises _ (findOneAndUpdateIn _ _ _ _) => apply raises_findOneAndUpdateIn; done
  | |- raises _ (promiseAllMap _ _) => apply raises_promiseAllMap
  | |- raises _ (bind _ _) => apply raises_bind
  | |- raises _ (match ?x with _ => _ end) => destruct x
  | |- ∀ _, _ => intros
  end.

Lemma createExample_raises (thrown : Error → Prop) (data : Example.t) :
  raises thrown (createExample data).
Proof. unfold createExample, Example_save. repeat raises_step. Qed.

Lemma mergeIntoExample_raises (es : Doc ExampleSuggestion.t) (mergedBy : string) :
  raises (λ e, e = newError "Example doesn't exist") (mergeIntoExample es mergedBy).
Proof. unfold mergeIntoExample, Example_findOneAndUpdate. repeat raises_step; done. Qed.

Lemma createExampleFromSuggestion_raises (es : Doc ExampleSuggestion.t) (mergedBy : string) :
  raises (λ e, e = newError "An error occurred while saving the new example.")
    (createExampleFromSuggestion es mergedBy).
Proof.
  unfold createExampleFromSuggestion. apply raises_catch_fixed; [|done].
  repeat raises_step. apply createExample_raises.
Qed.

Lemma executeMergeExample_raises (k mergedBy : string) :
  raises thrownByExampleEngine (executeMergeExample k mergedBy).
Proof.
  unfold executeMergeExample, findExampleSuggestionById, wordMustExist, Word_findById.
  repeat raises_step;
    try (unfold thrownByExampleEngine, missingTextError, invalidIdError,
           unknownWordError, duplicatesError; set_solver).
  - eapply raises_weaken; [|apply mergeIntoExample_raises].
    intros ? ->. unfold thrownByExampleEngine. set_solver.
  - eapply raises_weaken; [|apply createExampleFromSuggestion_raises].
    intros ? ->. unfold thrownByExampleEngine. set_solver.
Qed.

Lemma updateSuggestionAfterMerge_raises (suggestionDoc : Doc WordSuggestion.t)
    (originalWordDoc : Doc Word.t) (mergedBy : string) :
  raises thrownByExampleEngine
    (updateSuggestionAfterMerge suggestionDoc originalWordDoc mergedBy).
Proof.
  unfold updateSuggestionAfterMerge, ExampleSuggestion_find, WordSuggestion_save,
    mergeNestedExample, ExampleSuggestion_save.
  repeat raises_step. apply executeMergeExample_raises.
Qed.

Lemma mergeIntoWord_then_raises (suggestionDoc : Doc WordSuggestion.t) (mergedBy : string) :
  raises (λ e, thrownByExampleEngine e ∨ e = newError "Word doesn't exist")
    (mergeIntoWord_then suggestionDoc mergedBy).
Proof.
  unfold mergeIntoWord_then, Word_findOneAndUpdate.
  repeat raises_step; try (by right).
  eapply raises_weaken; [|apply updateSuggestionAfterMerge_raises]. by left.
Qed.

(** C6: a failure inside a create branch surfaces as the fixed message of
    that branch, whatever its cause.  A failure inside [mergeIntoExample]
    surfaces as the error that was raised: the store's own error, or the
    error thrown for a missing Example.  A failure inside [mergeIntoWord]
    surfaces as a new [Error] that carries, unmodified, the message of the
    error that reached its [.catch]: the error the store raised, the
    error thrown for a missing Word, or an error of the Example Merge
    Engine run on a nested Example Suggestion, among them the fixed message
    of its create branch, which hides the cause it had.  A store write that
    fails with [cause] at the first write shows the difference.  (In the
    source both fixed messages end with a full stop.) *)
Theorem merge_failure_messages :
  (∀ es mergedBy s e s',
     createExampleFromSuggestion es mergedBy s = (Err e, s') →
     e = newError "An error occurred while saving the new example.")
  ∧ (∀ sd mergedBy s e s',
       createWordFromSuggestion sd mergedBy s = (Err e, s') →
       e = newError "An error occurred while saving the new word.")
  ∧ (∀ es mergedBy s e s',
       mergeIntoExample es mergedBy s = (Err e, s') →
       raisedByStore s e ∨ e = newError "Example doesn't exist")
  ∧ (∀ sd mergedBy s e s',
       mergeIntoWord sd mergedBy s = (Err e, s') →
       ∃ cause,
         e = newError (message cause)
         ∧ (raisedByStore s cause
            ∨ cause = newError "Word doesn't exist"
            ∨ thrownByExampleEngine cause))
  ∧ (∀ s cause fs,
       faults s = Some cause :: fs →
       (∀ es mergedBy,
          (createExampleFromSuggestion es mergedBy s).1
          = Err (newError "An error occurred while saving the new example."))
       ∧ (∀ sd mergedBy,
            (createWordFromSuggestion sd mergedBy s).1
            = Err (newError "An error occurred while saving the new word."))
       ∧ (∀ es mergedBy, mergeIntoExample es mergedBy s = (Err cause, set_faults fs s))
       ∧ (∀ sd mergedBy,
            mergeIntoWord sd mergedBy s
            = (Err (newError (message cause)), set_faults fs s))).
Proof.
  split; [|split; [|split; [|split]]].
  - intros es mergedBy s e s' Hrun.
    by apply createExampleFromSuggestion_Err_inv in Hrun as [? _].
  - intros sd mergedBy s e s' Hrun.
    by apply createWordFromSuggestion_Err_inv in Hrun as [? _].
  - intros es mergedBy s e s' Hrun.
    by apply mergeIntoExample_raises in Hrun as [_ Herr]; apply Herr.
  - intros sd mergedBy s e s' Hrun.
    apply mergeIntoWord_Err_iff in Hrun as (cause & Hthen & ->).
    exists cause. split; [done|].
    apply mergeIntoWord_then_raises in Hthen as [_ Herr].
    destruct (Herr cause eq_refl) as [?|[?|?]]; auto.
  - intros s cause fs Hf. repeat split.
    + intros es mergedBy.
      unfold createExampleFromSuggestion, catch, bind, createExample, Example_save, saveIn, bind.
      cbv [newObjectId]. erewrite storeWrite_fault; [done|]. exact Hf.
    + intros sd mergedBy.
      unfold createWordFromSuggestion, catch, createWordFromSuggestion_then, bind,
        createWord, Word_save, saveIn, bind.
      cbv [newObjectId]. erewrite storeWrite_fault; [done|]. exact Hf.
    + intros es mergedBy.
      unfold mergeIntoExample, bind, Example_findOneAndUpdate, findOneAndUpdateIn, bind.
      by rewrite (storeWrite_fault _ _ _ Hf).
    + intros sd mergedBy.
      unfold mergeIntoWord, catch, mergeIntoWord_then, bind, Word_findOneAndUpdate,
        findOneAndUpdateIn, bind.
      by rewrite (storeWrite_fault _ _ _ Hf).
Qed.

Lemma merge_failure_messages_witness :
  let s := Sample.singleNestedStore [None; None; Some Sample.connectionLost] in
  let run := mergeIntoWord (mkDoc Sample.suggestionId false Sample.pendingEdit) "U1" s in
  run.1 = Err (newError "connection lost")
  ∧ (∃ cause,
       newError "connection lost" = newError (message cause)
       ∧ (raisedByStore s cause
          ∨ cause = newError "Word doesn't exist"
          ∨ thrownByExampleEngine cause))
  ∧ (createWordFromSuggestion (mkDoc Sample.suggestionId false Sample.pendingEdit) "U1"
       (Sample.singleNestedStore [Some Sample.connectionLost])).1
    = Err (newError "An error occurred while saving the new word.").
Proof.
  intros s run.
  destruct merge_failure_messages as (_ & _ & _ & Horigin & Hfault).
  assert (Hrun : run = (Err (newError "connection lost"), run.2))
    by (vm_compute; reflexivity).
  split; [exact (f_equal fst Hrun)|]. split.
  - exact (Horigin _ _ _ _ _ Hrun).
  - destruct (Hfault (Sample.singleNestedStore [Some Sample.connectionLost])
                Sample.connectionLost [] eq_refl) as (_ & Hword & _ & _).
    apply Hword.
Defined.

(** The Word Suggestion is an edit of a stored Word and has one nested
    Example Suggestion; without a store fault [mergeIntoWord] resolves.  The
    store write that fails with "connection lost" is the fourth of
    [mergeIntoWord], the [save] of the Example that the nested Example
    Suggestion creates: the error that surfaces carries the fixed message
    of the create branch and not the message of the store's error. *)
Lemma mergeIntoWord_surfaces_generic_message :
  let suggestion := mkDoc Sample.suggestionId false Sample.pendingEdit in
  let run :=
    mergeIntoWord suggestion "U1"
      (Sample.singleNestedStore [None; None; None; Some Sample.connectionLost]) in
  (mergeIntoWord suggestion "U1" (Sample.singleNestedStore [])).1
  = Ok (Some (mkDoc Sample.wordId false
                (Word.mk "nri" "noun" (Some ["food"; "meal"]) None None []
                   (Some "author"))))
  ∧ run.1 = Err (newError "An error occurred while saving the new example.")
  ∧ message (newError "An error occurred while saving the new example.")
    ≠ message Sample.connectionLost.
Proof.
  split; [vm_compute; reflexivity|]. split; [vm_compute; reflexivity|discriminate].
Qed.

(** ** The notification *)


(** ** Which Word a merge writes *)

Lemma bind_preserves_snd {A B X} (p : Store → X) (c : M A) (k : A → M B) (s : Store) :
  (∀ a, preserves p (k a)) → p (bind c k s).2 = p (c s).2.
Proof.
  intros Hk. unfold bind. destruct (c s) as [[a|e] s1]; [|done]. apply Hk.
Qed.

Lemma catch_throw_snd {A} (c : M A) (f : Error → Error) (s : Store) :
  (catch c (λ e, throw (f e)) s).2 = (c s).2.
Proof. unfold catch. by destruct (c s) as [[a|e] s1]. Qed.

(** [createWord] writes at most one Word, under an [_id] no stored Word
    has. *)
Lemma createWord_words (data : WordData) (s : Store) (r : Result (Doc Word.t)) (s' : Store) :
  createWord data s = (r, s') →
  (words s' = words s ∧ ∀ w, r ≠ Ok w)
  ∨ ∃ k f, words s !! k = None ∧ words s' = <[k := f]> (words s)
           ∧ ∀ w, r = Ok w → w = mkDoc k false f.
Proof.
  unfold createWord. unfold bind at 1. cbv [newObjectId].
  set (k := objectIdOf (oidCounter s)). set (s0 := set_oidCounter _ s).
  set (wordData := Word.mk _ _ _ _ _ _ _).
  unfold bind at 1.
  destruct (Word_save (mkDoc k true wordData) s0) as [[newWord|e] s1] eqn:Hsave.
  2:{ intros [= <- <-]. left. apply saveIn_Err_inv in Hsave as (fs & ->). by split. }
  apply saveIn_Ok_inv in Hsave as (fs & -> & -> & Hfresh). cbn in Hfresh.
  cbn [id isNew fields].
  unfold bind at 1.
  destruct (promiseAllMap _ (d_examples data) _) as [[resolved|e] s2] eqn:Hexamples.
  2:{ intros [= <- <-]. right. exists k, wordData. split; [done|].
      apply (preserves_run words) in Hexamples.
      - by rewrite Hexamples.
      - apply preserves_promiseAllMap. intros ?. by apply createExample_preserves. }
  apply (preserves_run words) in Hexamples.
  2:{ apply preserves_promiseAllMap. intros ?. by apply createExample_preserves. }
  cbn in Hexamples. intros Hsave2. right. destruct r as [w|e].
  - apply saveIn_Ok_inv in Hsave2 as (fs2 & -> & -> & _). cbn.
    eexists k, _. split; [done|]. rewrite Hexamples, insert_insert_eq.
    split; [done|]. by intros ? [= <-].
  - apply saveIn_Err_inv in Hsave2 as (fs2 & ->). cbn.
    exists k, wordData. rewrite Hexamples. by split.
Qed.

Lemma mergeWord_words (url : string) (req : MergeWordRequest) (s : Store) :
  words (mergeWord url req s).2 = words (mergeWord_result req s).2
  ∧ ∀ w, (mergeWord url req s).1 = Send (Some w) →
         (mergeWord_result req s).1 = Ok (Some w).
Proof.
  unfold mergeWord, tryCatch, bind.
  destruct (mergeWord_result req s) as [[r|e] s1] eqn:Hrun; cbn; [|done].
  destruct (handleSendingMergedEmail url r s1) as [[u|e] s2] eqn:Hmail; cbn.
  - apply (preserves_run words) in Hmail;
      [|by apply handleSendingMergedEmail_preserves].
    split; [done|]. by intros w [= ->].
  - apply (preserves_run words) in Hmail;
      [|by apply handleSendingMergedEmail_preserves].
    done.
Qed.

Lemma truthy_Some (v : IdValue) : toString v ≠ "" → truthy (Some v) = true.
Proof. destruct v; cbn; [|done]. intros ?. by apply bool_decide_eq_true. Qed.

(** C5: with no [originalWordId], a [mergeWord] that sends a Word has
    inserted it under an [_id] that no stored Word had, and, whatever the
    outcome, every Word that was stored is still stored unchanged; with the
    [originalWordId] of a stored Word, a [mergeWord] that sends a Word has
    overwritten that Word with the suggestion, and, whatever the outcome,
    no other [_id] of the Words collection has changed. *)
Theorem mergeWord_create_or_update (url : string) (req : MergeWordRequest) (s : Store)
    (response : Response (option (Doc Word.t))) (s' : Store) :
  mergeWord url req s = (response, s') →
  let suggestion := fields (suggestionDoc req) in
  (WordSuggestion.originalWordId suggestion = None →
   (∀ k x, words s !! k = Some x → words s' !! k = Some x)
   ∧ ∀ w, response = Send (Some w) →
          words s !! id w = None ∧ words s' = <[id w := fields w]> (words s))
  ∧ (∀ v old,
       WordSuggestion.originalWordId suggestion = Some v →
       toString v ≠ "" →
       words s !! toString v = Some old →
       (∀ k, k ≠ toString v → words s' !! k = words s !! k)
       ∧ ∀ w, response = Send (Some w) →
              w = mkDoc (toString v) false (wordUpdate suggestion old)
              ∧ words s' = <[toString v := wordUpdate suggestion old]> (words s)).
Proof.
  intros Hrun suggestion. subst suggestion.
  destruct (mergeWord_words url req s) as [Hwords Hsent].
  rewrite Hrun in Hwords, Hsent. cbn [fst snd] in Hwords, Hsent.
  unfold mergeWord_result in Hwords, Hsent. cbn zeta in Hwords, Hsent.
  split.
  - intros Hnone. rewrite Hnone in Hwords, Hsent. cbn [truthy] in Hwords, Hsent.
    rewrite bind_preserves_snd in Hwords by (intros; apply preserves_ret).
    unfold createWordFromSuggestion in Hwords. rewrite catch_throw_snd in Hwords.
    unfold createWordFromSuggestion_then in Hwords.
    rewrite bind_preserves_snd in Hwords.
    2:{ intros a. frame. by apply updateSuggestionAfterMerge_preserves. }
    destruct (createWord (toWordData (fields (suggestionDoc req))) s)
      as [r1 s1] eqn:Hcreate.
    cbn [fst snd] in Hwords.
    pose proof (createWord_words _ _ _ _ Hcreate) as [[Hsame Hfail]|(k & f & Hk & Hins & Hok)].
    + split.
      * intros k x Hx. by rewrite Hwords, Hsame.
      * intros w ->. specialize (Hsent w eq_refl).
        unfold bind, createWordFromSuggestion, catch, createWordFromSuggestion_then, bind
          in Hsent.
        rewrite Hcreate in Hsent. destruct r1 as [w1|e1]; [by destruct (Hfail w1)|done].
    + split.
      * intros k' x Hx. rewrite Hwords, Hins.
        rewrite lookup_insert_ne; [done|]. intros ->. congruence.
      * intros w ->. specialize (Hsent w eq_refl).
        unfold bind, createWordFromSuggestion, catch, createWordFromSuggestion_then, bind
          in Hsent.
        rewrite Hcreate in Hsent. destruct r1 as [w1|e1]; [|done].
        destruct (updateSuggestionAfterMerge _ w1 _ s1) as [[d|e] s2]; [|done].
        cbn in Hsent. injection Hsent as ->.
        rewrite (Hok w eq_refl). cbn. by rewrite Hwords, Hins.
  - intros v old Hv Hne Hold. rewrite Hv in Hwords, Hsent.
    rewrite (truthy_Some v Hne) in Hwords, Hsent.
    unfold mergeIntoWord in Hwords. rewrite catch_throw_snd in Hwords.
    unfold mergeIntoWord_then in Hwords.
    rewrite bind_preserves_snd in Hwords.
    2:{ intros a. frame. by apply updateSuggestionAfterMerge_preserves. }
    rewrite Hv in Hwords.
    destruct (Word_findOneAndUpdate (Some v) (wordUpdate (fields (suggestionDoc req))) s)
      as [r1 s1] eqn:Hupd.
    cbn [fst snd] in Hwords. destruct r1 as [found|e].
    + apply findOneAndUpdateIn_Ok_inv in Hupd as Hupd'. destruct Hupd' as (fs & Hupd').
      destruct found as [ow|].
      * destruct Hupd' as ((v' & [= <-] & Hid) & Hlook & ->). cbn in Hlook, Hwords.
        rewrite Hid, Hold in Hlook. injection Hlook as Hfields.
        rewrite Hid, <- Hfields in Hwords. split.
        -- intros k Hk. rewrite Hwords. by rewrite lookup_insert_ne.
        -- intros w ->. specialize (Hsent w eq_refl). split; [|done].
           unfold mergeIntoWord, catch, mergeIntoWord_then, bind in Hsent.
           rewrite Hv, Hupd in Hsent.
           destruct (updateSuggestionAfterMerge _ ow _ _) as [[d|e] s2] eqn:Hcascade;
             [|done].
           apply (preserves_run words) in Hcascade;
             [|by apply updateSuggestionAfterMerge_preserves].
           cbn in Hsent, Hcascade. rewrite Hcascade, Hid, lookup_insert_eq in Hsent.
           cbn in Hsent. injection Hsent as <-. by rewrite <- Hfields.
      * destruct Hupd' as [-> Hmissing]. specialize (Hmissing v eq_refl).
        cbn in Hmissing. congruence.
    + pose proof Hupd as Hfail.
      apply findOneAndUpdateIn_Err_inv, storeWrite_inv in Hupd as (fs & ->).
      cbn in Hwords. split.
      * intros k _. by rewrite Hwords.
      * intros w ->. specialize (Hsent w eq_refl).
        unfold mergeIntoWord, catch, mergeIntoWord_then, bind in Hsent.
        rewrite Hv, Hfail in Hsent. done.
Qed.

Lemma mergeWord_create_or_update_witness :
  let create :=
    mergeWord "https://app.example.org"
      (mkMergeWordRequest "U1" (mkDoc Sample.suggestionId false Sample.newWordProposal))
      (Sample.cascadeStore []) in
  let update :=
    mergeWord "https://app.example.org"
      (mkMergeWordRequest "U1" (mkDoc Sample.suggestionId false Sample.pendingEdit))
      Sample.consolidationStore in
  (∃ w,
     create.1 = Send (Some w)
     ∧ words (Sample.cascadeStore []) !! id w = None
     ∧ words create.2 = <[id w := fields w]> (words (Sample.cascadeStore []))
     ∧ words create.2 !! Sample.wordId = Some Sample.nri)
  ∧ (∃ w,
       update.1 = Send (Some w)
       ∧ id w = Sample.wordId
       ∧ Word.definitions (fields w) = Some ["food"; "meal"]
       ∧ words update.2 !! Sample.otherWordId = Some Sample.nni
       ∧ size (words update.2) = 2).
Proof.
  intros create update. split.
  - set (w := default (mkDoc "" false Sample.nri) (sentValue None create.1)).
    assert (Hrun : create = (Send (Some w), create.2)) by (vm_compute; reflexivity).
    destruct (mergeWord_create_or_update _ _ _ _ _ Hrun) as [Hcreate _].
    destruct (Hcreate eq_refl) as [Hkept Hnew].
    destruct (Hnew w eq_refl) as [Hfresh Hwords].
    exists w. split; [exact (f_equal fst Hrun)|]. split; [exact Hfresh|].
    split; [exact Hwords|]. apply Hkept. vm_compute. reflexivity.
  - set (w := default (mkDoc "" false Sample.nri) (sentValue None update.1)).
    assert (Hrun : update = (Send (Some w), update.2)) by (vm_compute; reflexivity).
    destruct (mergeWord_create_or_update _ _ _ _ _ Hrun) as [_ Hupdate].
    assert (Hold : words Sample.consolidationStore !! toString (IdObj 7 Sample.wordId)
                   = Some Sample.nri) by (vm_compute; reflexivity).
    destruct (Hupdate (IdObj 7 Sample.wordId) Sample.nri eq_refl
                ltac:(vm_compute; discriminate) Hold) as [Hothers Hsent].
    destruct (Hsent w eq_refl) as [Hw Hwords].
    exists w. split; [exact (f_equal fst Hrun)|].
    split; [by rewrite Hw|]. split; [by rewrite Hw|]. split.
    + rewrite Hothers; [vm_compute; reflexivity|]. vm_compute. discriminate.
    + rewrite Hwords. vm_compute. reflexivity.
Defined.

(** ** Deleting a Word into another *)

Section WrittenLookup.
Context {A : Type}.

Lemma written_cons (d : Doc A) (docs : list (Doc A)) (m : gmap string A) :
  written (d :: docs) m = written docs (<[id d := fields d]> m).
Proof. done. Qed.

Lemma written_lookup_other (docs : list (Doc A)) (m : gmap string A) (k : string) :
  k ∉ id <$> docs → written docs m !! k = m !! k.
Proof.
  revert m. induction docs as [|d docs IH]; intros m Hk; [done|].
  rewrite fmap_cons, not_elem_of_cons in Hk. destruct Hk as [Hd Hk].
  rewrite written_cons, (IH _ Hk). by rewrite lookup_insert_ne.
Qed.

Lemma written_lookup (docs : list (Doc A)) (m : gmap string A) (d : Doc A) :
  NoDup (id <$> docs) → d ∈ docs → written docs m !! id d = Some (fields d).
Proof.
  revert m. induction docs as [|d0 docs IH]; intros m Hnd Hd.
  - by apply elem_of_nil in Hd.
  - rewrite fmap_cons in Hnd. apply NoDup_cons in Hnd as [Hfresh Hnd].
    apply elem_of_cons in Hd as [->|Hd]; rewrite written_cons.
    + rewrite written_lookup_other by done. by rewrite lookup_insert_eq.
    + by apply IH.
Qed.
End WrittenLookup.

Lemma findAndUpdateWord_Ok_inv {A} (v : option IdValue) (cb : Doc Word.t → M A)
    (s : Store) (a : A) (s' : Store) :
  findAndUpdateWord v cb s = (Ok a, s') →
  ∃ p word, v = Some p ∧ isValid p = true ∧ words s !! toString p = Some word
            ∧ cb (mkDoc (toString p) false word) s = (Ok a, s').
Proof.
  unfold findAndUpdateWord. destruct v as [p|]; cbn [isValid_opt]; [|done].
  destruct (isValid p) eqn:Hvalid; cbn [negb]; [|done].
  unfold bind, Word_findById, findByIdIn.
  destruct (words s !! toString p) as [word|] eqn:Hword; cbn; [|done].
  intros Hcb. by exists p, word.
Qed.

Lemma relinked_ids (oldId newId : IdValue) (docs : list (Doc Example.t)) :
  id <$> (relinked oldId newId <$> docs) = id <$> docs.
Proof. rewrite <- list_fmap_compose. by apply list_fmap_ext. Qed.

(** C2: [deleteWord] hands the relinker the identifier of the request as
    it was written.  The id of a stored Word written with upper-case hex
    digits passes [isValid] and is the stored ObjectId once mongoose has
    cast it, which it does for the queries that find the Word, find its
    Examples and delete it.  The relinker compares the spelling of the
    request with the string forms of the stored entries: run on the
    Examples of that Word once the Word is deleted, it removes no entry,
    and every one of them still names the Word that is gone. *)
Theorem deleteWord_relinker_misses_other_spelling :
  let sent := IdStr Sample.otherWordIdUpper in
  let found :=
    okValue [] (findExampleByAssociatedWordId Sample.otherWordId
                  Sample.consolidationStore).1 in
  let deleted := (Word_deleteOne Sample.otherWordId Sample.consolidationStore).2 in
  let run :=
    replaceWordIdsFromExampleAssociatedWords found sent (IdStr Sample.wordId) deleted in
  isValid sent = true
  ∧ castObjectId sent = Some Sample.otherWordId
  ∧ words Sample.consolidationStore !! Sample.otherWordId = Some Sample.nni
  ∧ id <$> found = [Sample.exampleId; Sample.exampleId2]
  ∧ relinkAssociatedWords (Example.associatedWords Sample.example1) sent
      (IdStr Sample.wordId)
    = [IdObj 4 Sample.otherWordId; IdStr Sample.wordId]
  ∧ (∃ docs, run.1 = Ok docs)
  ∧ words run.2 !! Sample.otherWordId = None
  ∧ (Example.associatedWords <$> examples run.2 !! Sample.exampleId)
    = Some [IdObj 4 Sample.otherWordId; IdStr Sample.wordId]
  ∧ (Example.associatedWords <$> examples run.2 !! Sample.exampleId2)
    = Some [IdObj 5 Sample.otherWordId; IdObj 6 Sample.wordId]
  ∧ (∀ k ex, examples run.2 !! k = Some ex →
             Sample.otherWordId ∈ toString <$> Example.associatedWords ex).
Proof.
  intros sent found deleted run.
  repeat (split; [vm_compute; reflexivity|]).
  split; [eexists; vm_compute; reflexivity|].
  repeat (split; [vm_compute; reflexivity|]).
  intros k ex Hk.
  assert (Hrun : examples run.2
                 = {[ Sample.exampleId :=
                        Example.mk "Ana m eri nni" "I am eating food"
                          [IdObj 4 Sample.otherWordId; IdStr Sample.wordId];
                      Sample.exampleId2 :=
                        Example.mk "Nni di uto" "Food is sweet"
                          [IdObj 5 Sample.otherWordId; IdObj 6 Sample.wordId] ]})
    by (vm_compute; reflexivity).
  rewrite Hrun in Hk.
  apply lookup_insert_Some in Hk as [[_ <-]|[_ Hk]];
    [apply (bool_decide_unpack _); vm_compute; exact I|].
  apply lookup_singleton_Some in Hk as [_ <-].
  apply (bool_decide_unpack _). vm_compute. exact I.
Qed.


(** * Further properties *)

(** ** The relinker and the cascade on one array *)


(** X2: relinking leaves an array as it is when no two of its entries have
    the same string form, none has the string form of [oldId], and one has
    the string form of [newId]: an Example that already names the new Word
    and not the old one is not changed. *)
Theorem relinkAssociatedWords_unchanged (l : list IdValue) (oldId newId : IdValue) :
  NoDup (toString <$> l) →
  toString oldId ∉ toString <$> l →
  toString newId ∈ toString <$> l →
  relinkAssociatedWords l oldId newId = l.
Proof.
  intros Hnd Hold Hnew. unfold relinkAssociatedWords.
  rewrite filter_removeOccurrences, removeOccurrences_app.
  rewrite (removeOccurrences_fixed oldId l).
  2:{ intros v Hv Heq. apply Hold. rewrite <- Heq. by apply list_elem_of_fmap_2. }
  cbn [Spec.removeOccurrences].
  destruct (decide (toString newId = toString oldId)) as [Heq|Hne].
  - rewrite app_nil_r. by apply uniqBy_fixed.
  - unfold uniqBy. rewrite baseUniq_snoc_seen by (by right).
    by apply baseUniq_fixed; [|intros ? ? ?%elem_of_nil].
Qed.

Lemma relinkAssociatedWords_unchanged_witness :
  relinkAssociatedWords [IdObj 1 "w1"; IdStr "w2"] (IdStr "w0") (IdObj 9 "w2")
  = [IdObj 1 "w1"; IdStr "w2"].
Proof.
  apply relinkAssociatedWords_unchanged.
  - apply (bool_decide_unpack _). vm_compute. exact I.
  - apply (bool_decide_unpack _). vm_compute. exact I.
  - apply (bool_decide_unpack _). vm_compute. exact I.
Defined.

Lemma filter_filter_same {A} (f : A → bool) (l : list A) :
  List.filter f (List.filter f l) = List.filter f l.
Proof.
  induction l as [|x l IH]; [done|]. cbn. destruct (f x) eqn:Hx; [|done].
  cbn. by rewrite Hx, IH.
Qed.

Lemma filter_app_singleton {A} (f : A → bool) (l : list A) (x : A) :
  f x = true → List.filter f (l ++ [x]) = List.filter f l ++ [x].
Proof. intros Hx. rewrite List.filter_app. cbn. by rewrite Hx. Qed.

(** X3: the array that the cascade saves a nested Example Suggestion with,
    identifiers read by their string form: it names the canonical Word; an
    entry of it names the canonical Word or is an entry of the array it
    started from that does not name the Word Suggestion; every such entry
    is kept; it names no identifier twice when the array it started from
    named none twice; it is at most one entry longer; and, the two ids
    being different, it is what the cascade would compute again from it. *)
Theorem cascadeAssociatedWords_invariant (l : list IdValue)
    (suggestionId originalWordId : string) :
  originalWordId ∈ toString <$> cascadeAssociatedWords l suggestionId originalWordId
  ∧ (∀ v, v ∈ cascadeAssociatedWords l suggestionId originalWordId →
          toString v = originalWordId ∨ (v ∈ l ∧ toString v ≠ suggestionId))
  ∧ (∀ v, v ∈ l → toString v ≠ suggestionId →
          v ∈ cascadeAssociatedWords l suggestionId originalWordId)
  ∧ (NoDup (toString <$> l) →
     NoDup (toString <$> cascadeAssociatedWords l suggestionId originalWordId))
  ∧ (length (cascadeAssociatedWords l suggestionId originalWordId) ≤ S (length l))%nat
  ∧ (suggestionId ≠ originalWordId →
     cascadeAssociatedWords (cascadeAssociatedWords l suggestionId originalWordId)
       suggestionId originalWordId
     = cascadeAssociatedWords l suggestionId originalWordId).
Proof.
  unfold cascadeAssociatedWords, includes, filter_. cbn [toString].
  set (keep := λ associatedWord : IdValue,
         bool_decide (toString associatedWord ≠ suggestionId)).
  set (filtered := List.filter keep l).
  assert (Hfiltered : ∀ v, v ∈ filtered ↔ v ∈ l ∧ toString v ≠ suggestionId).
  { intros v. unfold filtered. rewrite !list_elem_of_In, filter_In.
    unfold keep. by rewrite bool_decide_eq_true. }
  assert (Hkeys : NoDup (toString <$> l) → NoDup (toString <$> filtered)).
  { intros Hnd. eapply sublist_NoDup; [exact Hnd|]. apply fmap_sublist, filter_sublist. }
  destruct (decide (originalWordId ∈ toString <$> filtered)) as [Hin|Hin].
  - rewrite bool_decide_eq_true_2 by done. cbn [negb].
    split; [done|]. split; [intros v Hv; right; by apply Hfiltered|].
    split; [intros v Hv Hne; by apply Hfiltered|].
    split; [done|].
    split; [etransitivity; [apply sublist_length, filter_sublist|lia]|].
    intros _. unfold filtered. rewrite filter_filter_same. fold filtered.
    by rewrite bool_decide_eq_true_2.
  - rewrite bool_decide_eq_false_2 by done. cbn [negb].
    split.
    { rewrite fmap_app. apply elem_of_app. right. by apply list_elem_of_singleton. }
    split.
    { intros v [Hv|Hv%list_elem_of_singleton]%elem_of_app; [right|left; by subst v].
      by apply Hfiltered. }
    split.
    { intros v Hv Hne. apply elem_of_app. left. by apply Hfiltered. }
    split.
    { intros Hnd. rewrite fmap_app. apply NoDup_app. split; [by apply Hkeys|].
      split; [|apply NoDup_singleton].
      intros k Hk ->%list_elem_of_singleton. by apply Hin. }
    split.
    { rewrite length_app. cbn.
      pose proof (sublist_length _ _ (filter_sublist keep l)) as Hlen.
      fold filtered in Hlen. lia. }
    intros Hne.
    assert (Hkeep : keep (IdStr originalWordId) = true).
    { unfold keep. apply bool_decide_eq_true. cbn. by intros ->. }
    rewrite filter_app_singleton by done. unfold filtered.
    rewrite filter_filter_same. fold filtered.
    rewrite bool_decide_eq_true_2; [done|].
    rewrite fmap_app. apply elem_of_app. right. by apply list_elem_of_singleton.
Qed.

Lemma cascadeAssociatedWords_invariant_witness :
  NoDup (toString <$> cascadeAssociatedWords [IdObj 0 "s1"; IdObj 1 "w2"] "s1" "w1")
  ∧ cascadeAssociatedWords (cascadeAssociatedWords [IdObj 0 "s1"; IdObj 1 "w2"] "s1" "w1")
      "s1" "w1"
    = cascadeAssociatedWords [IdObj 0 "s1"; IdObj 1 "w2"] "s1" "w1"
  ∧ cascadeAssociatedWords [IdObj 0 "s1"; IdObj 1 "w1"] "s1" "w1" = [IdObj 1 "w1"].
Proof.
  destruct (cascadeAssociatedWords_invariant [IdObj 0 "s1"; IdObj 1 "w2"] "s1" "w1")
    as (_ & _ & _ & Hnd & _ & Hagain).
  split; [|split].
  - apply Hnd. apply (bool_decide_unpack _). vm_compute. exact I.
  - apply Hagain. discriminate.
  - vm_compute. reflexivity.
Defined.

(** ** The unions of [deleteWord] *)

Lemma baseUniq_app_seen {A K} `{EqDecision K} (f : A → K) (seen : list K) (u b : list A) :
  (∀ x, x ∈ b → f x ∈ seen ∨ f x ∈ f <$> u) →
  baseUniq f seen (u ++ b) = baseUniq f seen u.
Proof.
  induction b as [|x b IH] using rev_ind; intros Hb; [by rewrite app_nil_r|].
  rewrite app_assoc, baseUniq_snoc_seen.
  - apply IH. intros y Hy. apply Hb, elem_of_app. by left.
  - destruct (Hb x) as [?|Hx]; [apply elem_of_app; right; by apply list_elem_of_singleton
                               |by left|right].
    rewrite fmap_app. apply elem_of_app. by left.
Qed.

Lemma uniqBy_absorbs {A K} `{EqDecision K} (f : A → K) (a b : list A) :
  uniqBy (uniqBy (a ++ b) f ++ b) f = uniqBy (a ++ b) f.
Proof.
  unfold uniqBy at 1. rewrite baseUniq_app_seen.
  - apply uniqBy_fixed, uniqBy_NoDup.
  - intros x Hx. right. apply uniqBy_keys. apply list_elem_of_fmap_2.
    apply elem_of_app. by right.
Qed.

Lemma elem_of_uniq_values (l : list string) (x : string) :
  x ∈ uniqBy l (λ value, value) ↔ x ∈ l.
Proof.
  pose proof (uniqBy_keys (λ value : string, value) l x) as Hkeys.
  by rewrite !list_fmap_id in Hkeys.
Qed.

Lemma uniq_values_NoDup (l : list string) : NoDup (uniqBy l (λ value, value)).
Proof.
  pose proof (uniqBy_NoDup (λ value : string, value) l) as Hnd.
  by rewrite list_fmap_id in Hnd.
Qed.

(** X4: the Word that [deleteWord] writes back has definitions, variations
    and stems without a repeated entry; they hold exactly the entries of
    the primary Word and of the deleted Word, the variations the deleted
    headword as well; its headword, word class and example references are
    the primary Word's; and combining the result with the same deleted Word
    once more changes nothing. *)
Theorem combineWords_union (combineWord : Doc Word.t) (deleted : Word.t) :
  let updatedWord := combineWords combineWord deleted in
  ∃ definitions variations stems,
    Word.definitions (fields updatedWord) = Some definitions
    ∧ Word.variations (fields updatedWord) = Some variations
    ∧ Word.stems (fields updatedWord) = Some stems
    ∧ NoDup definitions ∧ NoDup variations ∧ NoDup stems
    ∧ (∀ x, x ∈ definitions
            ↔ x ∈ default [] (Word.definitions (fields combineWord))
              ∨ x ∈ default [] (Word.definitions deleted))
    ∧ (∀ x, x ∈ variations
            ↔ x ∈ default [] (Word.variations (fields combineWord))
              ∨ x ∈ default [] (Word.variations deleted)
              ∨ x = Word.word deleted)
    ∧ (∀ x, x ∈ stems
            ↔ x ∈ default [] (Word.stems (fields combineWord))
              ∨ x ∈ default [] (Word.stems deleted))
    ∧ id updatedWord = id combineWord
    ∧ Word.word (fields updatedWord) = Word.word (fields combineWord)
    ∧ Word.wordClass (fields updatedWord) = Word.wordClass (fields combineWord)
    ∧ Word.examples (fields updatedWord) = Word.examples (fields combineWord)
    ∧ combineWords updatedWord deleted = updatedWord.
Proof.
  intros updatedWord. unfold updatedWord, combineWords. cbn.
  eexists _, _, _. split; [reflexivity|]. split; [reflexivity|]. split; [reflexivity|].
  split; [apply uniq_values_NoDup|]. split; [apply uniq_values_NoDup|].
  split; [apply uniq_values_NoDup|].
  split; [intros x; by rewrite elem_of_uniq_values, elem_of_app|].
  split.
  { intros x. rewrite elem_of_uniq_values, !elem_of_app, list_elem_of_singleton. done. }
  split; [intros x; by rewrite elem_of_uniq_values, elem_of_app|].
  split; [done|]. split; [done|]. split; [done|]. split; [done|].
  f_equal. f_equal; f_equal.
  - apply uniqBy_absorbs.
  - rewrite (app_assoc _ (default [] (Word.variations deleted)) [Word.word deleted]).
    rewrite <- (app_assoc _ _ [Word.word deleted]) at 1.
    rewrite !(app_assoc (default [] (Word.variations (fields combineWord)))).
    rewrite <- !app_assoc. 
    rewrite (app_assoc (default [] (Word.variations (fields combineWord)))).
    rewrite <- app_assoc.
    apply (uniqBy_absorbs (λ value : string, value)
             (default [] (Word.variations (fields combineWord)))
             (default [] (Word.variations deleted) ++ [Word.word deleted])).
  - apply uniqBy_absorbs.
Qed.

(** ** The guard of [findAndUpdateWord] *)

Lemma truthy_false_not_valid (v : option IdValue) : truthy v = false → isValid_opt v = false.
Proof.
  destruct v as [[text|]|]; cbn; [|done|done].
  intros Hempty%bool_decide_eq_false. destruct (decide (text = "")) as [->|]; [done|].
  by destruct Hempty.
Qed.

Section FindAndUpdateWord.
Context {A : Type} (cb : Doc Word.t → M A).

Lemma findAndUpdateWord_no_id (v : option IdValue) (s : Store) :
  truthy v = false →
  findAndUpdateWord v cb s = (Err (newError "No word id provided"), s).
Proof.
  intros Hfalsy. unfold findAndUpdateWord.
  by rewrite (truthy_false_not_valid v Hfalsy), Hfalsy.
Qed.

Lemma findAndUpdateWord_invalid (v : option IdValue) (s : Store) :
  truthy v = true → isValid_opt v = false →
  findAndUpdateWord v cb s = (Err (newError "Invalid word id provided"), s).
Proof. intros Htruthy Hinvalid. unfold findAndUpdateWord. by rewrite Hinvalid, Htruthy. Qed.

Lemma findAndUpdateWord_unknown (p : IdValue) (s : Store) :
  isValid p = true → words s !! toString p = None →
  findAndUpdateWord (Some p) cb s = (Err (newError "Word doesn't exist"), s).
Proof.
  intros Hvalid Hnone. unfold findAndUpdateWord. cbn [isValid_opt]. rewrite Hvalid.
  cbn [negb]. unfold bind, Word_findById, findByIdIn. by rewrite Hnone.
Qed.

Lemma findAndUpdateWord_found (p : IdValue) (word : Word.t) (s : Store) :
  isValid p = true → words s !! toString p = Some word →
  findAndUpdateWord (Some p) cb s = cb (mkDoc (toString p) false word) s.
Proof.
  intros Hvalid Hword. unfold findAndUpdateWord. cbn [isValid_opt]. rewrite Hvalid.
  cbn [negb]. unfold bind, Word_findById, findByIdIn. by rewrite Hword.
Qed.

End FindAndUpdateWord.

(** ** [deleteWord] *)

(** What [deleteWord] runs once it has found the Word that is to go. *)
Lemma deleteWord_found (req : DeleteWordRequest) (s : Store) (deleted : Word.t) :
  words s !! params_id req = Some deleted →
  ∃ docs,
    findExampleByAssociatedWordId (params_id req) s = (Ok docs, s)
    ∧ deleteWord req s
      = tryCatch
          (findAndUpdateWord (IdStr <$> body_primaryWordId req)
             (λ combineWord,
                let updatedWord := combineWords combineWord deleted in
                await _ ← Word_deleteOne (params_id req);
                await _ ← deleteWordSuggestionsByOriginalWordId (params_id req);
                await _ ← replaceWordIdsFromExampleAssociatedWords docs
                            (IdStr (params_id req))
                            (IdStr (default "" (body_primaryWordId req)));
                Word_save updatedWord)) s.
Proof.
  intros Hdeleted. eexists. split; [reflexivity|].
  unfold deleteWord, tryCatch. unfold bind at 1.
  unfold Word_findById at 1, findByIdIn. cbn [toString]. rewrite Hdeleted.
  cbn [fmap option_fmap option_map]. unfold bind at 1.
  unfold findExampleByAssociatedWordId at 1, Example_find, findIn. reflexivity.
Qed.

Lemma castObjectId_isValid (k : string) (hex : string) :
  castObjectId (IdStr k) = Some hex → isValid (IdStr k) = true.
Proof.
  unfold castObjectId, isValid.
  destruct ((String.length k =? 24)%nat && _); [intros _; apply orb_true_r|].
  by destruct (String.length k =? 12)%nat.
Qed.

(** X5: for an id of the request that is written as the store writes an
    ObjectId, 24 lower-case hex digits, [deleteWord] answers with an error
    and leaves the store exactly as it was when no stored Word has that id
    (the error is the TypeError of destructuring [null]) and, when that
    Word exists, when the primary id is missing or empty ("No word id
    provided"), is not a valid ObjectId ("Invalid word id provided"), or is
    written as the store writes an ObjectId and names no stored Word ("Word
    doesn't exist"). *)
Theorem deleteWord_rejects_before_writing (req : DeleteWordRequest) (s : Store) :
  let primaryWordId := IdStr <$> body_primaryWordId req in
  castObjectId (IdStr (params_id req)) = Some (params_id req) →
  (words s !! params_id req = None →
   ∃ e, deleteWord req s = (Next e, s) ∧ name e = "TypeError")
  ∧ (is_Some (words s !! params_id req) →
     (truthy primaryWordId = false →
      deleteWord req s = (Next (newError "No word id provided"), s))
     ∧ (truthy primaryWordId = true → isValid_opt primaryWordId = false →
        deleteWord req s = (Next (newError "Invalid word id provided"), s))
     ∧ (∀ p, body_primaryWordId req = Some p → castObjectId (IdStr p) = Some p →
             words s !! p = None →
             deleteWord req s = (Next (newError "Word doesn't exist"), s))).
Proof.
  intros primaryWordId _. split.
  - intros Hnone. unfold deleteWord, tryCatch. unfold bind at 1.
    unfold Word_findById at 1, findByIdIn. cbn [toString]. rewrite Hnone.
    by eexists.
  - intros [deleted Hdeleted].
    destruct (deleteWord_found req s deleted Hdeleted) as (docs & _ & ->).
    fold primaryWordId. unfold tryCatch. split; [|split].
    + intros Hfalsy. by rewrite findAndUpdateWord_no_id.
    + intros Htruthy Hinvalid. by rewrite findAndUpdateWord_invalid.
    + intros p Hp Hvalid%castObjectId_isValid Hnone. unfold primaryWordId. rewrite Hp.
      cbn [fmap option_fmap option_map].
      by rewrite findAndUpdateWord_unknown.
Qed.

Lemma deleteWord_rejects_before_writing_witness :
  let s := Sample.consolidationStore in
  (∃ e, deleteWord (mkDeleteWordRequest Sample.suggestionId (Some Sample.wordId)) s
        = (Next e, s) ∧ name e = "TypeError")
  ∧ deleteWord (mkDeleteWordRequest Sample.otherWordId None) s
    = (Next (newError "No word id provided"), s)
  ∧ deleteWord (mkDeleteWordRequest Sample.otherWordId (Some "nri")) s
    = (Next (newError "Invalid word id provided"), s)
  ∧ deleteWord (mkDeleteWordRequest Sample.otherWordId (Some Sample.suggestionId)) s
    = (Next (newError "Word doesn't exist"), s).
Proof.
  intros s. split; [|split; [|split]].
  - apply (deleteWord_rejects_before_writing
             (mkDeleteWordRequest Sample.suggestionId (Some Sample.wordId)) s).
    + vm_compute. reflexivity.
    + vm_compute. reflexivity.
  - apply (deleteWord_rejects_before_writing
             (mkDeleteWordRequest Sample.otherWordId None) s).
    + vm_compute. reflexivity.
    + vm_compute. eexists. reflexivity.
    + reflexivity.
  - apply (deleteWord_rejects_before_writing
             (mkDeleteWordRequest Sample.otherWordId (Some "nri")) s).
    + vm_compute. reflexivity.
    + vm_compute. eexists. reflexivity.
    + reflexivity.
    + reflexivity.
  - apply (deleteWord_rejects_before_writing
             (mkDeleteWordRequest Sample.otherWordId (Some Sample.suggestionId)) s
             ) with (p := Sample.suggestionId).
    + vm_compute. reflexivity.
    + vm_compute. eexists. reflexivity.
    + reflexivity.
    + vm_compute. reflexivity.
    + vm_compute. reflexivity.
Defined.

(** ** Relations between the store before and after *)

Lemma tryCatch_snd {A} (c : M A) (s : Store) : (tryCatch c s).2 = (c s).2.
Proof. unfold tryCatch. by destruct (c s) as [[a|e] s1]. Qed.

Section Respects.
Context (R : Store → Store → Prop) `{!Reflexive R, !Transitive R}.

Lemma respects_ret {A} (a : A) : respects R (ret a).
Proof. intros s. reflexivity. Qed.

Lemma respects_throw {A} (e : Error) : respects R (@throw A e).
Proof. intros s. reflexivity. Qed.

Lemma respects_reads {A} (c : M A) : (∀ s, (c s).2 = s) → respects R c.
Proof. intros Hc s. rewrite Hc. reflexivity. Qed.

Lemma respects_bind {A B} (c : M A) (k : A → M B) :
  respects R c → (∀ a, respects R (k a)) → respects R (bind c k).
Proof.
  intros Hc Hk s. unfold bind. specialize (Hc s).
  destruct (c s) as [[a|e] s1]; cbn in *; [|done].
  transitivity s1; [done|]. apply Hk.
Qed.

Lemma respects_catch {A} (c : M A) (handler : Error → M A) :
  respects R c → (∀ e, respects R (handler e)) → respects R (catch c handler).
Proof.
  intros Hc Hh s. unfold catch. specialize (Hc s).
  destruct (c s) as [[a|e] s1]; cbn in *; [done|].
  transitivity s1; [done|]. apply Hh.
Qed.

Lemma respects_detached {A} (c : M A) : respects R c → respects R (detached c).
Proof. intros Hc s. apply Hc. Qed.

Lemma respects_promiseAllMap {A B} (f : A → M B) (xs : list A) :
  (∀ x, x ∈ xs → respects R (f x)) → respects R (promiseAllMap f xs).
Proof.
  induction xs as [|x xs IH]; intros Hf; cbn [promiseAllMap].
  - apply respects_ret.
  - apply respects_bind; [apply Hf; by left|]. intros y.
    apply respects_bind; [apply IH; intros; apply Hf; by right|].
    intros ys. apply respects_ret.
Qed.

Lemma respects_tryCatch {A} (c : M A) (s : Store) : respects R c → R s (tryCatch c s).2.
Proof. intros Hc. rewrite tryCatch_snd. apply Hc. Qed.

Hypothesis R_faults : ∀ fs s, R s (set_faults fs s).

Lemma respects_storeWrite : respects R storeWrite.
Proof.
  intros s. destruct (storeWrite s) as [r s1] eqn:Hw.
  apply storeWrite_inv in Hw as [fs ->]. apply R_faults.
Qed.

Section Writes.
Context {A : Type}.
Variable get : Store → gmap string A.
Variable set : (gmap string A → gmap string A) → Store → Store.

Lemma respects_saveIn (d : Doc A) :
  (∀ s, (if isNew d then get s !! id d = None else is_Some (get s !! id d)) →
        R s (set (insert (id d) (fields d)) s)) →
  respects R (saveIn get set d).
Proof.
  intros Hset. unfold saveIn. apply respects_bind; [apply respects_storeWrite|].
  intros _ s. destruct (isNew d), (get s !! id d) eqn:Hd; cbn;
    try reflexivity; apply Hset; by rewrite Hd.
Qed.

Lemma respects_findOneAndUpdateIn (v : option IdValue) (update : A → A) :
  (∀ s w old, v = Some w → get s !! toString w = Some old →
              R s (set (insert (toString w) (update old)) s)) →
  respects R (findOneAndUpdateIn get set v update).
Proof.
  intros Hset. unfold findOneAndUpdateIn. apply respects_bind; [apply respects_storeWrite|].
  intros _ s. destruct v as [w|]; cbn; [|reflexivity].
  destruct (get s !! toString w) as [old|] eqn:Hold; cbn; [|reflexivity].
  by apply Hset.
Qed.

End Writes.

Lemma respects_newObjectId :
  (∀ n s, R s (set_oidCounter n s)) → respects R newObjectId.
Proof. intros Hset s. apply Hset. Qed.

End Respects.

(** ** Writes that meet no fault *)

Lemma storeWrite_no_faults (s : Store) : faults s = [] → storeWrite s = (Ok tt, s).
Proof. intros Hf. unfold storeWrite. by rewrite Hf. Qed.

Section NoFaults.
Context {A : Type}.
Variable get : Store → gmap string A.
Variable set : (gmap string A → gmap string A) → Store → Store.

Lemma saveIn_no_faults (d : Doc A) (s : Store) :
  faults s = [] →
  saveIn get set d s
  = match isNew d, get s !! id d with
    | true, Some _ => (Err duplicateKeyError, s)
    | true, None => (Ok (mkDoc (id d) false (fields d)), set (insert (id d) (fields d)) s)
    | false, Some _ => (Ok d, set (insert (id d) (fields d)) s)
    | false, None => (Err documentNotFoundError, s)
    end.
Proof.
  intros Hf. unfold saveIn.
  by rewrite (bind_Ok_step _ _ _ _ _ (storeWrite_no_faults s Hf)).
Qed.

Lemma deleteOneIn_no_faults (key : string) (s : Store) :
  faults s = [] → deleteOneIn set key s = (Ok tt, set (delete key) s).
Proof.
  intros Hf. unfold deleteOneIn.
  by rewrite (bind_Ok_step _ _ _ _ _ (storeWrite_no_faults s Hf)).
Qed.
End NoFaults.

Lemma replaceWordIds_no_faults (oldId newId : IdValue) (docs : list (Doc Example.t)) :
  ∀ s, faults s = [] →
       (∀ d, d ∈ docs → isNew d = false ∧ is_Some (examples s !! id d)) →
       ∃ s', replaceWordIdsFromExampleAssociatedWords docs oldId newId s
             = (Ok (relinked oldId newId <$> docs), s')
             ∧ faults s' = []
             ∧ examples s' = written (relinked oldId newId <$> docs) (examples s)
             ∧ words s' = words s.
Proof.
  unfold replaceWordIdsFromExampleAssociatedWords.
  induction docs as [|d docs IH]; intros s Hf Hstored.
  - exists s. by cbn.
  - destruct (Hstored d) as [Hnew [e He]]; [by left|].
    set (s1 := set_examples (insert (id d) (fields (relinked oldId newId d))) s).
    assert (Hd : relinkExample oldId newId d s = (Ok (relinked oldId newId d), s1)).
    { unfold relinkExample, Example_save. rewrite saveIn_no_faults by done.
      cbn [isNew id fields setExampleAssociatedWords]. rewrite Hnew, He.
      unfold s1, relinked. cbn [fields]. rewrite <- relinkAssociatedWords_relink.
      by rewrite <- Hnew. }
    destruct (IH s1) as (s' & Hrun & Hf' & Hexamples & Hwords); [done| |].
    { intros d' Hd'. destruct (Hstored d') as [Hnew' Hsome]; [by right|].
      split; [done|]. unfold s1. cbn.
      destruct (decide (id d = id d')) as [->|Hne].
      - rewrite lookup_insert_eq. by eexists.
      - by rewrite lookup_insert_ne. }
    exists s'. cbn [promiseAllMap].
    rewrite (bind_Ok_step _ _ _ _ _ Hd), (bind_Ok_step _ _ _ _ _ Hrun).
    split; [done|]. split; [done|]. split; [|done].
    rewrite Hexamples. rewrite fmap_cons, written_cons. done.
Qed.

(** The stored examples after the relinking of those that name a Word: each
    is relinked or is as it was. *)
Lemma relinked_examples_lookup (wordId : string) (newId : IdValue) (s : Store)
    (docs : list (Doc Example.t)) (k : string) :
  findExampleByAssociatedWordId wordId s = (Ok docs, s) →
  written (relinked (IdStr wordId) newId <$> docs) (examples s) !! k
  = (λ e, if holdsAssociatedWord wordId (Example.associatedWords e)
          then Example.mk (Example.igbo e) (Example.english e)
                 (relinkAssociatedWords (Example.associatedWords e) (IdStr wordId) newId)
          else e) <$> examples s !! k.
Proof.
  intros Hfound. pose proof (findIn_ids_NoDup _ _ _ _ _ Hfound) as Hnd.
  pose proof (λ d, elem_of_findIn _ _ _ _ _ d Hfound) as Hin.
  destruct (examples s !! k) as [e|] eqn:He; cbn [fmap option_fmap option_map].
  - destruct (holdsAssociatedWord wordId (Example.associatedWords e)) eqn:Hholds.
    + assert (Hd : mkDoc k false e ∈ docs) by (by apply Hin).
      rewrite (written_lookup _ _ (relinked (IdStr wordId) newId (mkDoc k false e))).
      * unfold relinked. cbn [fields]. by rewrite <- relinkAssociatedWords_relink.
      * by rewrite relinked_ids.
      * apply list_elem_of_fmap. by eexists.
    + rewrite written_lookup_other; [done|]. rewrite relinked_ids.
      intros (d & -> & Hd)%list_elem_of_fmap. apply Hin in Hd as (_ & Hget & Hq).
      rewrite Hget in He. injection He as <-. by rewrite Hq in Hholds.
  - rewrite written_lookup_other; [done|]. rewrite relinked_ids.
    intros (d & -> & Hd)%list_elem_of_fmap. apply Hin in Hd as (_ & Hget & _).
    by rewrite Hget in He.
Qed.

(** X6: when the request names the same stored Word as the one to delete
    and as the primary one, and no write meets a store fault, [deleteWord]
    answers with an error, the rejection of the last save, and by then the
    Word is deleted, no stored Example names it any more, and the Examples
    that did not name it are as they were. *)
Theorem deleteWord_same_word_twice (wordId : string) (s : Store) (word : Word.t) :
  words s !! wordId = Some word →
  isValid (IdStr wordId) = true →
  faults s = [] →
  let run := deleteWord (mkDeleteWordRequest wordId (Some wordId)) s in
  (∃ e, run.1 = Next e)
  ∧ words run.2 = delete wordId (words s)
  ∧ (∀ k e, examples run.2 !! k = Some e →
            wordId ∉ toString <$> Example.associatedWords e)
  ∧ (∀ k e, examples s !! k = Some e →
            wordId ∉ toString <$> Example.associatedWords e →
            examples run.2 !! k = Some e).
Proof.
  intros Hword Hvalid Hf run.
  destruct (deleteWord_found (mkDeleteWordRequest wordId (Some wordId)) s word Hword)
    as (docs & Hfound & Hrun).
  cbn [params_id body_primaryWordId fmap option_fmap option_map default from_option
       Datatypes.id] in Hfound, Hrun.
  unfold tryCatch in Hrun.
  rewrite (findAndUpdateWord_found _ (IdStr wordId) word) in Hrun by done.
  cbn beta zeta iota delta [toString] in Hrun.
  set (s1 := set_words (delete wordId) s).
  assert (Hdel : Word_deleteOne wordId s = (Ok tt, s1))
    by (by apply deleteOneIn_no_faults).
  set (s2 := set_wordSuggestions
               (filter (λ kv, (toString <$> WordSuggestion.originalWordId kv.2)
                              ≠ Some wordId)) s1).
  assert (Hsugg : deleteWordSuggestionsByOriginalWordId wordId s1 = (Ok tt, s2)).
  { unfold deleteWordSuggestionsByOriginalWordId.
    by rewrite (bind_Ok_step _ _ _ _ _ (storeWrite_no_faults s1 Hf)). }
  destruct (replaceWordIds_no_faults (IdStr wordId) (IdStr wordId) docs s2)
    as (s3 & Hrelink & Hf3 & Hexamples & Hwords); [done| |].
  { intros d Hd. apply (elem_of_findIn _ _ _ _ _ _ Hfound) in Hd as (Hnew & Hget & _).
    split; [done|]. by eexists. }
  assert (Hsave :
    Word_save (combineWords (mkDoc wordId false word) word) s3
    = (Err documentNotFoundError, s3)).
  { unfold Word_save. rewrite saveIn_no_faults by done.
    cbn [isNew id combineWords]. rewrite Hwords. cbn [words s2 s1 set_wordSuggestions set_words].
    by rewrite lookup_delete_eq. }
  rewrite (bind_Ok_step _ _ _ _ _ Hdel), (bind_Ok_step _ _ _ _ _ Hsugg),
    (bind_Ok_step _ _ _ _ _ Hrelink), Hsave in Hrun.
  unfold run. rewrite Hrun. cbn [fst snd].
  split; [by eexists|]. split; [by rewrite Hwords|].
  assert (Hlookup := λ k, relinked_examples_lookup wordId (IdStr wordId) s docs k Hfound).
  change (examples s2) with (examples s) in Hexamples. rewrite Hexamples.
  split.
  - intros k e. rewrite Hlookup. destruct (examples s !! k) as [e0|]; [|done].
    cbn [fmap option_fmap option_map]. intros [= <-].
    destruct (holdsAssociatedWord wordId (Example.associatedWords e0)) eqn:Hholds.
    + cbn [Example.associatedWords]. rewrite relink_keys. cbn [toString]. tauto.
    + by apply bool_decide_eq_false in Hholds.
  - intros k e He Hnot. rewrite Hlookup, He. cbn [fmap option_fmap option_map].
    unfold holdsAssociatedWord. by rewrite bool_decide_eq_false_2.
Qed.

Lemma deleteWord_same_word_twice_witness :
  let run :=
    deleteWord (mkDeleteWordRequest Sample.otherWordId (Some Sample.otherWordId))
      Sample.consolidationStore in
  (∃ e, run.1 = Next e)
  ∧ words run.2 !! Sample.otherWordId = None
  ∧ (Example.associatedWords <$> examples run.2 !! Sample.exampleId) = Some []
  ∧ (Example.associatedWords <$> examples run.2 !! Sample.exampleId2)
    = Some [IdObj 6 Sample.wordId].
Proof.
  intros run.
  destruct (deleteWord_same_word_twice Sample.otherWordId Sample.consolidationStore
              Sample.nni)
    as (Hresponse & Hwords & Hnone & Hkept); [reflexivity..|].
  split; [exact Hresponse|]. fold run in Hwords.
  split; [rewrite Hwords; apply lookup_delete_eq|].
  split; vm_compute; reflexivity.
Defined.


(** ** [createExample] and [createWord] *)

Lemma findExampleById_stored (k : string) (e : Example.t) (s : Store) :
  examples s !! k = Some e →
  findExampleById k s = (Ok (Some (mkDoc k false e)), s).
Proof.
  intros Hstored. unfold findExampleById, findByIdIn. cbn [toString]. by rewrite Hstored.
Qed.

(** X8: [createExample] never overwrites: every stored Example is kept as
    it is and the other collections are untouched, whatever the outcome.
    When it resolves, the document it resolves with went under an [_id] no
    stored Example had, carries the data as given, and is what
    [findExampleById] finds under that [_id] afterwards; when it rejects,
    the stored Examples are as they were. *)
Theorem createExample_inserts (data : Example.t) (s : Store) :
  let run := createExample data s in
  (∀ k e, examples s !! k = Some e → examples run.2 !! k = Some e)
  ∧ words run.2 = words s
  ∧ exampleSuggestions run.2 = exampleSuggestions s
  ∧ wordSuggestions run.2 = wordSuggestions s
  ∧ match run.1 with
    | Ok d =>
        examples s !! id d = None
        ∧ examples run.2 = <[id d := data]> (examples s)
        ∧ fields d = data
        ∧ findExampleById (id d) run.2 = (Ok (Some d), run.2)
    | Err _ => examples run.2 = examples s
    end.
Proof.
  intros run.
  assert (Hwords : words run.2 = words s) by (by apply createExample_preserves).
  assert (Hes : exampleSuggestions run.2 = exampleSuggestions s)
    by (by apply createExample_preserves).
  assert (Hws : wordSuggestions run.2 = wordSuggestions s)
    by (by apply createExample_preserves).
  destruct run as [[d|e] s'] eqn:Hrun; cbn [fst snd] in *.
  - apply createExample_Ok_inv in Hrun as (-> & Hfresh & Hexamples).
    cbn [id fields] in *.
    split.
    { intros k e He. rewrite Hexamples, lookup_insert_ne; [done|]. intros <-. congruence. }
    split; [done|]. split; [done|]. split; [done|]. split; [done|].
    split; [done|]. split; [done|].
    apply findExampleById_stored. rewrite Hexamples. apply lookup_insert_eq.
  - apply createExample_Err_inv in Hrun. by rewrite Hrun.
Qed.

(** The Examples that a [Promise.all] of [createExample] has created by the
    time it settles. *)
Lemma createExamples_Ok_inv (g : ExampleData → Example.t) :
  ∀ xs s ys s',
    promiseAllMap (λ example, createExample (g example)) xs s = (Ok ys, s') →
    Forall2 (λ example d, fields d = g example) xs ys
    ∧ NoDup (id <$> ys)
    ∧ (∀ d, d ∈ ys → examples s !! id d = None)
    ∧ examples s' = written ys (examples s).
Proof.
  apply (promiseAllMap_Ok_ind (λ example, createExample (g example))).
  - intros s. split; [constructor|]. split; [constructor|]. split; [|done].
    intros d Hd. by apply elem_of_nil in Hd.
  - intros x xs s y s1 ys s' Hx Hxs (Hfields & Hnd & Hfresh & Hexamples).
    apply createExample_Ok_inv in Hx as (-> & Hy & Hexamples1). cbn [id fields] in *.
    set (k := objectIdOf (oidCounter s)) in *.
    assert (Hk : k ∉ id <$> ys).
    { intros (d & Hid & Hd)%list_elem_of_fmap. specialize (Hfresh d Hd).
      rewrite Hexamples1, <- Hid, lookup_insert_eq in Hfresh. done. }
    split; [by constructor|]. split; [rewrite fmap_cons; by constructor|].
    split.
    + intros d [->|Hd]%elem_of_cons; [done|]. specialize (Hfresh d Hd).
      rewrite Hexamples1 in Hfresh. apply lookup_insert_None in Hfresh. tauto.
    + rewrite written_cons. cbn [id fields]. by rewrite <- Hexamples1.
Qed.

Lemma createExamples_inv (g : ExampleData → Example.t) (xs : list ExampleData) (s : Store)
    (r : Result (list (Doc Example.t))) (s' : Store) :
  promiseAllMap (λ example, createExample (g example)) xs s = (r, s') →
  ∃ ys, Forall (λ d, ∃ example, example ∈ xs ∧ fields d = g example) ys
        ∧ NoDup (id <$> ys)
        ∧ (∀ d, d ∈ ys → examples s !! id d = None)
        ∧ examples s' = written ys (examples s)
        ∧ words s' = words s.
Proof.
  intros Hrun.
  assert (Hwords : words s' = words s).
  { apply (preserves_run words) in Hrun; [done|].
    apply preserves_promiseAllMap. intros ?. by apply createExample_preserves. }
  assert (Hforall : ∀ (l : list ExampleData) ys,
            Forall2 (λ example d, fields d = g example) l ys →
            Forall (λ d, ∃ example, example ∈ l ∧ fields d = g example) ys).
  { intros l ys Hall. induction Hall as [|x y l ys Hxy Hall IH]; constructor.
    - exists x. split; [by left|done].
    - eapply Forall_impl; [exact IH|]. intros d (example & ? & ?).
      exists example. split; [by right|done]. }
  destruct r as [ys|e].
  - apply createExamples_Ok_inv in Hrun as (Hfields & Hnd & Hfresh & Hexamples).
    exists ys. split; [by apply Hforall|]. done.
  - apply promiseAllMap_Err_inv in Hrun as (done & x & rest & ys & s1 & -> & Hdone & Hfail).
    apply createExamples_Ok_inv in Hdone as (Hfields & Hnd & Hfresh & Hexamples).
    apply createExample_Err_inv in Hfail.
    exists ys. split.
    { eapply Forall_impl; [by apply Hforall|]. intros d (example & ? & ?).
      exists example. split; [|done]. apply elem_of_app. by left. }
    split; [done|]. split; [done|]. split; [congruence|done].
Qed.

(** X9: a [createWord] that resolves has stored the Word it resolves with
    under an [_id] no stored Word had, and has created one Example for
    every embedded example, in their order, each under an [_id] no stored
    Example had, with the texts of the embedded example and the new Word as
    its only associated word; the Word's example references are the ids of
    these Examples, and every other stored Example is as it was. *)
Theorem createWord_creates (data : WordData) (s : Store) (w : Doc Word.t) (s' : Store) :
  createWord data s = (Ok w, s') →
  ∃ created,
    Forall2 (λ example d,
               fields d = Example.mk (data_igbo example) (data_english example)
                            [IdStr (id w)])
      (d_examples data) created
    ∧ NoDup (id <$> created)
    ∧ fields w = Word.mk (d_word data) (d_wordClass data) (d_definitions data)
                   (d_variations data) (d_stems data) (id <$> created) None
    ∧ words s !! id w = None
    ∧ words s' = <[id w := fields w]> (words s)
    ∧ (∀ d, d ∈ created →
            examples s !! id d = None ∧ examples s' !! id d = Some (fields d))
    ∧ (∀ k, k ∉ id <$> created → examples s' !! k = examples s !! k).
Proof.
  unfold createWord. intros (k & s0 & Hk & Hrun)%bind_Ok_inv.
  cbv [newObjectId] in Hk. injection Hk as <- <-.
  set (k := objectIdOf (oidCounter s)) in *.
  apply bind_Ok_inv in Hrun as (newWord & s1 & Hsave & Hrun).
  apply saveIn_Ok_inv in Hsave as (fs & -> & -> & Hfresh).
  cbn [id isNew fields] in Hfresh, Hrun.
  apply bind_Ok_inv in Hrun as (created & s2 & Hcreated & Hsave).
  pose proof Hcreated as Hwords. apply (preserves_run words) in Hwords;
    [|apply preserves_promiseAllMap; intros ?; by apply createExample_preserves].
  cbn in Hwords.
  apply createExamples_Ok_inv in Hcreated as (Hfields & Hnd & Hnone & Hexamples).
  apply saveIn_Ok_inv in Hsave as (fs2 & -> & -> & _).
  cbn [id fields setExamples Word.word Word.wordClass Word.definitions Word.variations
       Word.stems Word.authorId] in *.
  exists created. split; [done|]. split; [done|]. split; [done|]. split; [done|].
  split; [cbn; by rewrite Hwords, insert_insert_eq|].
  split.
  - intros d Hd. split; [by apply Hnone|]. cbn. rewrite Hexamples.
    by apply written_lookup.
  - intros j Hj. cbn. rewrite Hexamples. by apply written_lookup_other.
Qed.

Lemma createWord_creates_witness :
  let run := createWord (toWordData Sample.nriProposal) Sample.proposalStore in
  ∃ (w : Doc Word.t) (d : Doc Example.t),
    run.1 = Ok w
    ∧ Word.examples (fields w) = [id d]
    ∧ examples run.2 !! id d
      = Some (Example.mk "Ana m eri nri" "I am eating food" [IdStr (id w)]).
Proof.
  intros run.
  set (w := okValue (mkDoc "" false Sample.nri) run.1).
  assert (Hrun : run = (Ok w, run.2)) by (vm_compute; reflexivity).
  destruct (createWord_creates _ _ _ _ Hrun)
    as (created & Hfields & Hnd & Hw & Hfresh & Hwords & Hcreated & Hothers).
  set (d := mkDoc (objectIdOf 1) false
              (Example.mk "Ana m eri nri" "I am eating food" [IdStr (id w)])).
  exists w, d. split; [exact (f_equal fst Hrun)|].
  split; vm_compute; reflexivity.
Defined.

(** X10: a [createWord] that rejects does not clean up after itself.
    Every stored Example is kept as it is; the Words are as they were, or
    the new Word stays stored under an [_id] no stored Word had, with the
    data as given and no example references, and every Example created on
    the way stays stored with that Word as its only associated word. *)
Theorem createWord_rejects_without_cleanup (data : WordData) (s : Store) (e : Error)
    (s' : Store) :
  createWord data s = (Err e, s') →
  (∀ k x, examples s !! k = Some x → examples s' !! k = Some x)
  ∧ ((words s' = words s ∧ examples s' = examples s)
     ∨ ∃ k, words s !! k = None
            ∧ words s' = <[k := Word.mk (d_word data) (d_wordClass data)
                                   (d_definitions data) (d_variations data)
                                   (d_stems data) [] None]> (words s)
            ∧ ∀ j x, examples s' !! j = Some x → examples s !! j = None →
                     Example.associatedWords x = [IdStr k]).
Proof.
  unfold createWord. intros Hrun.
  apply bind_Err_inv in Hrun as [Hk|(k & s0 & Hk & Hrun)]; [done|].
  cbv [newObjectId] in Hk. injection Hk as <- <-.
  set (k := objectIdOf (oidCounter s)) in *.
  apply bind_Err_inv in Hrun as [Hsave|(newWord & s1 & Hsave & Hrun)].
  { apply saveIn_Err_inv in Hsave as (fs & ->). split; [done|]. by left. }
  apply saveIn_Ok_inv in Hsave as (fs & -> & -> & Hfresh).
  cbn [id isNew fields] in Hfresh, Hrun.
  assert (∃ r s2,
    promiseAllMap
      (λ example, createExample
         (Example.mk (data_igbo example) (data_english example) [IdStr k]))
      (d_examples data)
      (set_words <[k := Word.mk (d_word data) (d_wordClass data) (d_definitions data)
                          (d_variations data) (d_stems data) [] None]>
         (set_faults fs (set_oidCounter (S (oidCounter s)) s))) = (r, s2)
    ∧ words s' = words s2 ∧ examples s' = examples s2)
    as (r & s2 & Hcreated & Hwords' & Hexamples').
  { apply bind_Err_inv in Hrun as [Hcreated|(created & s2 & Hcreated & Hsave)].
    - by eexists _, _.
    - apply saveIn_Err_inv in Hsave as (fs2 & ->). by eexists _, _. }
  apply createExamples_inv in Hcreated as (ys & Hfields & Hnd & Hnone & Hexamples & Hwords).
  cbn in Hnone, Hexamples, Hwords.
  rewrite Hexamples', Hexamples, Hwords', Hwords.
  assert (Hother : ∀ j, j ∉ id <$> ys → written ys (examples s) !! j = examples s !! j)
    by (intros; by apply written_lookup_other).
  split.
  - intros j x Hj. rewrite Hother; [done|].
    intros (d & -> & Hd)%list_elem_of_fmap. specialize (Hnone d Hd). congruence.
  - right. exists k. split; [done|]. split; [done|].
    intros j x Hj Hnew. destruct (decide (j ∈ id <$> ys)) as [Hin|Hout].
    + apply list_elem_of_fmap in Hin as (d & -> & Hd).
      rewrite (written_lookup ys) in Hj by done. injection Hj as <-.
      rewrite Forall_forall in Hfields.
      destruct (Hfields d Hd) as (example & _ & ->). done.
    + rewrite Hother in Hj by done. congruence.
Qed.

Lemma createWord_rejects_without_cleanup_witness :
  let s := Sample.cascadeStore [None; None; Some Sample.connectionLost] in
  let run := createWord (toWordData Sample.nriProposal) s in
  run.1 = Err Sample.connectionLost
  ∧ (Word.examples <$> words run.2 !! objectIdOf 0) = Some []
  ∧ (Example.associatedWords <$> examples run.2 !! objectIdOf 1)
    = Some [IdStr (objectIdOf 0)].
Proof.
  intros s run.
  assert (Hrun : run = (Err Sample.connectionLost, run.2)) by (vm_compute; reflexivity).
  destruct (createWord_rejects_without_cleanup _ _ _ _ Hrun) as [Hkept Hleft].
  split; [exact (f_equal fst Hrun)|]. split; vm_compute; reflexivity.
Defined.

(** ** [executeMergeExample] *)

(** X11: an [executeMergeExample] that resolves has stored the
    suggestion's texts and associated words under the [_id] of the document
    it resolves with, every associated word naming a stored Word, and has
    left the Words and the Word Suggestions as they were.  With a truthy
    [originalExampleId] that [_id] is the original Example's and the answer
    carries the Example as it was stored before the update; otherwise no
    stored Example had that [_id] and the answer carries the suggestion's
    fields. *)
Theorem executeMergeExample_resolves (exampleSuggestionId mergedBy : string) (s : Store)
    (d : Doc Example.t) (s' : Store) :
  executeMergeExample exampleSuggestionId mergedBy s = (Ok d, s') →
  ∃ es,
    exampleSuggestions s !! exampleSuggestionId = Some es
    ∧ examples s' = <[id d := exampleFields es]> (examples s)
    ∧ (if truthy (ExampleSuggestion.originalExampleId es)
       then (∃ v, ExampleSuggestion.originalExampleId es = Some v ∧ id d = toString v)
            ∧ examples s !! id d = Some (fields d)
       else examples s !! id d = None ∧ fields d = exampleFields es)
    ∧ (∀ v, v ∈ ExampleSuggestion.associatedWords es → is_Some (words s' !! toString v))
    ∧ words s' = words s
    ∧ wordSuggestions s' = wordSuggestions s.
Proof.
  intros Hrun.
  assert (Hwords : words s' = words s).
  { apply (preserves_run words) in Hrun; [done|]. by apply executeMergeExample_preserves. }
  assert (Hws : wordSuggestions s' = wordSuggestions s).
  { apply (preserves_run wordSuggestions) in Hrun; [done|].
    by apply executeMergeExample_preserves. }
  pose proof Hrun as Hinv.
  apply executeMergeExample_Ok_inv in Hinv as (es & Hes & Hexamples & _ & _ & Hknown & _).
  exists es. split; [done|]. split; [done|].
  rewrite (executeMergeExample_run _ _ _ _ Hes) in Hrun.
  repeat (destruct (decide _); [done|]).
  split; [|split; [|done]].
  - destruct (truthy _).
    + apply mergeIntoExample_Ok_inv in Hrun as (Hv & Hold & _). done.
    + apply createExampleFromSuggestion_Ok_inv in Hrun as (s1 & fs & Hrun & _).
      apply createExample_Ok_inv in Hrun as (-> & Hfresh & _). done.
  - intros v Hv. rewrite Hwords.
    destruct (words s !! toString v) eqn:Hstored; [by eexists|].
    destruct Hknown. apply Exists_exists. by exists v.
Qed.

Lemma executeMergeExample_resolves_witness :
  let edit :=
    ExampleSuggestion.mk "Ana m eri nri" "I am eating food" [IdStr Sample.wordId]
      (Some (IdStr Sample.exampleId)) None None None in
  let s :=
    mkStore {[ Sample.wordId := Sample.nri ]} {[ Sample.exampleId := Sample.example1 ]}
      {[ Sample.exampleSuggestionId := edit ]} ∅ ∅ 0 [] true [] in
  let run := executeMergeExample Sample.exampleSuggestionId "merger" s in
  run.1 = Ok (mkDoc Sample.exampleId false Sample.example1)
  ∧ examples run.2 !! Sample.exampleId = Some (exampleFields edit).
Proof.
  intros edit s run.
  set (d := mkDoc Sample.exampleId false Sample.example1).
  assert (Hrun : run = (Ok d, run.2)) by (vm_compute; reflexivity).
  destruct (executeMergeExample_resolves _ _ _ _ _ Hrun)
    as (es & Hes & Hexamples & Hbranch & Hknown & Hwords & Hws).
  split; [exact (f_equal fst Hrun)|]. vm_compute. reflexivity.
Defined.

(** X12: [executeMergeExample] rejects, with the four collections as they
    were, an id under which no Example Suggestion is stored ("There is no
    associated example suggestion, double check your provided data") and,
    when the write reaches the store, a suggestion that passes the
    validation and whose truthy [originalExampleId] names no stored Example
    ("Example doesn't exist"). *)
Theorem executeMergeExample_rejects_missing (exampleSuggestionId mergedBy : string)
    (s : Store) :
  (exampleSuggestions s !! exampleSuggestionId = None →
   executeMergeExample exampleSuggestionId mergedBy s
   = (Err (newError
        "There is no associated example suggestion, double check your provided data"), s))
  ∧ (∀ es v s1,
       exampleSuggestions s !! exampleSuggestionId = Some es →
       ¬ missingText es → ¬ hasInvalidId es → ¬ hasUnknownWord s es →
       ¬ hasRepeatedId es →
       ExampleSuggestion.originalExampleId es = Some v → truthy (Some v) = true →
       examples s !! toString v = None →
       storeWrite s = (Ok tt, s1) →
       executeMergeExample exampleSuggestionId mergedBy s
       = (Err (newError "Example doesn't exist"), s1)
       ∧ sameCollections s s1).
Proof.
  split.
  - intros Hnone. unfold executeMergeExample, bind.
    by rewrite findExampleSuggestionById_run, Hnone.
  - intros es v s1 Hes Htext Hvalid Hknown Hnd Hv Htruthy Hexample Hwrite.
    rewrite (executeMergeExample_run _ _ _ _ Hes).
    rewrite !decide_False by done. rewrite Hv, Htruthy.
    unfold mergeIntoExample, Example_findOneAndUpdate, findOneAndUpdateIn.
    cbn [fields]. rewrite Hv.
    pose proof Hwrite as (fs & Hs1)%storeWrite_inv.
    unfold bind. rewrite Hwrite. subst s1. cbn. rewrite Hexample. done.
Qed.

Lemma executeMergeExample_rejects_missing_witness :
  let edit :=
    ExampleSuggestion.mk "Ana m eri nri" "I am eating food" [IdStr Sample.wordId]
      (Some (IdStr Sample.exampleId)) None None None in
  let s := Sample.storeWith edit in
  executeMergeExample Sample.exampleId "merger" s
  = (Err (newError
       "There is no associated example suggestion, double check your provided data"), s)
  ∧ executeMergeExample Sample.exampleSuggestionId "merger" s
    = (Err (newError "Example doesn't exist"), s).
Proof.
  intros edit s. split.
  - apply (executeMergeExample_rejects_missing Sample.exampleId "merger" s).
    vm_compute. reflexivity.
  - apply (executeMergeExample_rejects_missing Sample.exampleSuggestionId "merger" s)
      with (es := edit) (v := IdStr Sample.exampleId).
    + vm_compute. reflexivity.
    + intros [Higbo _]. discriminate Higbo.
    + apply (bool_decide_unpack (¬ hasInvalidId edit)). vm_compute. reflexivity.
    + apply (bool_decide_unpack (¬ hasUnknownWord s edit)). vm_compute. reflexivity.
    + apply (bool_decide_unpack (¬ hasRepeatedId edit)). vm_compute. reflexivity.
    + reflexivity.
    + reflexivity.
    + vm_compute. reflexivity.
    + reflexivity.
Defined.

(** X13: [executeMergeExample] does not look at the merge stamp.  Run a
    second time on an Example Suggestion without a truthy
    [originalExampleId] that it has merged already, it creates, when it
    resolves, a second Example with the same fields under another [_id],
    and both stay stored. *)
Theorem executeMergeExample_creates_again (exampleSuggestionId mergedBy mergedBy2 : string)
    (s : Store) (es : ExampleSuggestion.t) (d : Doc Example.t) (s1 : Store)
    (d2 : Doc Example.t) (s2 : Store) :
  exampleSuggestions s !! exampleSuggestionId = Some es →
  truthy (ExampleSuggestion.originalExampleId es) = false →
  executeMergeExample exampleSuggestionId mergedBy s = (Ok d, s1) →
  executeMergeExample exampleSuggestionId mergedBy2 s1 = (Ok d2, s2) →
  id d2 ≠ id d
  ∧ fields d2 = fields d
  ∧ examples s2 !! id d = Some (fields d)
  ∧ examples s2 !! id d2 = Some (fields d).
Proof.
  intros Hes Hcreate Hfirst Hsecond.
  assert (Hes1 : exampleSuggestions s1 !! exampleSuggestionId
                 = Some (setMerge (id d) mergedBy es)).
  { pose proof Hfirst as (es0 & Hes0 & _ & _ & _ & _ & _ & ->)%executeMergeExample_Ok_inv.
    rewrite Hes in Hes0. injection Hes0 as <-. apply lookup_insert_eq. }
  rewrite (executeMergeExample_run _ _ _ _ Hes) in Hfirst.
  rewrite (executeMergeExample_run _ _ _ _ Hes1) in Hsecond.
  repeat (destruct (decide _); [done|]).
  repeat (destruct (decide _); [done|]).
  cbn [setMerge ExampleSuggestion_Suggestion ExampleSuggestion.originalExampleId] in Hsecond.
  rewrite Hcreate in Hfirst, Hsecond.
  apply createExampleFromSuggestion_Ok_inv in Hfirst as (s0 & fs & Hfirst & Hs1).
  apply createExample_Ok_inv in Hfirst as (Hd & _ & Hexamples0).
  assert (Hexamples1 : examples s1 = <[id d := exampleFields es]> (examples s))
    by (by subst s1).
  apply createExampleFromSuggestion_Ok_inv in Hsecond as (s3 & fs2 & Hsecond & Hs2).
  apply createExample_Ok_inv in Hsecond as (Hd2 & Hfresh & Hexamples3).
  assert (Hexamples2 : examples s2 = <[id d2 := exampleFields es]> (examples s1))
    by (by subst s2).
  cbn [fields] in *. clear Hs1 Hs2.
  assert (Hne : id d2 ≠ id d).
  { intros Heq. rewrite Heq, Hexamples1, lookup_insert_eq in Hfresh. done. }
  split; [done|]. split; [by rewrite Hd, Hd2|].
  assert (Hfields : fields d = exampleFields es) by (by rewrite Hd).
  rewrite Hexamples2, Hexamples1, Hfields. split.
  - rewrite lookup_insert_ne by done. apply lookup_insert_eq.
  - apply lookup_insert_eq.
Qed.

Lemma executeMergeExample_creates_again_witness :
  let proposal :=
    ExampleSuggestion.mk "Ana m eri nri" "I am eating food" [IdStr Sample.wordId]
      None None None None in
  let s := Sample.storeWith proposal in
  let first := executeMergeExample Sample.exampleSuggestionId "merger" s in
  let second := executeMergeExample Sample.exampleSuggestionId "merger" first.2 in
  examples second.2 !! objectIdOf 0 = Some (exampleFields proposal)
  ∧ examples second.2 !! objectIdOf 1 = Some (exampleFields proposal).
Proof.
  intros proposal s first second.
  set (d := mkDoc (objectIdOf 0) false (exampleFields proposal)).
  set (d2 := mkDoc (objectIdOf 1) false (exampleFields proposal)).
  assert (Hfirst : first = (Ok d, first.2)) by (vm_compute; reflexivity).
  assert (Hsecond : second = (Ok d2, second.2)) by (vm_compute; reflexivity).
  destruct (executeMergeExample_creates_again Sample.exampleSuggestionId "merger" "merger"
              s proposal d first.2 d2 second.2)
    as (Hne & Hfields & Hstored & Hstored2);
    [vm_compute; reflexivity|reflexivity|exact Hfirst|exact Hsecond|].
  split; [exact Hstored|exact Hstored2].
Defined.

(** ** [mergeWord] *)

(** X14: when the truthy [originalWordId] of the Word Suggestion names no
    stored Word and the write reaches the store, [mergeWord] answers with
    the error "Word doesn't exist", and the four collections are as they
    were. *)
Theorem mergeWord_unknown_original (url : string) (req : MergeWordRequest) (s : Store)
    (v : IdValue) (s1 : Store) :
  WordSuggestion.originalWordId (fields (suggestionDoc req)) = Some v →
  truthy (Some v) = true →
  words s !! toString v = None →
  storeWrite s = (Ok tt, s1) →
  mergeWord url req s = (Next (newError "Word doesn't exist"), s1)
  ∧ sameCollections s s1.
Proof.
  intros Hv Htruthy Hnone Hwrite.
  pose proof Hwrite as (fs & Hs1)%storeWrite_inv.
  unfold mergeWord, tryCatch, mergeWord_result. rewrite Hv, Htruthy.
  unfold mergeIntoWord, mergeIntoWord_then, Word_findOneAndUpdate, findOneAndUpdateIn.
  rewrite Hv. unfold bind, catch. rewrite Hwrite. subst s1. cbn. rewrite Hnone. done.
Qed.

Lemma mergeWord_unknown_original_witness :
  let s :=
    mkStore ∅ ∅ ∅ {[ Sample.suggestionId := Sample.pendingEdit ]} ∅ 0 [] true [] in
  mergeWord "https://example.org"
    (mkMergeWordRequest "merger" (mkDoc Sample.suggestionId false Sample.pendingEdit)) s
  = (Next (newError "Word doesn't exist"), s).
Proof.
  intros s.
  apply (mergeWord_unknown_original "https://example.org"
           (mkMergeWordRequest "merger" (mkDoc Sample.suggestionId false Sample.pendingEdit))
           s (IdObj 7 Sample.wordId) s); reflexivity.
Defined.

#[local] Instance nothingDeleted_reflexive : Reflexive nothingDeleted.
Proof. by intros s. Qed.

#[local] Instance nothingDeleted_transitive : Transitive nothingDeleted.
Proof.
  intros s0 s1 s2 (Hw1 & He1 & Hes1 & Hws1) (Hw2 & He2 & Hes2 & Hws2).
  repeat split; by etrans.
Qed.

Lemma findUser_reads (uid : string) (s : Store) : (findUser uid s).2 = s.
Proof. unfold findUser. by destruct (users s !! uid) as [[address|e]|]. Qed.

(** Splits a [respects] goal along the structure of the controller; [tac]
    closes what is asked of the relation at a write. *)
Ltac respect_step tac :=
  lazymatch goal with
  | |- Reflexive _ => first [assumption | exact _]
  | |- Transitive _ => first [assumption | exact _]
  | |- respects _ (ret _) => apply respects_ret
  | |- respects _ (throw _) => apply respects_throw
  | |- respects _ (updateDocumentMerge _ _ _) =>
      unfold updateDocumentMerge;
      cbn [saveSuggestion ExampleSuggestion_Suggestion WordSuggestion_Suggestion];
      unfold ExampleSuggestion_save, WordSuggestion_save
  | |- respects _ (findByIdIn _ _) => apply respects_reads
  | |- respects _ (findIn _ _) => apply respects_reads
  | |- respects _ (findWordsWithMatch _ _) => apply respects_reads
  | |- respects _ (findUser _) => apply respects_reads
  | |- respects _ newObjectId => apply respects_newObjectId
  | |- respects _ (saveIn _ _ _) => apply respects_saveIn
  | |- respects _ (findOneAndUpdateIn _ _ _ _) => apply respects_findOneAndUpdateIn
  | |- respects _ (promiseAllMap _ _) => apply respects_promiseAllMap
  | |- respects _ (detached _) => apply respects_detached
  | |- respects _ (catch _ _) => apply respects_catch
  | |- respects _ (bind _ _) => apply respects_bind
  | |- respects _ (match ?x with _ => _ end) => destruct x
  | |- ∀ _, _ => intros
  | |- (findUser _ _).2 = _ => apply findUser_reads
  | |- _ = _ => reflexivity
  | |- _ => tac
  end.

Lemma nothingDeleted_words (s : Store) (k : string) (w : Word.t) :
  nothingDeleted s (set_words (insert k w) s).
Proof. repeat split; try done. cbn. apply dom_insert_subseteq. Qed.

Lemma nothingDeleted_examples (s : Store) (k : string) (e : Example.t) :
  nothingDeleted s (set_examples (insert k e) s).
Proof. repeat split; try done. cbn. apply dom_insert_subseteq. Qed.

Lemma nothingDeleted_exampleSuggestions (s : Store) (k : string) (es : ExampleSuggestion.t) :
  nothingDeleted s (set_exampleSuggestions (insert k es) s).
Proof. repeat split; try done. cbn. apply dom_insert_subseteq. Qed.

Lemma nothingDeleted_wordSuggestions (s : Store) (k : string) (ws : WordSuggestion.t) :
  nothingDeleted s (set_wordSuggestions (insert k ws) s).
Proof. repeat split; try done. cbn. apply dom_insert_subseteq. Qed.

Ltac nothing_deleted :=
  solve [ first [ apply nothingDeleted_words | apply nothingDeleted_examples
                | apply nothingDeleted_exampleSuggestions
                | apply nothingDeleted_wordSuggestions | done ] ].

Lemma executeMergeExample_nothingDeleted (exampleSuggestionId mergedBy : string) :
  respects nothingDeleted (executeMergeExample exampleSuggestionId mergedBy).
Proof.
  unfold executeMergeExample, findExampleSuggestionById, wordMustExist, mergeIntoExample,
    createExampleFromSuggestion, createExample, Example_findOneAndUpdate, Example_save,
    Word_findById.
  repeat respect_step nothing_deleted.
Qed.

Lemma updateSuggestionAfterMerge_nothingDeleted (suggestionDoc : Doc WordSuggestion.t)
    (originalWordDoc : Doc Word.t) (mergedBy : string) :
  respects nothingDeleted (updateSuggestionAfterMerge suggestionDoc originalWordDoc mergedBy).
Proof.
  unfold updateSuggestionAfterMerge, ExampleSuggestion_find, WordSuggestion_save,
    mergeNestedExample, ExampleSuggestion_save.
  repeat first [ apply executeMergeExample_nothingDeleted | respect_step nothing_deleted ].
Qed.

Lemma sendMergedEmail_nothingDeleted (mail : MergedEmail) :
  respects nothingDeleted (sendMergedEmail mail).
Proof. intros s. unfold sendMergedEmail. by destruct (mailerUp s). Qed.

(** X15: whatever [mergeWord] answers, it has deleted nothing: every [_id]
    under which a Word, an Example, an Example Suggestion or a Word
    Suggestion was stored still has a document. *)
Theorem mergeWord_never_deletes (url : string) (req : MergeWordRequest) (s : Store) :
  nothingDeleted s (mergeWord url req s).2.
Proof.
  apply (respects_tryCatch nothingDeleted).
  unfold mergeWord_result, mergeIntoWord, mergeIntoWord_then, createWordFromSuggestion,
    createWordFromSuggestion_then, createWord, createExample, Word_findOneAndUpdate,
    Word_save, Example_save, handleSendingMergedEmail.
  repeat first
    [ apply updateSuggestionAfterMerge_nothingDeleted
    | apply sendMergedEmail_nothingDeleted
    | respect_step nothing_deleted ].
Qed.

(** X16: the create branch of [mergeWord] does not undo the creation of
    the Word.  When [createWord] has resolved and the cascade or the save
    of the stamped Word Suggestion then rejects, [mergeWord] answers with
    the error "An error occurred while saving the new word." and the new
    Word stays stored, under an [_id] no stored Word had. *)
Theorem mergeWord_create_keeps_word (url : string) (req : MergeWordRequest) (s : Store)
    (w : Doc Word.t) (s1 : Store) (e : Error) (s2 : Store) :
  truthy (WordSuggestion.originalWordId (fields (suggestionDoc req))) = false →
  createWord (toWordData (fields (suggestionDoc req))) s = (Ok w, s1) →
  updateSuggestionAfterMerge (suggestionDoc req) w (user_uid req) s1 = (Err e, s2) →
  mergeWord url req s
  = (Next (newError "An error occurred while saving the new word."), s2)
  ∧ words s !! id w = None
  ∧ words s2 !! id w = Some (fields w).
Proof.
  intros Hfalsy Hcreate Hcascade. split.
  - unfold mergeWord, tryCatch, mergeWord_result. rewrite Hfalsy.
    unfold createWordFromSuggestion, createWordFromSuggestion_then, catch, bind.
    by rewrite Hcreate, Hcascade.
  - apply (preserves_run words) in Hcascade;
      [|by apply updateSuggestionAfterMerge_preserves].
    rewrite Hcascade.
    apply createWord_words in Hcreate as [[_ Hno]|(k & f & Hfresh & Hwords & Hw)].
    + by destruct (Hno w).
    + rewrite (Hw w eq_refl), Hwords. cbn [id fields]. split; [done|].
      apply lookup_insert_eq.
Qed.

Lemma mergeWord_create_keeps_word_witness :
  let s :=
    set_faults [None; None; None; Some Sample.connectionLost] Sample.proposalStore in
  let run :=
    mergeWord "https://example.org"
      (mkMergeWordRequest "merger" (mkDoc Sample.suggestionId false Sample.nriProposal)) s in
  run.1 = Next (newError "An error occurred while saving the new word.")
  ∧ (Word.word <$> words run.2 !! objectIdOf 0) = Some "nri"
  ∧ wordSuggestions run.2 !! Sample.suggestionId = Some Sample.nriProposal.
Proof.
  intros s run.
  set (req := mkMergeWordRequest "merger" (mkDoc Sample.suggestionId false Sample.nriProposal)).
  set (created := createWord (toWordData Sample.nriProposal) s).
  set (w := okValue (mkDoc "" false Sample.nri) created.1).
  assert (Hcreate : created = (Ok w, created.2)) by (vm_compute; reflexivity).
  set (cascade := updateSuggestionAfterMerge (suggestionDoc req) w "merger" created.2).
  assert (Hcascade : cascade = (Err Sample.connectionLost, cascade.2))
    by (vm_compute; reflexivity).
  destruct (mergeWord_create_keeps_word "https://example.org" req s w created.2
              Sample.connectionLost cascade.2)
    as (Hrun & Hfresh & Hstored); [reflexivity|exact Hcreate|exact Hcascade|].
  split; [exact (f_equal fst Hrun)|]. split; vm_compute; reflexivity.
Defined.

#[local] Instance keepsOtherSuggestions_reflexive (suggestionId : string) :
  Reflexive (keepsOtherSuggestions suggestionId).
Proof. by intros s. Qed.

#[local] Instance keepsOtherSuggestions_transitive (suggestionId : string) :
  Transitive (keepsOtherSuggestions suggestionId).
Proof.
  intros s0 s1 s2 [Hkeep1 Hdom1] [Hkeep2 Hdom2]. split; [|congruence].
  intros k es Hes Hnot. apply Hkeep2; [|done]. by apply Hkeep1.
Qed.

Lemma keepsOtherSuggestions_same (suggestionId : string) (s s' : Store) :
  exampleSuggestions s' = exampleSuggestions s → keepsOtherSuggestions suggestionId s s'.
Proof. intros Hsame. unfold keepsOtherSuggestions. by rewrite Hsame. Qed.

Lemma keepsOtherSuggestions_preserves {A} (suggestionId : string) (c : M A) :
  preserves exampleSuggestions c → respects (keepsOtherSuggestions suggestionId) c.
Proof. intros Hc s. apply keepsOtherSuggestions_same, Hc. Qed.

Lemma updateSuggestionAfterMerge_keepsOtherSuggestions (suggestionDoc : Doc WordSuggestion.t)
    (originalWordDoc : Doc Word.t) (mergedBy : string) :
  respects (keepsOtherSuggestions (id suggestionDoc))
    (updateSuggestionAfterMerge suggestionDoc originalWordDoc mergedBy).
Proof.
  intros s0. unfold updateSuggestionAfterMerge. unfold bind at 1.
  destruct (updateDocumentMerge suggestionDoc _ mergedBy s0) as [[stamped|e0] s] eqn:Hstamp.
  2:{ apply keepsOtherSuggestions_same.
      by apply stampWordSuggestion_Err_inv in Hstamp as (fs & ->). }
  transitivity s.
  { apply keepsOtherSuggestions_same.
    by apply stampWordSuggestion_Ok_inv in Hstamp as (fs & -> & _). }
  clear Hstamp s0. unfold bind at 1.
  destruct (ExampleSuggestion_find _ s) as [r s0] eqn:Hfound.
  assert (∃ found, r = Ok found ∧ s0 = s) as (found & -> & ->).
  { injection Hfound as <- <-. by eexists. }
  pose proof (λ d, elem_of_findIn _ _ _ _ _ d Hfound) as Hin.
  set (R := λ s0 s1 : Store,
    (∀ k, k ∉ id <$> found → exampleSuggestions s1 !! k = exampleSuggestions s0 !! k)
    ∧ dom (exampleSuggestions s1) = dom (exampleSuggestions s0)).
  assert (HRrefl : Reflexive R) by (by intros s0).
  assert (HRtrans : Transitive R).
  { intros s0 s1 s2 [Hk1 Hd1] [Hk2 Hd2]. split; [|congruence].
    intros k Hk. by rewrite Hk2, Hk1. }
  assert (HRsame : ∀ s0 s1, exampleSuggestions s1 = exampleSuggestions s0 → R s0 s1).
  { intros s0 s1 Hsame. unfold R. by rewrite Hsame. }
  match goal with |- context [(?c s).2] => assert (Hc : respects R c) end.
  { apply respects_bind; [done..| |intros _].
    - apply respects_promiseAllMap; [done..|]. intros E HE.
      destruct (proj1 (Hin E) HE) as (Hnew & _ & _).
      assert (HE' : ∀ k, k ∉ id <$> found → k ≠ id E).
      { intros k Hk ->. apply Hk. apply list_elem_of_fmap. by exists E. }
      intros s0. rewrite mergeNestedExample_unfold. revert s0.
      unfold ExampleSuggestion_save.
      apply respects_bind; [done..| |intros E1].
      + apply respects_saveIn; [done..| |].
        { intros fs s0. by apply HRsame. }
        cbn [isNew id fields setAssociatedWords]. rewrite Hnew.
        intros s0 Hstored. split.
        * intros k Hk. cbn. rewrite lookup_insert_ne; [done|].
          by apply not_eq_sym, HE'.
        * cbn. by apply dom_insert_lookup_L.
      + intros s0.
        destruct (executeMergeExample_others (id E) mergedBy s0) as [Hothers Hdom].
        split; [|done]. intros k Hk. by apply Hothers, HE'.
    - intros s0. apply HRsame. by apply preserves_saveIn. }
  destruct (Hc s) as [Hothers Hdom]. split; [|done].
  intros k es Hes Hnot. rewrite Hothers; [done|].
  intros (E & -> & HE)%list_elem_of_fmap. apply Hin in HE as (_ & Hget & Hq).
  rewrite Hget in Hes. injection Hes as <-.
  unfold holdsAssociatedWord in Hq. by apply bool_decide_eq_true in Hq.
Qed.

(** X17: whatever [mergeWord] answers, an Example Suggestion that does not
    name the Word Suggestion among its associated words is stored as it
    was, and no Example Suggestion has been created or deleted. *)
Theorem mergeWord_other_example_suggestions (url : string) (req : MergeWordRequest)
    (s : Store) :
  let s' := (mergeWord url req s).2 in
  (∀ k es, exampleSuggestions s !! k = Some es →
           id (suggestionDoc req) ∉ toString <$> ExampleSuggestion.associatedWords es →
           exampleSuggestions s' !! k = Some es)
  ∧ dom (exampleSuggestions s') = dom (exampleSuggestions s).
Proof.
  intros s'. apply (respects_tryCatch (keepsOtherSuggestions (id (suggestionDoc req)))).
  unfold mergeWord_result, mergeIntoWord, mergeIntoWord_then, createWordFromSuggestion,
    createWordFromSuggestion_then, Word_findOneAndUpdate.
  repeat first
    [ apply updateSuggestionAfterMerge_keepsOtherSuggestions
    | lazymatch goal with
      | |- respects _ (createWord _) =>
          apply keepsOtherSuggestions_preserves; by apply createWord_preserves
      | |- respects _ (handleSendingMergedEmail _ _) =>
          apply keepsOtherSuggestions_preserves;
          by apply handleSendingMergedEmail_preserves
      end
    | respect_step ltac:(by apply keepsOtherSuggestions_same) ].
Qed.

(** X18: a nested Example Suggestion whose merge is rejected after its
    save went through stays stored with the relinked associated words and
    without the stamp: the Word Suggestion's id is gone from them, so that a
    later search for the Example Suggestions that name the Word Suggestion
    does not find it any more.  The Examples are as they were, or hold the
    relinked suggestion's fields under one [_id], written before the
    rejection. *)
Theorem mergeNestedExample_rejected_stays_relinked
    (suggestionId originalWordId mergedBy : string) (E : Doc ExampleSuggestion.t)
    (s : Store) (E1 : Doc ExampleSuggestion.t) (s1 : Store) (e : Error) (s' : Store) :
  let associatedWords :=
    cascadeAssociatedWords (ExampleSuggestion.associatedWords (fields E))
      suggestionId originalWordId in
  suggestionId ≠ originalWordId →
  ExampleSuggestion_save (setAssociatedWords associatedWords E) s = (Ok E1, s1) →
  executeMergeExample (id E) mergedBy s1 = (Err e, s') →
  mergeNestedExample suggestionId originalWordId mergedBy E s = (Err e, s')
  ∧ exampleSuggestions s' !! id E = Some (fields (setAssociatedWords associatedWords E))
  ∧ suggestionId ∉ toString <$> associatedWords
  ∧ (examples s' = examples s
     ∨ ∃ k, examples s'
            = <[k := exampleFields (fields (setAssociatedWords associatedWords E))]>
                (examples s))
  ∧ ∀ found,
      ExampleSuggestion_find
        (λ es, holdsAssociatedWord suggestionId (ExampleSuggestion.associatedWords es)) s'
      = (Ok found, s') →
      id E ∉ id <$> found.
Proof.
  intros associatedWords Hne Hsave Hmerge.
  assert (Hrun : mergeNestedExample suggestionId originalWordId mergedBy E s = (Err e, s')).
  { unfold mergeNestedExample. fold associatedWords.
    rewrite (bind_Ok_step _ _ _ _ _ Hsave).
    apply saveIn_Ok_inv in Hsave as (fs & _ & -> & _). exact Hmerge. }
  split; [done|].
  destruct (cascadeAssociatedWords_linkedTo
              (ExampleSuggestion.associatedWords (fields E)) _ _ Hne) as [_ Hnot].
  fold associatedWords in Hnot.
  apply saveIn_Ok_inv in Hsave as (fs & -> & -> & _).
  apply executeMergeExample_Err_inv in Hmerge as [Hsame Hexamples].
  assert (Hstored : exampleSuggestions s' !! id E
                    = Some (fields (setAssociatedWords associatedWords E))).
  { rewrite Hsame. cbn. apply lookup_insert_eq. }
  split; [done|]. split; [done|]. split.
  { destruct Hexamples as [->|(es & k & Hes & ->)]; [by left|right].
    cbn in Hes. rewrite lookup_insert_eq in Hes. injection Hes as <-. by exists k. }
  intros found Hfound (d & Hid & Hd)%list_elem_of_fmap.
  apply (elem_of_findIn _ _ _ _ _ _ Hfound) in Hd as (_ & Hget & Hq).
  rewrite <- Hid, Hstored in Hget. injection Hget as Hfields. rewrite <- Hfields in Hq.
  cbn [fields setAssociatedWords ExampleSuggestion.associatedWords] in Hq.
  unfold holdsAssociatedWord in Hq. by apply bool_decide_eq_true in Hq.
Qed.

Lemma mergeNestedExample_rejected_stays_relinked_witness :
  let nested :=
    ExampleSuggestion.mk "Ana m eri nri" "I am eating food"
      [IdObj 1 Sample.suggestionId; IdStr Sample.otherWordId] None None None None in
  let s := Sample.storeWith nested in
  let run :=
    mergeNestedExample Sample.suggestionId Sample.wordId "merger"
      (mkDoc Sample.exampleSuggestionId false nested) s in
  run.1 = Err unknownWordError
  ∧ (ExampleSuggestion.associatedWords <$>
       exampleSuggestions run.2 !! Sample.exampleSuggestionId)
    = Some [IdStr Sample.otherWordId; IdStr Sample.wordId].
Proof.
  intros nested s run.
  set (E := mkDoc Sample.exampleSuggestionId false nested).
  set (saved := ExampleSuggestion_save
                  (setAssociatedWords
                     (cascadeAssociatedWords (ExampleSuggestion.associatedWords nested)
                        Sample.suggestionId Sample.wordId) E) s).
  assert (Hsave : saved = (Ok (okValue E saved.1), saved.2)) by (vm_compute; reflexivity).
  set (merged := executeMergeExample Sample.exampleSuggestionId "merger" saved.2).
  assert (Hmerge : merged = (Err unknownWordError, merged.2)) by (vm_compute; reflexivity).
  destruct (mergeNestedExample_rejected_stays_relinked Sample.suggestionId Sample.wordId
              "merger" E s (okValue E saved.1) saved.2 unknownWordError merged.2)
    as (Hrun & Hstored & Hnot & Hexamples & Hfind);
    [discriminate|exact Hsave|exact Hmerge|].
  split; [exact (f_equal fst Hrun)|]. vm_compute. reflexivity.
Defined.

(** ** [putWord] *)





(** ** [putExample] and [getExample] *)

Example split_comma_examples :
  split_comma "a,b" = ["a"; "b"]
  ∧ split_comma "" = [""]
  ∧ split_comma "a," = ["a"; ""]
  ∧ split_comma ",a,,b" = [""; "a"; ""; "b"].
Proof. repeat split; reflexivity. Qed.

Example trim_examples :
  trim "  a b  " = "a b" ∧ trim "" = "" ∧ trim "   " = "" ∧ trim "ab" = "ab"
  ∧ trim (String (ascii_of_nat 160) "ab") = "ab".
Proof. repeat split; reflexivity. Qed.

#[local] Instance IdStr_inj : Inj (=) (=) IdStr.
Proof. by intros x y [= ->]. Qed.

Lemma some_Exists {A} (P : A → bool) (l : list A) :
  some l P = true ↔ Exists (λ x, P x = true) l.
Proof.
  unfold some. rewrite Exists_exists. split.
  - intros (x & Hx%list_elem_of_In & HP)%existsb_exists. by exists x.
  - intros (x & Hx%list_elem_of_In & HP). apply existsb_exists. by exists x.
Qed.

(** [putExample] on a body with a text and an array of identifiers, one
    check after the other. *)
Lemma putExample_run (req : PutExampleRequest) (s : Store) (identifiers : list string) :
  let data := putExample_body req in
  truthy_opt_text (body_igbo data) = true ∨ truthy_opt_text (body_english data) = true →
  associatedWordsArray (body_associatedWords data) = Some identifiers →
  putExample req s
  = if decide (Exists (λ i, isValid (IdStr i) = false) identifiers)
    then (Next invalidIdError, s)
    else if decide (NoDup identifiers)
    then match examples s !! putExample_id req with
         | None => (Next (newError "Example doesn't exist"), s)
         | Some e =>
             tryCatch (Example_save (assignExample (mkDoc (putExample_id req) false e) data
                                       (IdStr <$> identifiers))) s
         end
    else (Next duplicatesError, s).
Proof.
  intros data Htext Harray. unfold putExample. fold data.
  assert ((negb (truthy_opt_text (body_igbo data))
           && negb (truthy_opt_text (body_english data))) = false) as ->.
  { destruct Htext as [-> | ->]; [done|]. apply andb_false_r. }
  rewrite Harray.
  destruct (some (IdStr <$> identifiers) _) eqn:Hsome.
  { rewrite decide_True; [done|]. apply some_Exists, Exists_fmap in Hsome.
    eapply Exists_impl; [exact Hsome|]. intros i Hi. by apply negb_true_iff. }
  rewrite decide_False.
  2:{ intros Hinvalid. apply not_true_iff_false in Hsome. apply Hsome.
      apply some_Exists, Exists_fmap. eapply Exists_impl; [exact Hinvalid|].
      intros i Hi. unfold compose. by rewrite Hi. }
  destruct (decide (NoDup identifiers)) as [Hnd|Hnd].
  - assert (length (IdStr <$> identifiers) = length (uniq (IdStr <$> identifiers)))
      as <- by (apply uniq_length_NoDup; by apply (NoDup_fmap_2 IdStr)).
    rewrite Nat.eqb_refl. cbn [negb]. unfold tryCatch, bind, findExampleById, findByIdIn.
    cbn [toString]. by destruct (examples s !! putExample_id req).
  - destruct (Nat.eqb_spec (length (IdStr <$> identifiers))
                (length (uniq (IdStr <$> identifiers)))) as [Hlen|Hlen]; [|done].
    apply uniq_length_NoDup in Hlen. by apply (NoDup_fmap IdStr) in Hlen.
Qed.

(** X21: [putExample] answers with an error and leaves the store exactly as
    it was when the body has neither an Igbo nor an English text
    ("Required information is missing, double check your provided data"),
    and, with a text, when no associated words are sent (a TypeError), when
    an identifier of the array, or a trimmed piece of the comma-separated
    string, is not a valid ObjectId ("Invalid id found in
    associatedWords"), when all are valid and one occurs twice
    ("Duplicates are not allows in associated words"), and when the array
    passes and the id, written as the store writes an ObjectId, names no
    stored Example ("Example doesn't exist"). *)
Theorem putExample_rejects_before_writing (req : PutExampleRequest) (s : Store) :
  let data := putExample_body req in
  (truthy_opt_text (body_igbo data) = false → truthy_opt_text (body_english data) = false →
   putExample req s = (Next missingTextError, s))
  ∧ (truthy_opt_text (body_igbo data) = true ∨ truthy_opt_text (body_english data) = true →
     (body_associatedWords data = NotSent →
      ∃ e, putExample req s = (Next e, s) ∧ name e = "TypeError")
     ∧ ∀ identifiers,
         associatedWordsArray (body_associatedWords data) = Some identifiers →
         (Exists (λ i, isValid (IdStr i) = false) identifiers →
          putExample req s = (Next invalidIdError, s))
         ∧ (Forall (λ i, isValid (IdStr i) = true) identifiers →
            (¬ NoDup identifiers → putExample req s = (Next duplicatesError, s))
            ∧ (NoDup identifiers →
               castObjectId (IdStr (putExample_id req)) = Some (putExample_id req) →
               examples s !! putExample_id req = None →
               putExample req s = (Next (newError "Example doesn't exist"), s)))).
Proof.
  intros data. split.
  - intros Higbo Henglish. unfold putExample. fold data. by rewrite Higbo, Henglish.
  - intros Htext. split.
    + intros Hnone. unfold putExample. fold data.
      assert ((negb (truthy_opt_text (body_igbo data))
               && negb (truthy_opt_text (body_english data))) = false) as ->.
      { destruct Htext as [-> | ->]; [done|]. apply andb_false_r. }
      rewrite Hnone. by eexists.
    + intros identifiers Harray. rewrite (putExample_run req s identifiers Htext Harray).
      split.
      * intros Hinvalid. by rewrite decide_True.
      * intros Hvalid.
        assert (Hnot : ¬ Exists (λ i, isValid (IdStr i) = false) identifiers).
        { intros (i & Hi & Hfalse)%Exists_exists. rewrite Forall_forall in Hvalid.
          specialize (Hvalid i Hi). congruence. }
        rewrite decide_False by done. split.
        -- intros Hnd. by rewrite decide_False.
        -- intros Hnd _ Hnone. by rewrite decide_True, Hnone.
Qed.

Lemma putExample_rejects_before_writing_witness :
  let s := Sample.consolidationStore in
  let texts := λ sent, mkExampleBody (Some "Ana m eri nri") None sent in
  putExample (mkPutExampleRequest Sample.exampleId
                (mkExampleBody (Some "") None (SentArray []))) s
  = (Next missingTextError, s)
  ∧ putExample (mkPutExampleRequest Sample.exampleId (texts (SentString ""))) s
    = (Next invalidIdError, s)
  ∧ putExample
      (mkPutExampleRequest Sample.exampleId
         (texts (SentString "5f0000000000000000000001, 5f0000000000000000000001 "))) s
    = (Next duplicatesError, s)
  ∧ putExample (mkPutExampleRequest Sample.wordId (texts (SentArray [Sample.wordId]))) s
    = (Next (newError "Example doesn't exist"), s).
Proof.
  intros s texts. split; [|split; [|split]].
  - apply (putExample_rejects_before_writing
             (mkPutExampleRequest Sample.exampleId
                (mkExampleBody (Some "") None (SentArray []))) s); reflexivity.
  - apply (putExample_rejects_before_writing
             (mkPutExampleRequest Sample.exampleId (texts (SentString ""))) s)
      with (identifiers := [""]).
    + left. reflexivity.
    + reflexivity.
    + apply Exists_cons_hd. reflexivity.
  - apply (putExample_rejects_before_writing
             (mkPutExampleRequest Sample.exampleId
                (texts (SentString "5f0000000000000000000001, 5f0000000000000000000001 ")))
             s)
      with (identifiers := [Sample.wordId; Sample.wordId]).
    + left. reflexivity.
    + vm_compute. reflexivity.
    + repeat constructor.
    + intros Hnd. apply NoDup_cons in Hnd as [Hnot _]. apply Hnot. by left.
  - apply (putExample_rejects_before_writing
             (mkPutExampleRequest Sample.wordId (texts (SentArray [Sample.wordId]))) s)
      with (identifiers := [Sample.wordId]).
    + left. reflexivity.
    + reflexivity.
    + repeat constructor.
    + apply NoDup_singleton.
    + vm_compute. reflexivity.
    + vm_compute. reflexivity.
Defined.




(** X23: [putExample] never consults the Words.  On two stores that hold
    the same Examples and meet the same store faults it gives the same
    answer and leaves the same Examples, whatever Words they hold: an
    identifier that names no stored Word is accepted as an associated
    word. *)
Theorem putExample_ignores_words (req : PutExampleRequest) (s s2 : Store) :
  examples s2 = examples s →
  faults s2 = faults s →
  (putExample req s2).1 = (putExample req s).1
  ∧ examples (putExample req s2).2 = examples (putExample req s).2.
Proof.
  intros Hexamples Hfaults.
  set (data := putExample_body req).
  destruct (negb (truthy_opt_text (body_igbo data))
            && negb (truthy_opt_text (body_english data))) eqn:Htext.
  { unfold putExample. fold data. by rewrite Htext. }
  destruct (associatedWordsArray (body_associatedWords data)) as [identifiers|] eqn:Harray.
  2:{ unfold putExample. fold data. by rewrite Htext, Harray. }
  assert (Hpresent : truthy_opt_text (body_igbo data) = true
                     ∨ truthy_opt_text (body_english data) = true).
  { apply andb_false_iff in Htext as [H|H]; apply negb_false_iff in H; auto. }
  rewrite (putExample_run req s identifiers Hpresent Harray).
  rewrite (putExample_run req s2 identifiers Hpresent Harray).
  destruct (decide (Exists _ identifiers)); [done|].
  destruct (decide (NoDup identifiers)); [|done].
  rewrite Hexamples.
  destruct (examples s !! putExample_id req) as [old|] eqn:Hold; [|done].
  unfold tryCatch, Example_save, saveIn, bind, storeWrite. rewrite Hfaults.
  destruct (faults s) as [|[e|] fs]; cbn; rewrite ?Hexamples, ?Hold; cbn;
    by rewrite ?Hexamples.
Qed.

Lemma putExample_ignores_words_witness :
  let body := mkExampleBody (Some "Ana m eri nri") None (SentArray [Sample.suggestionId]) in
  let req := mkPutExampleRequest Sample.exampleId body in
  let s := Sample.consolidationStore in
  ∃ d, (putExample req (set_words (λ _, ∅) s)).1 = Send d
       ∧ (putExample req s).1 = Send d
       ∧ Example.associatedWords (fields d) = [IdStr Sample.suggestionId].
Proof.
  intros body req s.
  destruct (putExample_ignores_words req s (set_words (λ _, ∅) s)) as [Hsame _];
    [reflexivity..|].
  set (d := sentValue (mkDoc "" false Sample.example1) (putExample req s).1).
  assert (Hrun : (putExample req s).1 = Send d) by (vm_compute; reflexivity).
  exists d. split; [by rewrite Hsame|]. split; [done|]. vm_compute. reflexivity.
Defined.

(** ** [mergeWord], the update branch *)

(** X24: the update branch of [mergeWord] does not undo the overwrite of
    the Word.  When [Word.findOneAndUpdate] has found the original Word and
    the cascade or the save of the stamped Word Suggestion then rejects,
    [mergeWord] answers with a new Error carrying the message of that
    rejection, and the stored Word is the original one overwritten with the
    suggestion. *)
Theorem mergeWord_update_keeps_overwrite (url : string) (req : MergeWordRequest)
    (s : Store) (original : Doc Word.t) (s1 : Store) (e : Error) (s2 : Store) :
  let suggestion := fields (suggestionDoc req) in
  truthy (WordSuggestion.originalWordId suggestion) = true →
  Word_findOneAndUpdate (WordSuggestion.originalWordId suggestion) (wordUpdate suggestion) s
  = (Ok (Some original), s1) →
  updateSuggestionAfterMerge (suggestionDoc req) original (user_uid req) s1 = (Err e, s2) →
  mergeWord url req s = (Next (newError (message e)), s2)
  ∧ words s !! id original = Some (fields original)
  ∧ words s2 !! id original = Some (wordUpdate suggestion (fields original)).
Proof.
  intros suggestion Htruthy Hupdate Hcascade. split.
  - unfold mergeWord, tryCatch, mergeWord_result. fold suggestion. rewrite Htruthy.
    unfold mergeIntoWord, mergeIntoWord_then, catch, bind. fold suggestion.
    by rewrite Hupdate, Hcascade.
  - apply (preserves_run words) in Hcascade;
      [|by apply updateSuggestionAfterMerge_preserves].
    rewrite Hcascade.
    apply findOneAndUpdateIn_Ok_inv in Hupdate as (fs & _ & Hold & ->).
    split; [done|]. cbn. apply lookup_insert_eq.
Qed.

Lemma mergeWord_update_keeps_overwrite_witness :
  let s := Sample.cascadeStore [None; Some Sample.connectionLost] in
  let run :=
    mergeWord "https://example.org"
      (mkMergeWordRequest "merger" (mkDoc Sample.suggestionId false Sample.pendingEdit)) s in
  run.1 = Next (newError "connection lost")
  ∧ (Word.definitions <$> words run.2 !! Sample.wordId) = Some (Some ["food"; "meal"])
  ∧ wordSuggestions run.2 !! Sample.suggestionId = Some Sample.pendingEdit.
Proof.
  intros s run.
  set (req := mkMergeWordRequest "merger" (mkDoc Sample.suggestionId false Sample.pendingEdit)).
  set (updated := Word_findOneAndUpdate (WordSuggestion.originalWordId Sample.pendingEdit)
                    (wordUpdate Sample.pendingEdit) s).
  set (original := mkDoc Sample.wordId false Sample.nri).
  assert (Hupdate : updated = (Ok (Some original), updated.2)) by (vm_compute; reflexivity).
  set (cascade := updateSuggestionAfterMerge (suggestionDoc req) original "merger" updated.2).
  assert (Hcascade : cascade = (Err Sample.connectionLost, cascade.2))
    by (vm_compute; reflexivity).
  destruct (mergeWord_update_keeps_overwrite "https://example.org" req s original updated.2
              Sample.connectionLost cascade.2)
    as (Hrun & Hbefore & Hafter); [reflexivity|exact Hupdate|exact Hcascade|].
  split; [exact (f_equal fst Hrun)|]. split; vm_compute; reflexivity.
Defined.

(** ** Runs that meet no fault *)

(** X25: [deleteWord] sends the combined Word whenever the two ids name two
    different stored Words, the primary id is a valid ObjectId and no write
    meets a store fault. *)
Theorem deleteWord_succeeds (req : DeleteWordRequest) (s : Store) (primaryWordId : string)
    (deleted primary : Word.t) :
  body_primaryWordId req = Some primaryWordId →
  primaryWordId ≠ params_id req →
  isValid (IdStr primaryWordId) = true →
  words s !! params_id req = Some deleted →
  words s !! primaryWordId = Some primary →
  faults s = [] →
  (deleteWord req s).1 = Send (combineWords (mkDoc primaryWordId false primary) deleted).
Proof.
  intros Hbody Hne Hvalid Hdeleted Hprimary Hf.
  destruct (deleteWord_found req s deleted Hdeleted) as (docs & Hfound & Hrun).
  rewrite Hbody in Hrun.
  cbn [fmap option_fmap option_map default from_option Datatypes.id] in Hrun.
  unfold tryCatch in Hrun.
  rewrite (findAndUpdateWord_found _ (IdStr primaryWordId) primary) in Hrun by done.
  cbn beta zeta iota delta [toString] in Hrun.
  set (s1 := set_words (delete (params_id req)) s).
  assert (Hdel : Word_deleteOne (params_id req) s = (Ok tt, s1))
    by (by apply deleteOneIn_no_faults).
  set (s2 := set_wordSuggestions
               (filter (λ kv, (toString <$> WordSuggestion.originalWordId kv.2)
                              ≠ Some (params_id req))) s1).
  assert (Hsugg : deleteWordSuggestionsByOriginalWordId (params_id req) s1 = (Ok tt, s2)).
  { unfold deleteWordSuggestionsByOriginalWordId.
    by rewrite (bind_Ok_step _ _ _ _ _ (storeWrite_no_faults s1 Hf)). }
  destruct (replaceWordIds_no_faults (IdStr (params_id req)) (IdStr primaryWordId) docs s2)
    as (s3 & Hrelink & Hf3 & Hexamples & Hwords); [done| |].
  { intros d Hd. apply (elem_of_findIn _ _ _ _ _ _ Hfound) in Hd as (Hnew & Hget & _).
    split; [done|]. by eexists. }
  rewrite (bind_Ok_step _ _ _ _ _ Hdel), (bind_Ok_step _ _ _ _ _ Hsugg),
    (bind_Ok_step _ _ _ _ _ Hrelink) in Hrun.
  unfold Word_save in Hrun. rewrite saveIn_no_faults in Hrun by done.
  cbn [isNew id combineWords] in Hrun. rewrite Hwords in Hrun.
  cbn [words s2 s1 set_wordSuggestions set_words] in Hrun.
  rewrite lookup_delete_ne, Hprimary in Hrun by done.
  by rewrite Hrun.
Qed.

Lemma deleteWord_succeeds_witness :
  (deleteWord (mkDeleteWordRequest Sample.otherWordId (Some Sample.wordId))
     Sample.consolidationStore).1
  = Send (combineWords (mkDoc Sample.wordId false Sample.nri) Sample.nni).
Proof.
  apply (deleteWord_succeeds (mkDeleteWordRequest Sample.otherWordId (Some Sample.wordId))
           Sample.consolidationStore Sample.wordId Sample.nni Sample.nri);
    first [reflexivity | discriminate].
Defined.

Lemma createExample_no_faults (data : Example.t) (s : Store) :
  faults s = [] →
  examples s !! objectIdOf (oidCounter s) = None →
  createExample data s
  = (Ok (mkDoc (objectIdOf (oidCounter s)) false data),
     set_examples (insert (objectIdOf (oidCounter s)) data)
       (set_oidCounter (S (oidCounter s)) s)).
Proof.
  intros Hf Hfresh. unfold createExample, bind, newObjectId, Example_save.
  rewrite saveIn_no_faults by done. cbn [isNew id fields]. cbn [examples set_oidCounter].
  by rewrite Hfresh.
Qed.

Lemma stampExampleSuggestion_no_faults (d : Doc ExampleSuggestion.t) (k mergedBy : string)
    (s : Store) (es : ExampleSuggestion.t) :
  isNew d = false →
  faults s = [] →
  exampleSuggestions s !! id d = Some es →
  updateDocumentMerge d k mergedBy s
  = (Ok (mkDoc (id d) false (setMerge k mergedBy (fields d))),
     set_exampleSuggestions (insert (id d) (setMerge k mergedBy (fields d))) s).
Proof.
  intros Hnew Hf Hes. unfold updateDocumentMerge.
  cbn [saveSuggestion ExampleSuggestion_Suggestion]. unfold ExampleSuggestion_save.
  rewrite saveIn_no_faults by done. cbn [isNew id fields]. by rewrite Hnew, Hes.
Qed.

(** X26: [executeMergeExample] resolves whenever the Example Suggestion is
    stored and passes the four checks, no write meets a store fault, and
    the store can take the write: the Example named by a truthy
    [originalExampleId] is stored, or else the [_id] the driver hands out
    next is not in use.  The Example it resolves with is then stored with
    the suggestion's fields. *)
Theorem executeMergeExample_succeeds (exampleSuggestionId mergedBy : string) (s : Store)
    (es : ExampleSuggestion.t) :
  exampleSuggestions s !! exampleSuggestionId = Some es →
  ¬ missingText es → ¬ hasInvalidId es → ¬ hasUnknownWord s es → ¬ hasRepeatedId es →
  faults s = [] →
  (if truthy (ExampleSuggestion.originalExampleId es)
   then ∃ v, ExampleSuggestion.originalExampleId es = Some v
             ∧ is_Some (examples s !! toString v)
   else examples s !! objectIdOf (oidCounter s) = None) →
  ∃ d s',
    executeMergeExample exampleSuggestionId mergedBy s = (Ok d, s')
    ∧ examples s' !! id d = Some (exampleFields es).
Proof.
  intros Hes Htext Hvalid Hknown Hnd Hf Hstore.
  rewrite (executeMergeExample_run _ _ _ _ Hes). rewrite !decide_False by done.
  destruct (truthy (ExampleSuggestion.originalExampleId es)).
  - destruct Hstore as (v & Hv & [old Hold]).
    unfold mergeIntoExample, Example_findOneAndUpdate, findOneAndUpdateIn. cbn [fields].
    rewrite Hv. unfold bind at 1 2. rewrite (storeWrite_no_faults s Hf).
    cbn [mbind option_bind fmap option_fmap option_map]. rewrite Hold.
    cbn [fmap option_fmap option_map]. cbv beta iota.
    erewrite bind_Ok_step;
      [|apply stampExampleSuggestion_no_faults with (es := es);
        [reflexivity|exact Hf|exact Hes]].
    eexists _, _. split; [reflexivity|]. cbn. apply lookup_insert_eq.
  - unfold createExampleFromSuggestion, catch. cbn [fields].
    rewrite (bind_Ok_step _ _ _ _ _ (createExample_no_faults _ s Hf Hstore)).
    erewrite bind_Ok_step;
      [|apply stampExampleSuggestion_no_faults with (es := es);
        [reflexivity|exact Hf|exact Hes]].
    eexists _, _. split; [reflexivity|]. cbn. apply lookup_insert_eq.
Qed.

Lemma executeMergeExample_succeeds_witness :
  let proposal :=
    ExampleSuggestion.mk "Ana m eri nri" "I am eating food" [IdStr Sample.wordId]
      None None None None in
  ∃ d s',
    executeMergeExample Sample.exampleSuggestionId "merger" (Sample.storeWith proposal)
    = (Ok d, s')
    ∧ examples s' !! id d = Some (exampleFields proposal).
Proof.
  intros proposal.
  apply (executeMergeExample_succeeds Sample.exampleSuggestionId "merger"
           (Sample.storeWith proposal) proposal).
  - vm_compute. reflexivity.
  - intros [Higbo _]. discriminate Higbo.
  - apply (bool_decide_unpack (¬ hasInvalidId proposal)). vm_compute. reflexivity.
  - apply (bool_decide_unpack (¬ hasUnknownWord (Sample.storeWith proposal) proposal)).
    vm_compute. reflexivity.
  - apply (bool_decide_unpack (¬ hasRepeatedId proposal)). vm_compute. reflexivity.
  - reflexivity.
  - vm_compute. reflexivity.
Defined.
